(** * A nostr client: event codec, NIP-19 identifiers, relay connections

    Shallow embedding of the protocol engine of the client:
    - [Nip19]  : the bech32 codec and the typed [npub]/[nsec]/[note] decoders;
    - [Event]  : [validateEvent], [serializeEvent], [getEventHash],
                 [finalizeEvent], [verifyEvent] and [sortEvents];
    - [Nip10]  : [parseThread], [createReplyTags] and [buildThreadTree];
    - [Nip65]  : the read and write relays of a relay list;
    - [RelayJs]: the [Relay] connection and the [RelayPool].

    JavaScript strings are sequences of UTF-16 code units, numbers used by
    the bit operators are 32-bit two's complement integers, thrown
    exceptions are the [Throw] case of [result]. *)

From Stdlib Require Import ZArith Lia String Ascii.
From Stdlib Require Import Floats.SpecFloat.
From Stdlib Require Import Sorting.Sorted.
From stdpp Require Import base option list gmap.

Set Warnings "-register-all".
Local Open Scope Z_scope.

(** ** JavaScript basics *)

(** A string is the list of its UTF-16 code units. *)
Abbreviation jsstring := (list Z) (only parsing).

(** The code units of an ASCII literal. *)
Definition js (s : string) : jsstring :=
  map (fun a => Z.of_nat (nat_of_ascii a)) (list_ascii_of_string s).

(** What a [throw] carries: the constructor called and its message. *)
Inductive exn : Type :=
  | Error (msg : string)
  | TypeError (msg : string).

(** The outcome of a call: a returned value or a thrown exception. *)
Inductive result (A : Type) : Type :=
  | Ok (a : A)
  | Throw (e : exn).
Arguments Ok {A} a.
Arguments Throw {A} e.

Definition bind {A B} (r : result A) (k : A -> result B) : result B :=
  match r with
  | Ok a => k a
  | Throw e => Throw e
  end.

Notation "'let!' x ':=' r 'in' k" := (bind r (fun x => k))
  (at level 10, x name, r at level 100, k at level 200).

(** The 32-bit integers of the bitwise operators ([ToInt32] and the
    operators of ECMA-262 on its results). *)
Module Int32.

Definition wrap (z : Z) : Z := (z + 2 ^ 31) mod 2 ^ 32 - 2 ^ 31.

(** [a << n] *)
Definition shl (a n : Z) : Z := wrap (Z.shiftl (wrap a) (Z.land n 31)).
(** [a >> n] *)
Definition shr (a n : Z) : Z := Z.shiftr (wrap a) (Z.land n 31).
(** [a & b] *)
Definition and (a b : Z) : Z := Z.land (wrap a) (wrap b).
(** [a | b] *)
Definition or (a b : Z) : Z := Z.lor (wrap a) (wrap b).
(** [a ^ b] *)
Definition xor (a b : Z) : Z := Z.lxor (wrap a) (wrap b).

End Int32.

(** [Number.prototype.toString(radix)] on an integer, digits lowercase. *)
Definition digitChar (d : Z) : Z := if d <? 10 then 48 + d else 87 + d.

Fixpoint toRadix (fuel : nat) (radix n : Z) (acc : jsstring) : jsstring :=
  match fuel with
  | O => acc
  | S fuel' =>
      let acc' := digitChar (n mod radix) :: acc in
      if n / radix =? 0 then acc' else toRadix fuel' radix (n / radix) acc'
  end.

Definition numToString (radix n : Z) : jsstring :=
  if n <? 0
  then 45 :: toRadix (S (Z.to_nat (Z.log2 (- n)))) radix (- n) []
  else toRadix (S (Z.to_nat (Z.log2 n))) radix n [].

(** [s.padStart(len, c)] with a one-unit filler. *)
Definition padStart (len : nat) (c : Z) (s : jsstring) : jsstring :=
  replicate (len - length s)%nat c ++ s.

(** [a.join('')] on an array of integers. *)
Definition joinNums (a : list Z) : jsstring :=
  concat (map (numToString 10) a).

(** [s.indexOf(c)] for a one-unit [c]: the first position, or -1. *)
Fixpoint indexOfFrom (i : Z) (c : Z) (s : jsstring) : Z :=
  match s with
  | [] => -1
  | x :: r => if x =? c then i else indexOfFrom (i + 1) c r
  end.

Definition indexOf (c : Z) (s : jsstring) : Z := indexOfFrom 0 c s.

(** [s.lastIndexOf(c)] for a one-unit [c]: the last position, or -1. *)
Fixpoint lastIndexOfFrom (i : Z) (c : Z) (s : jsstring) (found : Z) : Z :=
  match s with
  | [] => found
  | x :: r => lastIndexOfFrom (i + 1) c r (if x =? c then i else found)
  end.

Definition lastIndexOf (c : Z) (s : jsstring) : Z := lastIndexOfFrom 0 c s (-1).

(** [x] is a group of [w] bits. *)
Definition inRange (w : Z) (x : Z) : Prop := 0 <= x < 2 ^ w.

(** ** NIP-19: bech32-encoded entities *)
Module Nip19.

Definition BECH32_CHARSET : jsstring := js "qpzry9x8gf2tvdw0s3jn54khce6mua7l".

(** [BECH32_CHARSET[i]] inside a [join('')]: an index out of range reads
    [undefined], which [join] renders as the empty string. *)
Definition charsetAt (i : Z) : jsstring :=
  if i <? 0 then []
  else match BECH32_CHARSET !! Z.to_nat i with
       | Some c => [c]
       | None => []
       end.

(** The [while (bits >= toBits)] loop of [convertBits]; [None] when the
    fuel runs out before the loop exits. *)
Fixpoint drain (fuel : nat) (toBits maxv acc bits : Z) (out : list Z)
  : option (Z * list Z) :=
  if bits >=? toBits then
    match fuel with
    | O => None
    | S fuel' =>
        let bits' := bits - toBits in
        drain fuel' toBits maxv acc bits'
          (out ++ [Int32.and (Int32.shr acc bits') maxv])
    end
  else Some (bits, out).

(** The state of the [for] loop of [convertBits]. *)
Record cbState : Type := CbState { cb_acc : Z; cb_bits : Z; cb_out : list Z }.

(** One iteration of the [for] loop; the outer [option] is the fuel of
    the inner loop. *)
Definition convertStep (fromBits toBits maxv : Z) (st : cbState) (value : Z)
  : option (result cbState) :=
  if (value <? 0) || negb (Int32.shr value fromBits =? 0) then
    Some (Throw (Error "Invalid data"))
  else
    let acc := Int32.or (Int32.shl (cb_acc st) fromBits) value in
    let bits := cb_bits st + fromBits in
    match drain (Z.to_nat bits) toBits maxv acc bits (cb_out st) with
    | None => None
    | Some (bits', out') => Some (Ok (CbState acc bits' out'))
    end.

Fixpoint convertLoop (fromBits toBits maxv : Z) (st : cbState) (data : list Z)
  : option (result cbState) :=
  match data with
  | [] => Some (Ok st)
  | value :: rest =>
      match convertStep fromBits toBits maxv st value with
      | Some (Ok st') => convertLoop fromBits toBits maxv st' rest
      | other => other
      end
  end.

(** [convertBits(data, fromBits, toBits, pad)]; [None] only if the inner
    loop does not terminate (which needs [toBits <= 0]). *)
Definition convertBits (data : list Z) (fromBits toBits : Z) (pad : bool)
  : option (result (list Z)) :=
  let maxv := Int32.shl 1 toBits - 1 in
  match convertLoop fromBits toBits maxv (CbState 0 0 []) data with
  | None => None
  | Some (Throw e) => Some (Throw e)
  | Some (Ok st) =>
      let tail := Int32.and (Int32.shl (cb_acc st) (toBits - cb_bits st)) maxv in
      if pad then
        if cb_bits st >? 0
        then Some (Ok (cb_out st ++ [tail]))
        else Some (Ok (cb_out st))
      else if (cb_bits st >=? fromBits) || negb (tail =? 0)
        then Some (Throw (Error "Invalid padding"))
        else Some (Ok (cb_out st))
  end.

Definition prefixExpand (prefix : jsstring) : list Z :=
  map (fun c => Int32.shr c 5) prefix ++ [0] ++
  map (fun c => Int32.and c 31) prefix.

Definition GEN : list Z :=
  [0x3b6a57b2; 0x26508e6d; 0x1ea119fa; 0x3d4233dd; 0x2a1462b3].

(** The body of the outer loop of [bech32Polymod]. *)
Definition polymodStep (chk value : Z) : Z :=
  let b := Int32.shr chk 25 in
  let chk1 := Int32.xor (Int32.shl (Int32.and chk 0x1ffffff) 5) value in
  fold_left
    (fun c (jg : Z * Z) =>
       if Int32.and (Int32.shr b (fst jg)) 1 =? 0 then c
       else Int32.xor c (snd jg))
    (combine [0; 1; 2; 3; 4] GEN) chk1.

Definition bech32Polymod (values : list Z) : Z := fold_left polymodStep values 1.

Definition createChecksum (prefix : jsstring) (data : list Z) : list Z :=
  let values := prefixExpand prefix ++ data ++ [0; 0; 0; 0; 0; 0] in
  let polymod := Int32.xor (bech32Polymod values) 1 in
  map (fun i => Int32.and (Int32.shr polymod (5 * (5 - i))) 31)
      [0; 1; 2; 3; 4; 5].

Definition bech32Encode (prefix : jsstring) (data : list Z)
  : option (result jsstring) :=
  match convertBits data 8 5 true with
  | None => None
  | Some (Throw e) => Some (Throw e)
  | Some (Ok combined) =>
      let checksum := createChecksum prefix combined in
      let encoded := concat (map charsetAt (combined ++ checksum)) in
      Some (Ok (prefix ++ js "1" ++ encoded))
  end.

(** The character loop of [bech32Decode]. *)
Fixpoint decodeChars (data : jsstring) (decoded : list Z) : result (list Z) :=
  match data with
  | [] => Ok decoded
  | c :: rest =>
      let v := indexOf c BECH32_CHARSET in
      if v =? -1 then Throw (Error "Invalid character")
      else decodeChars rest (decoded ++ [v])
  end.

Definition bech32Decode (str : jsstring)
  : option (result (jsstring * list Z)) :=
  let pos := lastIndexOf 49 str in
  if pos <? 1 then Some (Throw (Error "Invalid bech32 string"))
  else
    let prefix := take (Z.to_nat pos) str in
    let data := drop (Z.to_nat (pos + 1)) str in
    match decodeChars data [] with
    | Throw e => Some (Throw e)
    | Ok decoded =>
        let payload := take (length decoded - 6)%nat decoded in
        let checksum := drop (length decoded - 6)%nat decoded in
        let expectedChecksum := createChecksum prefix payload in
        if bool_decide (joinNums checksum = joinNums expectedChecksum) then
          match convertBits payload 5 8 false with
          | None => None
          | Some (Throw e) => Some (Throw e)
          | Some (Ok bytes) => Some (Ok (prefix, bytes))
          end
        else Some (Throw (Error "Invalid checksum"))
    end.

Definition bytesToHex (bytes : list Z) : jsstring :=
  concat (map (fun b => padStart 2 48 (numToString 16 b)) bytes).

(** The shared shape of [npubDecode], [nsecDecode] and [noteDecode]. *)
Definition typedDecode (tag : string) (str : jsstring)
  : option (result jsstring) :=
  match bech32Decode str with
  | None => None
  | Some (Throw e) => Some (Throw e)
  | Some (Ok (prefix, data)) =>
      if bool_decide (prefix = js tag)
      then Some (Ok (bytesToHex data))
      else Some (Throw (Error ("Invalid " ++ tag)))
  end.

Definition npubDecode (npub : jsstring) := typedDecode "npub" npub.
Definition nsecDecode (nsec : jsstring) := typedDecode "nsec" nsec.
Definition noteDecode (note : jsstring) := typedDecode "note" note.

(** *** What the proofs about the codec speak of *)

(** The number that a sequence of [w]-bit groups spells, most
    significant group first. *)
Definition groupsValue (w : Z) (l : list Z) : Z :=
  fold_left (fun n v => n * 2 ^ w + v) l 0.

(** What the loop of [convertBits] maintains once [p] has been consumed:
    the accumulator agrees with the bits read so far on its 32 bits, the
    output spells them without the [cb_bits] pending ones. *)
Record cbInv (f t : Z) (p : list Z) (st : cbState) : Prop := {
  inv_acc : cb_acc st mod 2 ^ 32 = groupsValue f p mod 2 ^ 32;
  inv_out : groupsValue t (cb_out st) = groupsValue f p / 2 ^ cb_bits st;
  inv_len : Z.of_nat (length p) * f
            = Z.of_nat (length (cb_out st)) * t + cb_bits st;
  inv_bits : 0 <= cb_bits st < t;
  inv_range : Forall (inRange t) (cb_out st)
}.

(** Each of the 32 symbols is read back as its own index, and none of
    them is the separator. *)
Definition symbolOK (i : Z) : bool :=
  match charsetAt i with
  | [c] => negb (c =? 49) && (indexOf c BECH32_CHARSET =? i)
  | _ => false
  end.

(** Thirty-two zero bytes. *)
Definition zeroKey : list Z := replicate 32 0.

(** *** Hexadecimal strings and the typed encoders *)

(** [StrWhiteSpaceChar]: the characters [parseInt] skips at the start. *)
Definition isWhiteSpace (c : Z) : bool :=
  existsb (Z.eqb c)
    [9; 10; 11; 12; 13; 32; 160; 5760; 8232; 8233; 8239; 8287; 12288; 65279]
  || ((8192 <=? c) && (c <=? 8202)).

Fixpoint trimStart (s : jsstring) : jsstring :=
  match s with
  | c :: rest => if isWhiteSpace c then trimStart rest else s
  | [] => []
  end.

(** The value of a digit in radix 16, either case. *)
Definition hexDigitValue (c : Z) : option Z :=
  if (48 <=? c) && (c <=? 57) then Some (c - 48)
  else if (97 <=? c) && (c <=? 102) then Some (c - 87)
  else if (65 <=? c) && (c <=? 70) then Some (c - 55)
  else None.

(** The longest run of digits at the start of [s]; [None] when there is
    no digit. *)
Fixpoint parseDigits16 (s : jsstring) (acc : option Z) : option Z :=
  match s with
  | [] => acc
  | c :: rest =>
      match hexDigitValue c with
      | Some d => parseDigits16 rest (Some (16 * default 0 acc + d))
      | None => acc
      end
  end.

(** [parseInt(s, 16)]: white space, a sign and [0x] are skipped, the
    digits that follow are read; [None] is [NaN]. The result is exact for
    fewer than fourteen digits, and [-0] is written [0]. *)
Definition parseInt16 (s : jsstring) : option Z :=
  let s1 := trimStart s in
  let negative := match s1 with c :: _ => c =? 45 | [] => false end in
  let s2 := match s1 with
            | c :: rest => if (c =? 45) || (c =? 43) then rest else s1
            | [] => []
            end in
  let s3 := match s2 with
            | z :: x :: rest =>
                if (z =? 48) && ((x =? 120) || (x =? 88)) then rest else s2
            | _ => s2
            end in
  match parseDigits16 s3 None with
  | Some n => Some (if negative then - n else n)
  | None => None
  end.

(** [hexToBytes(hex)]: [parseInt(hex.substr(i, 2), 16)] for [i] = 0, 2,
    4, ... *)
Fixpoint hexToBytes (hex : jsstring) : list (option Z) :=
  match hex with
  | [] => []
  | [c] => [parseInt16 [c]]
  | c1 :: c2 :: rest => parseInt16 [c1; c2] :: hexToBytes rest
  end.

(** A number as [convertBits] reads it: [NaN < 0] is false and the
    bitwise operators turn [NaN] into 0. *)
Definition operand (x : option Z) : Z := default 0 x.

Definition npubEncode (pubkeyHex : jsstring) : option (result jsstring) :=
  bech32Encode (js "npub") (map operand (hexToBytes pubkeyHex)).
Definition nsecEncode (privkeyHex : jsstring) : option (result jsstring) :=
  bech32Encode (js "nsec") (map operand (hexToBytes privkeyHex)).
Definition noteEncode (eventIdHex : jsstring) : option (result jsstring) :=
  bech32Encode (js "note") (map operand (hexToBytes eventIdHex)).

(** A byte and its two digits, and two digits and their byte. *)
Definition byteReadBack (b : Z) : bool :=
  match padStart 2 48 (numToString 16 b) with
  | [c1; c2] => bool_decide (parseInt16 [c1; c2] = Some b)
  | _ => false
  end.

Definition lowerHexDigits : list Z :=
  [48; 49; 50; 51; 52; 53; 54; 55; 56; 57; 97; 98; 99; 100; 101; 102].

Definition pairWrittenBack (c1 c2 : Z) : bool :=
  match parseInt16 [c1; c2] with
  | Some b => (0 <=? b) && (b <? 256) &&
              bool_decide (padStart 2 48 (numToString 16 b) = [c1; c2])
  | None => false
  end.


(** A lowercase hexadecimal digit. *)
Definition isLowerHex (c : Z) : Prop := 48 <= c <= 57 \/ 97 <= c <= 102.

(** A value the check of [convertBits] refuses. *)
Definition outOfRange (fromBits v : Z) : Prop :=
  v < 0 \/ 2 ^ fromBits <= v < 2 ^ 31.

(** The character of a symbol, and the check that two symbols are
    written as different decimal numbers. *)
Definition symbolChar (v : Z) : Z := default 0 (BECH32_CHARSET !! Z.to_nat v).

Definition decimalsDiffer (v w : Z) : bool :=
  bool_decide (v = w)
  || negb (bool_decide (numToString 10 v = numToString 10 w)).

End Nip19.


(** ** Events *)

(** JavaScript values as they arrive from [JSON.parse] or an object
    literal. Numbers are IEEE 754 doubles. An object is the list of its
    own properties in insertion order. *)
Inductive value : Type :=
  | VUndefined
  | VNull
  | VBool (b : bool)
  | VNum (n : spec_float)
  | VStr (s : jsstring)
  | VArr (items : list value)
  | VObj (props : list (jsstring * value)).

Inductive jstype : Type :=
  | TUndefined | TObject | TBoolean | TNumber | TString.

Definition typeof (v : value) : jstype :=
  match v with
  | VUndefined => TUndefined
  | VNull => TObject
  | VBool _ => TBoolean
  | VNum _ => TNumber
  | VStr _ => TString
  | VArr _ => TObject
  | VObj _ => TObject
  end.

Definition isTObject (t : jstype) : bool :=
  match t with TObject => true | _ => false end.
Definition isTNumber (t : jstype) : bool :=
  match t with TNumber => true | _ => false end.
Definition isTString (t : jstype) : bool :=
  match t with TString => true | _ => false end.

(** [Number.isInteger] on a double. *)
Definition isInteger (n : spec_float) : bool :=
  match n with
  | S754_zero _ => true
  | S754_finite _ m e =>
      if 0 <=? e then true
      else Z.pos m mod 2 ^ (- e) =? 0
  | _ => false
  end.

(** Own property lookup in a property list. *)
Fixpoint objGet (props : list (jsstring * value)) (k : jsstring) : value :=
  match props with
  | [] => VUndefined
  | (k', v) :: rest => if bool_decide (k' = k) then v else objGet rest k
  end.

(** [o[k] = v] on a property list: an existing key keeps its place. *)
Fixpoint objSet (props : list (jsstring * value)) (k : jsstring) (v : value)
  : list (jsstring * value) :=
  match props with
  | [] => [(k, v)]
  | (k', v') :: rest =>
      if bool_decide (k' = k) then (k, v) :: rest
      else (k', v') :: objSet rest k v
  end.

(** [v.k] for the property names of an event ([kind], [content],
    [created_at], [pubkey], [tags], [id], [sig]): reading from [null] or
    [undefined] throws a TypeError, an array or a primitive has none of
    them. *)
Definition getProp (v : value) (k : jsstring) : result value :=
  match v with
  | VUndefined | VNull => Throw (TypeError "Cannot read properties")
  | VObj props => Ok (objGet props k)
  | _ => Ok VUndefined
  end.

(** The own enumerable properties copied by [{...v}]. *)
Definition spreadProps (v : value) : list (jsstring * value) :=
  match v with
  | VObj props => props
  | VArr items => imap (fun i x => (numToString 10 (Z.of_nat i), x)) items
  | VStr s => imap (fun i c => (numToString 10 (Z.of_nat i), VStr [c])) s
  | _ => []
  end.

(** The character class [[a-f0-9]]. *)
Definition isLowerHexChar (c : Z) : bool :=
  ((48 <=? c) && (c <=? 57)) || ((97 <=? c) && (c <=? 102)).

(** [s.match(/^[a-f0-9]{64}$/)] is not null. *)
Definition matchesHex64 (s : jsstring) : bool :=
  (length s =? 64)%nat && forallb isLowerHexChar s.

(** The functions the module imports or finds in its host: [JSON],
    [TextEncoder], [sha256] of @noble/hashes, [schnorr] of @noble/curves
    and [String.prototype.localeCompare]. A secret key is a byte array. *)
Class Host : Type := {
  JSON_stringify : value -> jsstring;
  utf8_encode : jsstring -> list Z;
  sha256 : list Z -> list Z;
  schnorr_getPublicKey : list Z -> result (list Z);
  schnorr_sign : jsstring -> list Z -> result (list Z);
  schnorr_verify : value -> jsstring -> value -> result bool;
  localeCompare : jsstring -> jsstring -> Z
}.

(** *** A small host and sample data *)

(** Code-unit order on strings. *)
Fixpoint lexCompare (a b : list Z) : comparison :=
  match a, b with
  | [], [] => Eq
  | [], _ :: _ => Lt
  | _ :: _, [] => Gt
  | x :: a', y :: b' =>
      match x ?= y with
      | Eq => lexCompare a' b'
      | c => c
      end
  end.

Definition isByte (b : Z) : bool := (0 <=? b) && (b <? 256).

(** A small host to run the definitions on: the "hash" keeps the length
    of its input, a public key is the secret key itself, a signature is
    the public key, strings are compared by code units. *)
Definition demoHost : Host := {|
  JSON_stringify := fun v =>
    match v with
    | VArr (_ :: VStr pk :: _ :: _ :: _ :: VStr content :: _) => pk ++ content
    | _ => []
    end;
  utf8_encode := fun s => map (fun c => c mod 256) s;
  sha256 := fun m => replicate 32 (Z.of_nat (length m) mod 256);
  schnorr_getPublicKey := fun sk =>
    if (length sk =? 32)%nat && forallb isByte sk then Ok sk
    else Throw (Error "invalid secret key");
  schnorr_sign := fun m sk =>
    if (length sk =? 32)%nat && forallb isByte sk then Ok sk
    else Throw (Error "invalid secret key");
  schnorr_verify := fun sig m pk =>
    match sig, pk with
    | VStr s, VStr p => Ok (bool_decide (s = p))
    | _, _ => Throw (Error "invalid signature")
    end;
  localeCompare := fun a b =>
    match lexCompare a b with Lt => -1 | Eq => 0 | Gt => 1 end
|}.

(** 1 and 1.5 as doubles. *)
Definition one : spec_float := S754_finite false 4503599627370496 (-52).
Definition oneAndHalf : spec_float := S754_finite false 6755399441055744 (-52).

Definition demoKey : list Z := replicate 32 7.

Definition demoTemplate : list (list Z * value) :=
  [(js "kind", VNum one); (js "created_at", VNum one);
   (js "tags", VArr [VArr [VStr (js "t"); VStr (js "nostr")]]);
   (js "content", VStr (js "hello"))].

(** An event whose [kind] is 1.5. *)
Definition fractionalKindProps : list (list Z * value) :=
  [(js "kind", VNum oneAndHalf); (js "created_at", VNum one);
   (js "tags", VArr []); (js "content", VStr (js ""));
   (js "pubkey", VStr (replicate 64 97))].

Definition fractionalKindEvent : value := VObj fractionalKindProps.

Module Event.

(** [bytesToHex] of @noble/hashes/utils: two lowercase digits a byte. *)
Definition bytesToHex (bytes : list Z) : jsstring :=
  concat (map (fun b => padStart 2 48 (numToString 16 b)) bytes).

(** The inner loop of [validateEvent]: every item of a tag is a string. *)
Definition tagItemsAreStrings (tag : list value) : bool :=
  forallb (fun x => isTString (typeof x)) tag.

(** The outer loop of [validateEvent]. *)
Definition tagsAreValid (tags : list value) : bool :=
  forallb (fun tag => match tag with
                      | VArr items => tagItemsAreStrings items
                      | _ => false
                      end) tags.

Definition validateEvent (event : value) : result bool :=
  if negb (isTObject (typeof event)) then Ok false else
  let! kind := getProp event (js "kind") in
  if negb (isTNumber (typeof kind)) then Ok false else
  let! content := getProp event (js "content") in
  if negb (isTString (typeof content)) then Ok false else
  let! created_at := getProp event (js "created_at") in
  if negb (isTNumber (typeof created_at)) then Ok false else
  let! pubkey := getProp event (js "pubkey") in
  match pubkey with
  | VStr pk =>
      if negb (matchesHex64 pk) then Ok false else
      let! tags := getProp event (js "tags") in
      match tags with
      | VArr items => Ok (tagsAreValid items)
      | _ => Ok false
      end
  | _ => Ok false
  end.

(** *** The shape [validateEvent] accepts *)

Definition isString (v : value) : Prop := exists s, v = VStr s.

Definition isTag (v : value) : Prop :=
  exists items, v = VArr items /\ Forall isString items.

Definition tagsShape (v : value) : Prop :=
  exists tags, v = VArr tags /\ Forall isTag tags.

Definition lowerHex (c : Z) : Prop := 48 <= c <= 57 \/ 97 <= c <= 102.

Definition pubkeyShape (v : value) : Prop :=
  exists pk, v = VStr pk /\ length pk = 64%nat /\ Forall lowerHex pk.

(** The fields a template brings: [kind] and [created_at] numbers,
    [content] a string, [tags] an array of arrays of strings. *)
Definition templateShape (props : list (list Z * value)) : Prop :=
  typeof (objGet props (js "kind")) = TNumber /\
  typeof (objGet props (js "content")) = TString /\
  typeof (objGet props (js "created_at")) = TNumber /\
  tagsShape (objGet props (js "tags")).

Definition eventShape (v : value) : Prop :=
  exists props, v = VObj props /\ templateShape props /\
                pubkeyShape (objGet props (js "pubkey")).

(** A byte is written as two digits of [0-9a-f]. *)
Definition byteHexOK (b : Z) : bool :=
  match padStart 2 48 (numToString 16 b) with
  | [c1; c2] => isLowerHexChar c1 && isLowerHexChar c2
  | _ => false
  end.

Section WithHost.
Context `{Host}.

(** The array [serializeEvent] hands to [JSON.stringify]. *)
Definition canonical (props : list (list Z * value)) : value :=
  VArr [VNum (S754_zero false); objGet props (js "pubkey");
        objGet props (js "created_at"); objGet props (js "kind");
        objGet props (js "tags"); objGet props (js "content")].

(** The hash of an event with the properties [props]. *)
Definition hashOf (props : list (list Z * value)) : list Z :=
  bytesToHex (sha256 (utf8_encode (JSON_stringify (canonical props)))).

(** What [serializeEvent] throws. *)
Definition serializeError : exn :=
  Error "Can't serialize event with wrong or missing properties".

Definition serializeEvent (event : value) : result jsstring :=
  let! valid := validateEvent event in
  if negb valid
  then Throw serializeError
  else
    let! pubkey := getProp event (js "pubkey") in
    let! created_at := getProp event (js "created_at") in
    let! kind := getProp event (js "kind") in
    let! tags := getProp event (js "tags") in
    let! content := getProp event (js "content") in
    Ok (JSON_stringify
          (VArr [VNum (S754_zero false); pubkey; created_at; kind; tags; content])).

Definition getEventHash (event : value) : result jsstring :=
  let! serialized := serializeEvent event in
  Ok (bytesToHex (sha256 (utf8_encode serialized))).

Definition finalizeEvent (eventTemplate : value) (secretKey : list Z)
  : result value :=
  let! pk := schnorr_getPublicKey secretKey in
  let pubkey := bytesToHex pk in
  let event := objSet (spreadProps eventTemplate) (js "pubkey") (VStr pubkey) in
  let! id := getEventHash (VObj event) in
  let event := objSet event (js "id") (VStr id) in
  let! sig := schnorr_sign id secretKey in
  let event := objSet event (js "sig") (VStr (bytesToHex sig)) in
  Ok (VObj event).

(** [hash !== v] for a string [hash]. *)
Definition strictNeqStr (hash : jsstring) (v : value) : bool :=
  match v with
  | VStr s => negb (bool_decide (s = hash))
  | _ => true
  end.

Definition verifyEvent (event : value) : result bool :=
  let! hash := getEventHash event in
  let! id := getProp event (js "id") in
  if strictNeqStr hash id then Ok false
  else
    let! sig := getProp event (js "sig") in
    let! pubkey := getProp event (js "pubkey") in
    match schnorr_verify sig hash pubkey with
    | Ok b => Ok b
    | Throw _ => Ok false
    end.

End WithHost.

(** A signed event, as the feed holds it. *)
Record NostrEvent : Type := {
  ev_id : jsstring;
  ev_pubkey : jsstring;
  ev_created_at : Z;
  ev_kind : Z;
  ev_tags : list (list jsstring);
  ev_content : jsstring;
  ev_sig : jsstring
}.

(** [Array.prototype.sort(cmp)]: the sort is stable (ECMAScript 2019);
    [x] stays in front of [y] when [cmp(x, y) <= 0]. *)
Section ArraySort.
Context {A : Type} (cmp : A -> A -> Z).

Fixpoint sortInsert (x : A) (l : list A) : list A :=
  match l with
  | [] => [x]
  | y :: rest => if cmp x y <=? 0 then x :: y :: rest
                 else y :: sortInsert x rest
  end.

Fixpoint Array_sort (l : list A) : list A :=
  match l with
  | [] => []
  | x :: rest => sortInsert x (Array_sort rest)
  end.

End ArraySort.

(** Arrays are objects: a variable holds a reference into the heap. *)
Abbreviation heap := (gmap nat (list NostrEvent)) (only parsing).

Section Sorting.
Context `{Host}.

(** The comparison function handed to [sort]. *)
Definition compareEvents (a b : NostrEvent) : Z :=
  if negb (ev_created_at a =? ev_created_at b)
  then ev_created_at b - ev_created_at a
  else localeCompare (ev_id a) (ev_id b).

(** [sortEvents(events)]: sorts the array [events] refers to, in the heap,
    and returns the reference it was given. *)
Definition sortEvents (events : nat) (h : heap) : nat * heap :=
  (events, alter (Array_sort compareEvents) events h).

End Sorting.

(** The event [finalizeEvent] makes of the template on the small host. *)
Definition demoEvent : value :=
  match @finalizeEvent demoHost (VObj demoTemplate) demoKey with
  | Ok e => e
  | Throw _ => VUndefined
  end.

(** *** The order of a feed *)

(** [a] may stand in front of [b]: it is newer, or as old with an [id]
    that is not greater in code-unit order. *)
Definition recencyLe (a b : NostrEvent) : Prop :=
  ev_created_at b < ev_created_at a \/
  (ev_created_at a = ev_created_at b /\ lexCompare (ev_id a) (ev_id b) <> Gt).

(** The comparison of [sortEvents] with code-unit order on the ids. *)
Definition refCompare (a b : NostrEvent) : Z :=
  if negb (ev_created_at a =? ev_created_at b)
  then ev_created_at b - ev_created_at a
  else match lexCompare (ev_id a) (ev_id b) with
       | Lt => -1
       | Eq => 0
       | Gt => 1
       end.

(** The host collates strings of the digits [0-9a-f] as their code
    units are ordered. *)
Definition collatesHex `{Host} : Prop :=
  forall a b, Forall lowerHex a -> Forall lowerHex b ->
              (localeCompare a b ?= 0) = lexCompare a b.

Definition hexId (e : NostrEvent) : Prop := Forall lowerHex (ev_id e).

(** Three events of a feed: two share their second, two share both keys
    and differ in content. *)
Definition note (id : string) (t : Z) (text : string) : NostrEvent :=
  {| ev_id := js id; ev_pubkey := js "ab"; ev_created_at := t; ev_kind := 1;
     ev_tags := []; ev_content := js text; ev_sig := js "cd" |}.

Definition demoFeed : list NostrEvent :=
  [note "0b" 10 "first"; note "0a" 20 "second"; note "0b" 10 "third";
   note "0a" 10 "fourth"].

(** A host that collates as ICU does on letters: case is looked at only
    when the strings are equal without it, and then the lowercase letter
    comes first. The other members are those of [demoHost]. *)
Definition foldCase (c : Z) : Z :=
  if (65 <=? c) && (c <=? 90) then c + 32 else c.

Definition collatingHost : Host := {|
  JSON_stringify := @JSON_stringify demoHost;
  utf8_encode := @utf8_encode demoHost;
  sha256 := @sha256 demoHost;
  schnorr_getPublicKey := @schnorr_getPublicKey demoHost;
  schnorr_sign := @schnorr_sign demoHost;
  schnorr_verify := @schnorr_verify demoHost;
  localeCompare := fun a b =>
    match lexCompare (map foldCase a) (map foldCase b) with
    | Lt => -1
    | Gt => 1
    | Eq => match lexCompare b a with Lt => -1 | Eq => 0 | Gt => 1 end
    end
|}.


(** *** Contact lists and relay lists *)

(** A string in a condition: only the empty string is false. *)
Definition truthy (s : jsstring) : bool := negb (bool_decide (s = [])).

(** [tag[i]] in a condition: a missing item reads [undefined]. *)
Definition itemTruthy (tag : list (list Z)) (i : nat) : bool :=
  match tag !! i with
  | Some s => truthy s
  | None => false
  end.

(** [tag[i] || ''] *)
Definition itemOrEmpty (tag : list (list Z)) (i : nat) : jsstring :=
  default [] (tag !! i).

(** [tag[i] === name] *)
Definition itemIs (tag : list (list Z)) (i : nat) (name : string) : bool :=
  bool_decide (tag !! i = Some (js name)).

(** An unsigned event: what the [create...] functions return. *)
Record EventTemplate : Type := {
  t_kind : Z;
  t_created_at : Z;
  t_tags : list (list (list Z));
  t_content : list Z
}.

(** An entry of the argument of [createContactListEvent], and of the
    result of [parseContactList]; a missing [relay] or [petname] is the
    empty string. *)
Record Follow : Type := {
  follow_pubkey : list Z;
  follow_relay : list Z;
  follow_petname : list Z
}.

(** The tag [createContactListEvent] makes of a follow. *)
Definition followTag (follow : Follow) : list (list Z) :=
  [js "p"; follow_pubkey follow]
  ++ (if truthy (follow_relay follow) then [follow_relay follow] else [])
  ++ (if truthy (follow_petname follow) then [follow_petname follow] else []).

(** [createContactListEvent(follows)] at the time [now] of [Date.now()]. *)
Definition createContactListEvent (now : Z) (follows : list Follow)
  : EventTemplate :=
  {| t_kind := 3;
     t_created_at := now / 1000;
     t_tags := map followTag follows;
     t_content := [] |}.

(** The follow [parseContactList] makes of a tag. *)
Definition tagFollow (tag : list (list Z)) : Follow :=
  {| follow_pubkey := itemOrEmpty tag 1;
     follow_relay := itemOrEmpty tag 2;
     follow_petname := itemOrEmpty tag 3 |}.

Definition parseContactList (event : NostrEvent) : list Follow :=
  if negb (ev_kind event =? 3) then []
  else
    map tagFollow
        (List.filter (fun tag => itemIs tag 0 "p" && itemTruthy tag 1)
                     (ev_tags event)).

(** An entry of the argument of [createRelayListEvent], and of the
    result of [parseRelayList]. *)
Record RelayEntry : Type := {
  entry_url : list Z;
  entry_read : bool;
  entry_write : bool
}.

(** The tag [createRelayListEvent] makes of a relay. *)
Definition relayTag (relay : RelayEntry) : list (list Z) :=
  [js "r"; entry_url relay]
  ++ (if entry_read relay && negb (entry_write relay) then [js "read"]
      else if entry_write relay && negb (entry_read relay) then [js "write"]
      else []).

Definition createRelayListEvent (now : Z) (relays : list RelayEntry)
  : EventTemplate :=
  {| t_kind := 10002;
     t_created_at := now / 1000;
     t_tags := map relayTag relays;
     t_content := [] |}.

(** The relay [parseRelayList] makes of a tag. *)
Definition tagRelay (tag : list (list Z)) : RelayEntry :=
  {| entry_url := itemOrEmpty tag 1;
     entry_read := negb (itemTruthy tag 2) || itemIs tag 2 "read";
     entry_write := negb (itemTruthy tag 2) || itemIs tag 2 "write" |}.

Definition parseRelayList (event : NostrEvent) : list RelayEntry :=
  if negb (ev_kind event =? 10002) then []
  else
    map tagRelay
        (List.filter (fun tag => itemIs tag 0 "r" && itemTruthy tag 1)
                     (ev_tags event)).

(** What a follow comes back as: without a relay, the petname is read
    as the relay. *)
Definition followReadBack (f : Follow) : Follow :=
  if truthy (follow_relay f) then f
  else {| follow_pubkey := follow_pubkey f;
          follow_relay := follow_petname f;
          follow_petname := [] |}.

(** What a relay entry comes back as: neither read nor write is written
    like both. *)
Definition entryReadBack (e : RelayEntry) : RelayEntry :=
  if negb (entry_read e) && negb (entry_write e)
  then {| entry_url := entry_url e; entry_read := true; entry_write := true |}
  else e.

(** The properties [serializeEvent] reads. *)
Definition hashedKeys : list jsstring :=
  [js "pubkey"; js "created_at"; js "kind"; js "tags"; js "content"].

(** The pair [sortEvents] orders a feed by. *)
Definition sortKey (e : NostrEvent) : Z * jsstring := (ev_created_at e, ev_id e).

End Event.

(** ** NIP-10: replies and threads *)
Module Nip10.
Import Event.

(** An [e] tag as [parseThread] reads it. *)
Record EventRef : Type := {
  ref_id : jsstring;
  ref_relay : jsstring;
  ref_marker : jsstring
}.

Record ProfileRef : Type := {
  profile_pubkey : jsstring;
  profile_relay : jsstring
}.

(** The object [parseThread] returns; [None] is [null]. *)
Record Thread : Type := {
  root : option EventRef;
  reply : option EventRef;
  mentions : list EventRef;
  profiles : list ProfileRef
}.

(** [result] (here [partial]), [maybeRoot] and [maybeReply] during the
    loop. *)
Record loopState : Type := {
  partial : Thread;
  maybeRoot : option EventRef;
  maybeReply : option EventRef
}.

Definition eventRefOf (tag : list jsstring) : EventRef :=
  {| ref_id := itemOrEmpty tag 1;
     ref_relay := itemOrEmpty tag 2;
     ref_marker := itemOrEmpty tag 3 |}.

Definition profileRefOf (tag : list jsstring) : ProfileRef :=
  {| profile_pubkey := itemOrEmpty tag 1;
     profile_relay := itemOrEmpty tag 2 |}.

Definition markerIs (eventRef : EventRef) (name : string) : bool :=
  bool_decide (ref_marker eventRef = js name).

(** The second [if] of the loop body: a [p] tag. *)
Definition profileStep (st : loopState) (tag : list jsstring) : loopState :=
  if itemIs tag 0 "p" && itemTruthy tag 1 then
    {| partial := {| root := root (partial st); reply := reply (partial st);
                    mentions := mentions (partial st);
                    profiles := profiles (partial st) ++ [profileRefOf tag] |};
       maybeRoot := maybeRoot st; maybeReply := maybeReply st |}
  else st.

(** The body of the loop of [parseThread]; the marked cases end with
    [continue]. *)
Definition threadStep (st : loopState) (tag : list jsstring) : loopState :=
  if itemIs tag 0 "e" && itemTruthy tag 1 then
    let eventRef := eventRefOf tag in
    if markerIs eventRef "root" then
      {| partial := {| root := Some eventRef; reply := reply (partial st);
                      mentions := mentions (partial st);
                      profiles := profiles (partial st) |};
         maybeRoot := maybeRoot st; maybeReply := maybeReply st |}
    else if markerIs eventRef "reply" then
      {| partial := {| root := root (partial st); reply := Some eventRef;
                      mentions := mentions (partial st);
                      profiles := profiles (partial st) |};
         maybeRoot := maybeRoot st; maybeReply := maybeReply st |}
    else if markerIs eventRef "mention" then
      {| partial := {| root := root (partial st); reply := reply (partial st);
                      mentions := mentions (partial st) ++ [eventRef];
                      profiles := profiles (partial st) |};
         maybeRoot := maybeRoot st; maybeReply := maybeReply st |}
    else
      let positional :=
        match maybeReply st, maybeRoot st with
        | None, _ =>
            {| partial := partial st; maybeRoot := maybeRoot st;
               maybeReply := Some eventRef |}
        | Some _, None =>
            {| partial := partial st; maybeRoot := Some eventRef;
               maybeReply := maybeReply st |}
        | Some _, Some _ => st
        end in
      profileStep
        {| partial := {| root := root (partial positional);
                        reply := reply (partial positional);
                        mentions := mentions (partial positional) ++ [eventRef];
                        profiles := profiles (partial positional) |};
           maybeRoot := maybeRoot positional;
           maybeReply := maybeReply positional |}
        tag
  else profileStep st tag.

(** [a || b] on references that are objects or [null]. *)
Definition orElse {A} (a b : option A) : option A :=
  match a with
  | Some _ => a
  | None => b
  end.

Definition initialState : loopState :=
  {| partial := {| root := None; reply := None; mentions := []; profiles := [] |};
     maybeRoot := None; maybeReply := None |}.

(** [parseThread(event)]: the tags are read from the last to the
    first. *)
Definition parseThread (event : NostrEvent) : Thread :=
  let st := fold_left threadStep (rev (ev_tags event)) initialState in
  let root1 :=
    match root (partial st) with
    | Some r => Some r
    | None => orElse (maybeRoot st) (orElse (maybeReply st) (reply (partial st)))
    end in
  let reply1 :=
    match reply (partial st) with
    | Some r => Some r
    | None => orElse (maybeReply st) root1
    end in
  {| root := root1; reply := reply1;
     mentions := mentions (partial st); profiles := profiles (partial st) |}.

(** [createReplyTags(event, rootEventId, relay)]; [None] is a root id
    that is [null] or left out. *)
Definition createReplyTags (event : NostrEvent)
    (rootEventId : option jsstring) (relay : jsstring) : list (list jsstring) :=
  [js "p"; ev_pubkey event; relay]
  :: (if match rootEventId with Some r => truthy r | None => false end
      then [[js "e"; default [] rootEventId; relay; js "root"];
            [js "e"; ev_id event; relay; js "reply"]]
      else [[js "e"; ev_id event; relay; js "root"];
            [js "e"; ev_id event; relay; js "reply"]]).

Definition getMentionedPubkeys (event : NostrEvent) : list jsstring :=
  map (fun tag => itemOrEmpty tag 1)
      (List.filter (fun tag => itemIs tag 0 "p" && itemTruthy tag 1)
                   (ev_tags event)).

Definition getMentionedEvents (event : NostrEvent) : list jsstring :=
  map (fun tag => itemOrEmpty tag 1)
      (List.filter (fun tag => itemIs tag 0 "e" && itemTruthy tag 1)
                   (ev_tags event)).

Definition isReply (event : NostrEvent) : bool :=
  bool_decide (reply (parseThread event) <> None).

(** [getRootEventId(event)] and [getReplyToEventId(event)]; [None] is
    [null]. *)
Definition getRootEventId (event : NostrEvent) : option jsstring :=
  ref_id <$> root (parseThread event).

Definition getReplyToEventId (event : NostrEvent) : option jsstring :=
  ref_id <$> reply (parseThread event).

(** A node of the tree [buildThreadTree] returns is the entry of
    [eventMap] for an id: the nodes are named by their ids, [node_event]
    is the event of the entry and [children] the ids pushed to it. *)
Record Tree : Type := {
  roots : list jsstring;
  node_event : gmap (list Z) NostrEvent;
  children : gmap (list Z) (list jsstring)
}.

(** The first pass: an entry for every event, a later event replacing
    an earlier one with the same id. *)
Definition firstPass (events : list NostrEvent) : gmap (list Z) NostrEvent :=
  fold_left (fun m event => <[ev_id event := event]> m) events ∅.

(** The body of the second pass. *)
Definition treeStep (tree : Tree) (event : NostrEvent) : Tree :=
  match getReplyToEventId event with
  | Some replyToId =>
      if negb (truthy replyToId) || negb (bool_decide (is_Some (node_event tree !! replyToId)))
      then {| roots := roots tree ++ [ev_id event];
              node_event := node_event tree; children := children tree |}
      else {| roots := roots tree; node_event := node_event tree;
              children := <[replyToId :=
                              default [] (children tree !! replyToId)
                              ++ [ev_id event]]> (children tree) |}
  | None => {| roots := roots tree ++ [ev_id event];
               node_event := node_event tree; children := children tree |}
  end.

Definition buildThreadTree (events : list NostrEvent) : Tree :=
  fold_left treeStep events
            {| roots := []; node_event := firstPass events; children := ∅ |}.

(** The event an event replies to, when the list has an event with that
    id. *)
Definition parentIn (events : list NostrEvent) (event : NostrEvent)
  : option jsstring :=
  match getReplyToEventId event with
  | Some replyToId =>
      if bool_decide (replyToId ∈ map ev_id events) then Some replyToId
      else None
  | None => None
  end.

(** The [e] tags [parseThread] reads, and the references the proofs
    speak of. *)
Definition isEventTag (tag : list jsstring) : bool :=
  itemIs tag 0 "e" && itemTruthy tag 1.

Definition eventRefs (tags : list (list jsstring)) : list EventRef :=
  map eventRefOf (List.filter isEventTag tags).

(** The tag [["e", id]]: a reference without a marker. *)
Definition plainTag (id : jsstring) : list jsstring := [js "e"; id].

Definition plainRef (id : jsstring) : EventRef :=
  {| ref_id := id; ref_relay := []; ref_marker := [] |}.

Definition isProfileTag (tag : list jsstring) : bool :=
  itemIs tag 0 "p" && itemTruthy tag 1.

Definition isPositional (eventRef : EventRef) : bool :=
  negb (markerIs eventRef "root") && negb (markerIs eventRef "reply")
  && negb (markerIs eventRef "mention").

(** The state of the loop of [parseThread] once the tags have been
    read, written without the loop. *)
Definition loopOutcome (tags : list (list jsstring)) : loopState :=
  let refs := eventRefs tags in
  {| partial :=
       {| root := head (List.filter (fun r => markerIs r "root") refs);
          reply := head (List.filter (fun r => markerIs r "reply") refs);
          mentions :=
            rev (List.filter (fun r => negb (markerIs r "root")
                                       && negb (markerIs r "reply")) refs);
          profiles := rev (map profileRefOf (List.filter isProfileTag tags)) |};
     maybeRoot := rev (List.filter isPositional refs) !! 1%nat;
     maybeReply := rev (List.filter isPositional refs) !! 0%nat |}.

End Nip10.

(** ** NIP-65: relay lists *)
Module Nip65.
Import Event.

(** [parseRelayListEvent(event)]: the same text as [parseRelayList]. *)
Definition parseRelayListEvent (event : NostrEvent) : list RelayEntry :=
  if negb (ev_kind event =? 10002) then []
  else
    map (fun tag =>
           {| entry_url := itemOrEmpty tag 1;
              entry_read := negb (itemTruthy tag 2) || itemIs tag 2 "read";
              entry_write := negb (itemTruthy tag 2) || itemIs tag 2 "write" |})
        (List.filter (fun tag => itemIs tag 0 "r" && itemTruthy tag 1)
                     (ev_tags event)).

Definition getReadRelays (relays : list RelayEntry) : list jsstring :=
  map entry_url (List.filter entry_read relays).

Definition getWriteRelays (relays : list RelayEntry) : list jsstring :=
  map entry_url (List.filter entry_write relays).

(** An [r] tag with a url, and whether its marker is missing, empty or
    [name]. *)
Definition isRelayTag (tag : list jsstring) : bool :=
  itemIs tag 0 "r" && itemTruthy tag 1.

Definition markedFor (name : string) (tag : list jsstring) : bool :=
  negb (itemTruthy tag 2) || itemIs tag 2 name.

End Nip65.

(** ** Relay connections and the relay pool *)
Module RelayJs.

(** [s.substring(from, to)] for [0 <= from <= to]. *)
Definition substring (from to : nat) (s : jsstring) : jsstring :=
  take (to - from)%nat (drop from s).

(** [generateSubId()]; [draw] is the string [Math.random().toString(36)]
    of this call. *)
Definition generateSubId (draw : jsstring) : jsstring := substring 2 15 draw.

Inductive status : Type := disconnected | connecting | connected | error.

(** A settled or unsettled promise. *)
Inductive promise (A : Type) : Type :=
  | Fulfilled (a : A)
  | Rejected (reason : value)
  | Pending.
Arguments Fulfilled {A} a.
Arguments Rejected {A} reason.
Arguments Pending {A}.

(** How the connection attempt of a socket ends: [onopen] fires,
    [onerror] fires with an error, or neither ever does. *)
Inductive transport : Type :=
  | Opens
  | Fails (err : value)
  | Stalls.

(** The items a string yields when iterated: its code points, a
    surrogate pair being one item. *)
Fixpoint codePoints (s : jsstring) : list jsstring :=
  match s with
  | [] => []
  | c :: rest =>
      match rest with
      | d :: rest' =>
          if (55296 <=? c) && (c <=? 56319) && (56320 <=? d) && (d <=? 57343)
          then [c; d] :: codePoints rest'
          else [c] :: codePoints rest
      | [] => [[c]]
      end
  end.

Section Relay.
Context {callback filter : Type}.

(** The messages a client sends, before [JSON.stringify]. *)
Inductive frame : Type :=
  | REQ (subId : jsstring) (filters : list filter)
  | CLOSE (subId : jsstring)
  | EVENT (event : value).

(** A socket: its address and what [send] was called with, in order. *)
Record WebSocket : Type := {
  ws_url : jsstring;
  ws_sent : list frame
}.

Record subscription : Type := {
  sub_filters : list filter;
  sub_onEvent : callback;
  sub_onEose : option callback
}.

(** The fields of a [Relay]; [thens] holds the messages that callbacks
    chained on the connection promise are waiting to send. *)
Record Relay : Type := {
  url : jsstring;
  ws : option WebSocket;
  subscriptions : gmap (list Z) subscription;
  relay_status : status;
  eventCallbacks : gmap (list Z) callback;
  eoseCallbacks : gmap (list Z) callback;
  thens : list frame
}.

(** A connection whose status is [connected] has its socket: [onopen] is
    the only place that sets the status, [close] the only one that drops
    the socket, and it resets the status. *)
Definition socketWhenConnected (r : Relay) : Prop :=
  relay_status r = connected -> is_Some (ws r).

(** The frames the socket of a connection was handed. *)
Definition sentFrames (r : Relay) : list frame :=
  match ws r with
  | Some w => ws_sent w
  | None => []
  end.

(** [new Relay(url)], after [normalizeURL]. *)
Definition newRelay (u : jsstring) : Relay :=
  {| url := u; ws := None; subscriptions := ∅; relay_status := disconnected;
     eventCallbacks := ∅; eoseCallbacks := ∅; thens := [] |}.

(** [this.ws.send(message)]; reading [send] of [null] throws. *)
Definition wsSend (m : frame) (r : Relay) : result Relay :=
  match ws r with
  | None => Throw (TypeError "Cannot read properties of null")
  | Some w =>
      Ok {| url := url r;
            ws := Some {| ws_url := ws_url w; ws_sent := ws_sent w ++ [m] |};
            subscriptions := subscriptions r; relay_status := relay_status r;
            eventCallbacks := eventCallbacks r;
            eoseCallbacks := eoseCallbacks r; thens := thens r |}
  end.

Definition setStatus (s : status) (r : Relay) : Relay :=
  {| url := url r; ws := ws r; subscriptions := subscriptions r;
     relay_status := s; eventCallbacks := eventCallbacks r;
     eoseCallbacks := eoseCallbacks r; thens := thens r |}.

(** The synchronous part of [connect()]: nothing when connected or
    connecting, otherwise a new socket, a new promise and the status
    [connecting]. The callbacks chained on the promise of an earlier
    attempt are not carried over: that promise was rejected or is never
    settled. *)
Definition connectStart (r : Relay) : Relay :=
  match relay_status r with
  | connected | connecting => r
  | _ =>
      {| url := url r; ws := Some {| ws_url := url r; ws_sent := [] |};
         subscriptions := subscriptions r; relay_status := connecting;
         eventCallbacks := eventCallbacks r;
         eoseCallbacks := eoseCallbacks r; thens := [] |}
  end.

(** [onerror]: the status becomes [error] and the promise is rejected,
    so the callbacks chained on it with [then] never run. *)
Definition onError (r : Relay) : Relay :=
  {| url := url r; ws := ws r; subscriptions := subscriptions r;
     relay_status := error; eventCallbacks := eventCallbacks r;
     eoseCallbacks := eoseCallbacks r; thens := [] |}.

(** [onopen]: the status becomes [connected] and the callbacks chained on
    the promise send their messages, in the order they were chained. *)
Definition onOpen (r : Relay) : Relay :=
  match ws r with
  | None => setStatus connected r
  | Some w =>
      {| url := url r;
         ws := Some {| ws_url := ws_url w; ws_sent := ws_sent w ++ thens r |};
         subscriptions := subscriptions r; relay_status := connected;
         eventCallbacks := eventCallbacks r;
         eoseCallbacks := eoseCallbacks r; thens := [] |}
  end.

(** [connect()] followed to the settlement of the promise it returns. *)
Definition connect (t : transport) (r : Relay) : Relay * promise unit :=
  match relay_status r with
  | connected => (r, Fulfilled tt)
  | _ =>
      let r1 := connectStart r in
      match t with
      | Opens => (onOpen r1, Fulfilled tt)
      | Fails err => (onError r1, Rejected err)
      | Stalls => (r1, Pending)
      end
  end.

(** The [else] branch of [subscribe]: [this.connect().then(...)] starts
    a connection unless one is open or under way, and chains the send. *)
Definition sendWhenConnected (m : frame) (r : Relay) : Relay :=
  let r0 := connectStart r in
  {| url := url r0; ws := ws r0; subscriptions := subscriptions r0;
     relay_status := relay_status r0; eventCallbacks := eventCallbacks r0;
     eoseCallbacks := eoseCallbacks r0; thens := thens r0 ++ [m] |}.

(** [subscribe(filters, onEvent, onEose)] with the random draw of its
    [generateSubId()] call. *)
Definition subscribe (draw : jsstring) (filters : list filter)
    (onEvent : callback) (onEose : option callback) (r : Relay)
  : result (Relay * jsstring) :=
  let subId := generateSubId draw in
  let r1 :=
    {| url := url r; ws := ws r; subscriptions := subscriptions r;
       relay_status := relay_status r;
       eventCallbacks := <[subId := onEvent]> (eventCallbacks r);
       eoseCallbacks := match onEose with
                        | Some f => <[subId := f]> (eoseCallbacks r)
                        | None => eoseCallbacks r
                        end;
       thens := thens r |} in
  let message := REQ subId filters in
  let! r2 := match relay_status r1 with
             | connected => wsSend message r1
             | _ => Ok (sendWhenConnected message r1)
             end in
  Ok ({| url := url r2; ws := ws r2;
         subscriptions :=
           <[subId := {| sub_filters := filters; sub_onEvent := onEvent;
                         sub_onEose := onEose |}]> (subscriptions r2);
         relay_status := relay_status r2;
         eventCallbacks := eventCallbacks r2;
         eoseCallbacks := eoseCallbacks r2; thens := thens r2 |}, subId).

(** A run of [subscribe] calls on one connection, with the ids returned. *)
Fixpoint subscribeAll
    (calls : list (jsstring * list filter * callback * option callback))
    (r : Relay) : result (Relay * list jsstring) :=
  match calls with
  | [] => Ok (r, [])
  | (draw, filters, onEvent, onEose) :: rest =>
      let! step := subscribe draw filters onEvent onEose r in
      let! more := subscribeAll rest (fst step) in
      Ok (fst more, snd step :: snd more)
  end.

Definition unsubscribe (subId : jsstring) (r : Relay) : result Relay :=
  let! r1 := match relay_status r with
             | connected => wsSend (CLOSE subId) r
             | _ => Ok r
             end in
  Ok {| url := url r1; ws := ws r1;
        subscriptions := delete subId (subscriptions r1);
        relay_status := relay_status r1;
        eventCallbacks := delete subId (eventCallbacks r1);
        eoseCallbacks := delete subId (eoseCallbacks r1);
        thens := thens r1 |}.

(** The TypeError a rejected [publish] carries when there is no socket. *)
Definition typeErrorValue : value :=
  VObj [(js "name", VStr (js "TypeError"))].

(** [publish(event)] followed to the settlement of its promise: a throw
    after the [await] rejects the promise. *)
Definition publish (event : value) (t : transport) (r : Relay)
  : Relay * promise value :=
  match connect t r with
  | (r1, Fulfilled _) =>
      match wsSend (EVENT event) r1 with
      | Ok r2 => (r2, Fulfilled VUndefined)
      | Throw _ => (r1, Rejected typeErrorValue)
      end
  | (r1, Rejected err) => (r1, Rejected err)
  | (r1, Pending) => (r1, Pending)
  end.

(** [p.catch(f)] *)
Definition catch (p : promise value) (f : value -> value) : promise value :=
  match p with
  | Rejected err => Fulfilled (f err)
  | other => other
  end.

(** [Promise.all(ps)]: rejected as soon as one is, fulfilled with every
    value once all are, pending until then. *)
Fixpoint Promise_all (ps : list (promise value)) : promise (list value) :=
  match ps with
  | [] => Fulfilled []
  | p :: rest =>
      match p, Promise_all rest with
      | Rejected err, _ => Rejected err
      | _, Rejected err => Rejected err
      | Pending, _ => Pending
      | _, Pending => Pending
      | Fulfilled v, Fulfilled vs => Fulfilled (v :: vs)
      end
  end.

(** A [RelayPool]: the [relays] map, in insertion order. *)
Definition RelayPool : Type := list (jsstring * Relay).

(** The outcome written by the [catch] handler of [RelayPool.publish]. *)
Definition failureEntry (u : jsstring) (err : value) : value :=
  VObj [(js "relay", VStr u); (js "error", err)].

(** [RelayPool.publish(event)]; [net] tells how the connection attempt
    to each address ends. *)
Definition poolPublish (event : value) (net : jsstring -> transport)
    (pool : RelayPool) : RelayPool * promise (list value) :=
  let attempts :=
    map (fun ur : jsstring * Relay =>
           let (r', p) := publish event (net (fst ur)) (snd ur) in
           ((fst ur, r'), catch p (failureEntry (url (snd ur))))) pool in
  (map fst attempts, Promise_all (map snd attempts)).

(** The random draw of a [subscribe] call. *)
Definition drawOf (c : list Z * list filter * callback * option callback)
  : list Z := c.1.1.1.

(** What the array [RelayPool.publish] resolves with holds for a member:
    [undefined] after a send, the failure entry after a rejection. *)
Definition outcomeEntry (event : value) (net : list Z -> transport)
    (ur : list Z * Relay) : value :=
  match (publish event (net ur.1) ur.2).2 with
  | Fulfilled v => v
  | Rejected err => failureEntry (url ur.2) err
  | Pending => VUndefined
  end.

(** *** Incoming messages, closing and the members of a pool *)

(** A callback the connection invoked, with its argument. *)
Inductive call : Type :=
  | OnEvent (f : callback) (event : value)
  | OnEose (f : callback).

(** [const [type, ...rest] = data]: an array gives its items, a string
    its code points, and nothing else can be iterated. *)
Definition destructure (data : value) : result (value * list value) :=
  match data with
  | VArr items => Ok (hd VUndefined items, tl items)
  | VStr s => Ok (hd VUndefined (map VStr (codePoints s)),
                  tl (map VStr (codePoints s)))
  | _ => Throw (TypeError "data is not iterable")
  end.

(** [map.get(key)] on a map whose keys are strings. *)
Definition mapGet {A} (m : gmap (list Z) A) (key : value) : option A :=
  match key with
  | VStr s => m !! s
  | _ => None
  end.

(** [_handleMessage(data)]: the callbacks invoked, in order. The
    branches for OK, NOTICE and unknown types only write to the
    console. *)
Definition handleMessage (data : value) (r : Relay) : result (list call) :=
  let! parts := destructure data in
  match parts.1 with
  | VStr type =>
      if bool_decide (type = js "EVENT") then
        match mapGet (eventCallbacks r) (nth 0 parts.2 VUndefined) with
        | Some f => Ok [OnEvent f (nth 1 parts.2 VUndefined)]
        | None => Ok []
        end
      else if bool_decide (type = js "EOSE") then
        match mapGet (eoseCallbacks r) (nth 0 parts.2 VUndefined) with
        | Some f => Ok [OnEose f]
        | None => Ok []
        end
      else Ok []
  | _ => Ok []
  end.

(** The [onmessage] handler, given what [JSON.parse(msg.data)] returned
    or threw: an exception of the parser or of [_handleMessage] is
    caught and logged. *)
Definition onMessage (parsed : result value) (r : Relay) : list call :=
  match parsed with
  | Ok data => match handleMessage data r with
               | Ok calls => calls
               | Throw _ => []
               end
  | Throw _ => []
  end.

(** [close()]: the socket is closed and dropped, the registries are
    cleared; the callbacks chained on the promise of the dropped socket
    are never run. *)
Definition close (r : Relay) : Relay :=
  {| url := url r; ws := None; subscriptions := ∅;
     relay_status := disconnected; eventCallbacks := ∅;
     eoseCallbacks := ∅; thens := [] |}.

(** The EVENT and EOSE messages of a relay. *)
Definition eventMessage (subId : jsstring) (event : value) : value :=
  VArr [VStr (js "EVENT"); VStr subId; event].
Definition eoseMessage (subId : jsstring) : value :=
  VArr [VStr (js "EOSE"); VStr subId].

(** The REQ frame of a [subscribe] call. *)
Definition reqOf (c : list Z * list filter * callback * option callback)
  : frame :=
  REQ (generateSubId (drawOf c)) c.1.1.2.

(** [relays.get(u)] *)
Definition poolGet (pool : RelayPool) (u : jsstring) : option Relay :=
  snd <$> List.find (fun ur => bool_decide (ur.1 = u)) pool.

(** [relays.delete(u)] *)
Definition poolDelete (pool : RelayPool) (u : jsstring) : RelayPool :=
  List.filter (fun ur => negb (bool_decide (ur.1 = u))) pool.

(** The keys of the [relays] map are distinct, as in every [Map], and
    each connection was made for its key. *)
Definition poolOK (pool : RelayPool) : Prop :=
  NoDup pool.*1 /\ Forall (fun ur => url ur.2 = ur.1) pool.

(** [normalizeURL] rests on the URL parser of the platform: the pool is
    modelled for any function in its place. *)
Section Pool.
Variable normalizeURL : jsstring -> result jsstring.

(** [new Relay(url)]: the constructor normalizes the url it is given. *)
Definition createRelay (u : jsstring) : result Relay :=
  let! n := normalizeURL u in Ok (newRelay n).

Definition addRelay (u : jsstring) (pool : RelayPool)
  : result (RelayPool * Relay) :=
  let! n := normalizeURL u in
  match poolGet pool n with
  | Some relay => Ok (pool, relay)
  | None =>
      let! relay := createRelay n in
      Ok (pool ++ [(n, relay)], relay)
  end.

(** [removeRelay(url)]: the pool left, and the connection that was
    closed and taken out, if there was one. *)
Definition removeRelay (u : jsstring) (pool : RelayPool)
  : result (RelayPool * option Relay) :=
  let! n := normalizeURL u in
  match poolGet pool n with
  | Some relay => Ok (poolDelete pool n, Some (close relay))
  | None => Ok (pool, None)
  end.

End Pool.

(** [RelayPool.subscribe(filters, onEvent, onEose)]; [rand i] is the
    random draw of the call on the member at position [i + first]. *)
Fixpoint poolSubscribe (rand : nat -> jsstring) (first : nat)
    (filters : list filter) (onEvent : callback) (onEose : option callback)
    (pool : RelayPool) : result (RelayPool * list (jsstring * jsstring)) :=
  match pool with
  | [] => Ok ([], [])
  | ur :: rest =>
      let! step := subscribe (rand first) filters onEvent onEose ur.2 in
      let! more := poolSubscribe rand (S first) filters onEvent onEose rest in
      Ok ((ur.1, step.1) :: more.1, (url ur.2, step.2) :: more.2)
  end.

End Relay.

(** An open connection with no subscription. *)
Definition openRelay (u : list Z) : @Relay nat nat :=
  {| url := u; ws := Some {| ws_url := u; ws_sent := [] |};
     subscriptions := ∅; relay_status := connected;
     eventCallbacks := ∅; eoseCallbacks := ∅; thens := [] |}.

Definition demoUrl : list Z := js "wss://relay.example.com".

(** A stand-in for [normalizeURL] in sample pools: the scheme is added
    to a url that does not start with it. *)
Definition withScheme (u : list Z) : result (list Z) :=
  if bool_decide (take 6 u = js "wss://") then Ok u else Ok (js "wss://" ++ u).

(** A pool of one open connection. *)
Definition demoPool : @RelayPool nat nat := [(demoUrl, openRelay demoUrl)].

End RelayJs.

(** * Proofs *)

(** ** The 32-bit operators *)
Module Int32Facts.

Lemma wrap_mod32 z : Int32.wrap z mod 2 ^ 32 = z mod 2 ^ 32.
Proof.
  unfold Int32.wrap.
  rewrite Zminus_mod, Zmod_mod, <- Zminus_mod. f_equal. lia.
Qed.

Lemma mod_pow2_of_mod32 a b k :
  0 <= k <= 32 -> a mod 2 ^ 32 = b mod 2 ^ 32 -> a mod 2 ^ k = b mod 2 ^ k.
Proof.
  intros Hk Hab.
  assert (E : 2 ^ 32 = 2 ^ k * 2 ^ (32 - k)).
  { rewrite <- Z.pow_add_r by lia. f_equal. lia. }
  assert (P : 0 < 2 ^ k) by (apply Z.pow_pos_nonneg; lia).
  assert (Q : 0 < 2 ^ (32 - k)) by (apply Z.pow_pos_nonneg; lia).
  rewrite E in Hab.
  rewrite !Z.rem_mul_r in Hab by lia.
  assert (Ha := Z.mod_pos_bound a (2 ^ k) P).
  assert (Hb := Z.mod_pos_bound b (2 ^ k) P).
  assert (Hc := Z.mod_pos_bound (a / 2 ^ k) _ Q).
  assert (Hd := Z.mod_pos_bound (b / 2 ^ k) _ Q).
  nia.
Qed.

Lemma wrap_small z : - 2 ^ 31 <= z < 2 ^ 31 -> Int32.wrap z = z.
Proof.
  intros Hz. unfold Int32.wrap. rewrite Z.mod_small; lia.
Qed.

Lemma wrap_mod_pow2 z k : 0 <= k <= 32 -> Int32.wrap z mod 2 ^ k = z mod 2 ^ k.
Proof. intros Hk. apply mod_pow2_of_mod32; [done | apply wrap_mod32]. Qed.

Lemma land31 n : 0 <= n < 32 -> Z.land n 31 = n.
Proof.
  intros Hn. change 31 with (Z.ones 5). rewrite Z.land_ones by lia.
  apply Z.mod_small. change (2 ^ 5) with 32. lia.
Qed.

Lemma div_mod_pow2 x b t :
  0 <= b -> 0 <= t -> (x / 2 ^ b) mod 2 ^ t = (x mod 2 ^ (b + t)) / 2 ^ b.
Proof.
  intros Hb Ht.
  assert (P : 0 < 2 ^ b) by (apply Z.pow_pos_nonneg; lia).
  assert (Q : 0 < 2 ^ t) by (apply Z.pow_pos_nonneg; lia).
  rewrite Z.pow_add_r by lia.
  rewrite Z.rem_mul_r by lia.
  rewrite (Z.mul_comm (2 ^ b)), Z.div_add by lia.
  rewrite (Z.div_small (x mod 2 ^ b)) by (apply Z.mod_pos_bound; lia).
  lia.
Qed.

Lemma and_mask y t : 0 <= t <= 30 -> Int32.and y (2 ^ t - 1) = y mod 2 ^ t.
Proof.
  intros Ht. unfold Int32.and.
  assert (0 < 2 ^ t <= 2 ^ 30).
  { split; [apply Z.pow_pos_nonneg; lia | apply Z.pow_le_mono_r; lia]. }
  rewrite (wrap_small (2 ^ t - 1)) by lia.
  replace (2 ^ t - 1) with (Z.ones t) by (rewrite Z.ones_equiv; lia).
  rewrite Z.land_ones by lia. apply wrap_mod_pow2. lia.
Qed.

Lemma shl_one t : 0 <= t <= 30 -> Int32.shl 1 t = 2 ^ t.
Proof.
  intros Ht. unfold Int32.shl.
  rewrite land31 by lia. rewrite (wrap_small 1) by lia.
  rewrite Z.shiftl_1_l.
  assert (0 < 2 ^ t <= 2 ^ 30).
  { split; [apply Z.pow_pos_nonneg; lia | apply Z.pow_le_mono_r; lia]. }
  apply wrap_small. lia.
Qed.

Lemma extract_bits a N b t :
  0 <= b < 32 -> 0 <= t <= 30 -> b + t <= 32 ->
  a mod 2 ^ 32 = N mod 2 ^ 32 ->
  Int32.and (Int32.shr a b) (2 ^ t - 1) = (N / 2 ^ b) mod 2 ^ t.
Proof.
  intros Hb Ht Hbt Ha.
  rewrite and_mask by lia. unfold Int32.shr.
  rewrite land31 by lia. rewrite Z.shiftr_div_pow2 by lia.
  rewrite !div_mod_pow2 by lia. f_equal.
  apply mod_pow2_of_mod32; [lia |]. by rewrite wrap_mod32.
Qed.

Lemma lor_disjoint a v f :
  0 <= f -> a mod 2 ^ f = 0 -> 0 <= v < 2 ^ f -> Z.lor a v = a + v.
Proof.
  intros Hf Ha Hv.
  assert (L : Z.land a v = 0).
  { apply Z.bits_inj'. intros n Hn. rewrite Z.land_spec, Z.bits_0.
    destruct (Z.lt_ge_cases n f) as [Hlt | Hge].
    - rewrite <- (Z.mod_pow2_bits_low a f n) by lia. rewrite Ha, Z.bits_0. done.
    - assert (Z.testbit v n = false) as ->; [| by rewrite andb_false_r].
      destruct (Z.eq_dec v 0) as [-> | Hnz]; [apply Z.bits_0 |].
      apply Z.bits_above_log2; [lia |].
      apply Z.log2_lt_pow2; [lia |].
      eapply Z.lt_le_trans; [apply Hv | apply Z.pow_le_mono_r; lia]. }
  rewrite Z.add_nocarry_lxor by done. symmetry. by apply Z.lxor_lor.
Qed.

Lemma shl_or_step acc N f v :
  0 <= f < 32 -> 0 <= v < 2 ^ f -> 2 ^ f <= 2 ^ 31 ->
  acc mod 2 ^ 32 = N mod 2 ^ 32 ->
  Int32.or (Int32.shl acc f) v mod 2 ^ 32 = (N * 2 ^ f + v) mod 2 ^ 32.
Proof.
  intros Hf Hv Hp Ha. unfold Int32.or, Int32.shl.
  rewrite land31 by lia. rewrite (wrap_small v) by lia.
  set (a := Int32.wrap (Int32.wrap (Z.shiftl (Int32.wrap acc) f))).
  assert (Ea : a mod 2 ^ 32 = (N * 2 ^ f) mod 2 ^ 32).
  { subst a. rewrite !wrap_mod32, Z.shiftl_mul_pow2 by lia.
    rewrite Z.mul_mod, wrap_mod32, Ha, <- Z.mul_mod by lia. done. }
  assert (Za : a mod 2 ^ f = 0).
  { rewrite (mod_pow2_of_mod32 a (N * 2 ^ f) f) by (done || lia).
    apply Z.mod_mul. apply Z.pow_nonzero; lia. }
  rewrite (lor_disjoint a v f) by (done || lia).
  rewrite Z.add_mod, Ea, <- Z.add_mod by lia. done.
Qed.

Lemma shl_mask acc N s t :
  0 <= s < 32 -> 0 <= t <= 30 ->
  acc mod 2 ^ 32 = N mod 2 ^ 32 ->
  Int32.and (Int32.shl acc s) (2 ^ t - 1) = (N * 2 ^ s) mod 2 ^ t.
Proof.
  intros Hs Ht Ha. rewrite and_mask by lia. unfold Int32.shl.
  rewrite land31 by lia. rewrite wrap_mod_pow2 by lia.
  rewrite Z.shiftl_mul_pow2 by lia.
  apply mod_pow2_of_mod32; [lia |].
  rewrite Z.mul_mod, wrap_mod32, Ha, <- Z.mul_mod by lia. done.
Qed.

End Int32Facts.

(** ** The bech32 codec *)
Module Nip19Facts.
Import Int32Facts Nip19.

Lemma groupsValue_snoc w l v :
  groupsValue w (l ++ [v]) = groupsValue w l * 2 ^ w + v.
Proof. unfold groupsValue. by rewrite fold_left_app. Qed.

Lemma groupsValue_inj w l1 : forall l2,
  0 <= w ->
  Forall (inRange w) l1 -> Forall (inRange w) l2 ->
  length l1 = length l2 ->
  groupsValue w l1 = groupsValue w l2 -> l1 = l2.
Proof.
  induction l1 as [| a l1 IH] using rev_ind; intros l2 Hw H1 H2 Hlen Hv.
  - destruct l2; [done | discriminate].
  - destruct l2 as [| b l2 _] using rev_ind.
    { rewrite length_app in Hlen. simpl in Hlen. lia. }
    rewrite !length_app in Hlen. simpl in Hlen.
    rewrite !groupsValue_snoc in Hv.
    apply Forall_app in H1 as [H1 Ha], H2 as [H2 Hb].
    apply Forall_inv in Ha, Hb. unfold inRange in Ha, Hb.
    assert (P : 0 < 2 ^ w) by (apply Z.pow_pos_nonneg; lia).
    assert (groupsValue w l1 = groupsValue w l2 /\ a = b) as [Hg ->].
    { apply (Z.div_mod_unique (2 ^ w)); lia. }
    f_equal. apply IH; auto with lia.
Qed.

Lemma drain_inv t acc N : forall fuel bits out,
  1 <= t <= 30 ->
  acc mod 2 ^ 32 = N mod 2 ^ 32 ->
  0 <= bits <= 32 -> bits <= Z.of_nat fuel ->
  groupsValue t out = N / 2 ^ bits ->
  Forall (inRange t) out ->
  exists bits' out',
    drain fuel t (2 ^ t - 1) acc bits out = Some (bits', out') /\
    0 <= bits' < t /\
    groupsValue t out' = N / 2 ^ bits' /\
    Z.of_nat (length out') * t + bits' = Z.of_nat (length out) * t + bits /\
    Forall (inRange t) out'.
Proof.
  induction fuel as [| fuel IH]; intros bits out Ht Hacc Hb Hfuel Hout Hr.
  - assert (bits = 0) as -> by lia. simpl.
    destruct (0 >=? t) eqn:E; [lia |]. eauto 10 with lia.
  - simpl. destruct (bits >=? t) eqn:E; [| eauto 10 with lia].
    assert (Hge : t <= bits) by lia.
    assert (Pt : 0 < 2 ^ t) by (apply Z.pow_pos_nonneg; lia).
    assert (Pb : 0 < 2 ^ (bits - t)) by (apply Z.pow_pos_nonneg; lia).
    rewrite (extract_bits acc N) by (done || lia).
    destruct (IH (bits - t) (out ++ [(N / 2 ^ (bits - t)) mod 2 ^ t]))
      as (bits' & out' & Hd & Hb' & Hv & Hl & Hr'); try (done || lia).
    + rewrite groupsValue_snoc, Hout.
      replace (2 ^ bits) with (2 ^ (bits - t) * 2 ^ t)
        by (rewrite <- Z.pow_add_r by lia; f_equal; lia).
      rewrite <- Z.div_div by lia.
      pose proof (Z.div_mod (N / 2 ^ (bits - t)) (2 ^ t)). lia.
    + apply Forall_app. split; [done |]. apply Forall_singleton.
      apply Z.mod_pos_bound. lia.
    + exists bits', out'. rewrite length_app in Hl. simpl in Hl.
      repeat split; try (done || lia).
Qed.

Section Convert.
Variables f t : Z.
Hypothesis Hf : 1 <= f.
Hypothesis Ht : 1 <= t <= 30.
Hypothesis Hft : f + t <= 32.

Lemma pow2_f_bound : 2 ^ f <= 2 ^ 31.
Proof. apply Z.pow_le_mono_r; lia. Qed.

Lemma convertStep_inv p st v :
  cbInv f t p st -> inRange f v ->
  exists st', convertStep f t (2 ^ t - 1) st v = Some (Ok st') /\
              cbInv f t (p ++ [v]) st'.
Proof using Hf Ht Hft.
  intros [Hacc Hout Hlen Hbits Hr] Hv. unfold inRange in Hv.
  pose proof pow2_f_bound as Hp.
  assert (Pf : 0 < 2 ^ f) by (apply Z.pow_pos_nonneg; lia).
  unfold convertStep.
  assert ((v <? 0) = false) as -> by lia.
  assert (Int32.shr v f = 0) as ->.
  { unfold Int32.shr. rewrite land31 by lia. rewrite wrap_small by lia.
    rewrite Z.shiftr_div_pow2 by lia. apply Z.div_small. lia. }
  simpl.
  set (acc' := Int32.or (Int32.shl (cb_acc st) f) v).
  set (N := groupsValue f p) in *.
  assert (Hacc' : acc' mod 2 ^ 32 = (N * 2 ^ f + v) mod 2 ^ 32).
  { apply shl_or_step; try (done || lia). }
  destruct (drain_inv t acc' (N * 2 ^ f + v) (Z.to_nat (cb_bits st + f))
              (cb_bits st + f) (cb_out st))
    as (bits' & out' & Hd & Hb' & Hv' & Hl & Hr'); try (done || lia).
  { rewrite Hout. rewrite Z.pow_add_r by lia.
    rewrite (Z.mul_comm (2 ^ cb_bits st)).
    rewrite <- Z.div_div by (try apply Z.pow_pos_nonneg; lia).
    rewrite Z.div_add_l by lia. rewrite (Z.div_small v) by lia.
    by rewrite Z.add_0_r. }
  rewrite Hd. eexists. split; [done |].
  split; simpl; rewrite ?groupsValue_snoc, ?length_app; simpl;
    try (done || lia).
Qed.

Lemma convertLoop_inv data : forall p st,
  cbInv f t p st -> Forall (inRange f) data ->
  exists st', convertLoop f t (2 ^ t - 1) st data = Some (Ok st') /\
              cbInv f t (p ++ data) st'.
Proof using Hf Ht Hft.
  induction data as [| v data IH]; intros p st Hinv Hdata.
  - exists st. by rewrite app_nil_r.
  - apply Forall_cons in Hdata as [Hv Hdata].
    destruct (convertStep_inv p st v Hinv Hv) as (st1 & Hs & Hinv1).
    destruct (IH (p ++ [v]) st1 Hinv1 Hdata) as (st' & Hl & Hinv').
    exists st'. simpl. rewrite Hs. split; [done |].
    by rewrite <- app_assoc in Hinv'.
Qed.

Lemma cbInv_init : cbInv f t [] (CbState 0 0 []).
Proof using Ht.
  split; simpl; try (done || lia).
Qed.

(** Packing with padding: the output spells the input shifted left by
    the [pad] zero bits that fill the last group. *)
Lemma convertBits_pad data :
  Forall (inRange f) data ->
  exists out pad,
    convertBits data f t true = Some (Ok out) /\
    groupsValue t out = groupsValue f data * 2 ^ pad /\
    Z.of_nat (length out) * t = Z.of_nat (length data) * f + pad /\
    0 <= pad < t /\
    Forall (inRange t) out.
Proof using Hf Ht Hft.
  intros Hdata.
  destruct (convertLoop_inv data [] _ cbInv_init Hdata) as (st & Hl & Hinv).
  simpl in Hinv. destruct Hinv as [Hacc Hout Hlen Hbits Hr].
  unfold convertBits. rewrite shl_one by lia. rewrite Hl.
  set (N := groupsValue f data) in *.
  assert (Pt : 0 < 2 ^ t) by (apply Z.pow_pos_nonneg; lia).
  destruct (cb_bits st >? 0) eqn:E.
  - rewrite (shl_mask (cb_acc st) N) by (done || lia).
    exists (cb_out st ++ [(N * 2 ^ (t - cb_bits st)) mod 2 ^ t]), (t - cb_bits st).
    assert (Pb : 0 < 2 ^ cb_bits st) by (apply Z.pow_pos_nonneg; lia).
    assert (Pp : 0 < 2 ^ (t - cb_bits st)) by (apply Z.pow_pos_nonneg; lia).
    assert (Em : (N * 2 ^ (t - cb_bits st)) mod 2 ^ t
                 = (N mod 2 ^ cb_bits st) * 2 ^ (t - cb_bits st)).
    { replace (2 ^ t) with (2 ^ cb_bits st * 2 ^ (t - cb_bits st))
        by (rewrite <- Z.pow_add_r by lia; f_equal; lia).
      apply Z.mul_mod_distr_r; lia. }
    split; [done |]. rewrite groupsValue_snoc, length_app, Hout. simpl.
    repeat split; try lia.
    + rewrite Em.
      replace (2 ^ t) with (2 ^ cb_bits st * 2 ^ (t - cb_bits st))
        by (rewrite <- Z.pow_add_r by lia; f_equal; lia).
      pose proof (Z.div_mod N (2 ^ cb_bits st)). nia.
    + apply Forall_app. split; [done |]. apply Forall_singleton.
      apply Z.mod_pos_bound. lia.
  - assert (cb_bits st = 0) as E0 by lia.
    exists (cb_out st), 0. rewrite E0 in *. simpl in *.
    rewrite Z.div_1_r in Hout.
    repeat split; try (done || lia).
Qed.

(** Unpacking without padding: when the input spells [M] followed by
    [pad] zero bits, fewer than one input group, the output spells [M]. *)
Lemma convertBits_unpad data M n pad :
  Forall (inRange f) data ->
  groupsValue f data = M * 2 ^ pad ->
  Z.of_nat (length data) * f = Z.of_nat n * t + pad ->
  0 <= pad < f -> pad < t ->
  exists out,
    convertBits data f t false = Some (Ok out) /\
    groupsValue t out = M /\ length out = n /\ Forall (inRange t) out.
Proof using Hf Ht Hft.
  intros Hdata HM Hn Hpad Hpt.
  destruct (convertLoop_inv data [] _ cbInv_init Hdata) as (st & Hl & Hinv).
  simpl in Hinv. destruct Hinv as [Hacc Hout Hlen Hbits Hr].
  unfold convertBits. rewrite shl_one by lia. rewrite Hl.
  assert (Pt : 0 < 2 ^ t) by (apply Z.pow_pos_nonneg; lia).
  assert (Z.of_nat (length (cb_out st)) = Z.of_nat n /\ cb_bits st = pad)
    as [En Eb] by (apply (Z.div_mod_unique t); lia).
  apply Nat2Z.inj in En.
  assert (Pp : 0 < 2 ^ pad) by (apply Z.pow_pos_nonneg; lia).
  rewrite (shl_mask (cb_acc st) (groupsValue f data)) by (done || lia).
  rewrite Eb, HM in *.
  assert ((pad >=? f) = false) as -> by lia.
  assert ((M * 2 ^ pad * 2 ^ (t - pad)) mod 2 ^ t = 0) as ->.
  { rewrite <- Z.mul_assoc, <- Z.pow_add_r by lia.
    replace (pad + (t - pad)) with t by lia. apply Z.mod_mul. lia. }
  simpl. exists (cb_out st). rewrite Z.div_mul in Hout by lia. done.
Qed.

End Convert.

(** Bytes packed into 5-bit groups and unpacked again are unchanged. *)
Lemma convertBits_roundtrip (data : list Z) :
  Forall (inRange 8) data ->
  exists combined,
    convertBits data 8 5 true = Some (Ok combined) /\
    Forall (inRange 5) combined /\
    convertBits combined 5 8 false = Some (Ok data).
Proof.
  intros Hdata.
  destruct (convertBits_pad 8 5 ltac:(lia) ltac:(lia) ltac:(lia) data Hdata)
    as (combined & pad & Henc & Hv & Hlen & Hpad & Hr).
  exists combined. split; [done |]. split; [done |].
  destruct (convertBits_unpad 5 8 ltac:(lia) ltac:(lia) ltac:(lia)
              combined (groupsValue 8 data) (length data) pad Hr Hv)
    as (out & Hdec & Hout & Hn & Hro); try lia.
  rewrite Hdec. do 2 f_equal.
  apply (groupsValue_inj 8); try (done || lia).
Qed.

Lemma drain_total t maxv acc : forall fuel bits out,
  1 <= t -> bits <= Z.of_nat fuel ->
  is_Some (drain fuel t maxv acc bits out).
Proof.
  induction fuel as [| fuel IH]; intros bits out Ht Hb; simpl.
  - destruct (bits >=? t) eqn:E; [lia | done].
  - destruct (bits >=? t) eqn:E; [apply IH; lia | done].
Qed.

Lemma convertLoop_total f t maxv data : forall st,
  1 <= t -> is_Some (convertLoop f t maxv st data).
Proof.
  induction data as [| v data IH]; intros st Ht; simpl; [done |].
  unfold convertStep.
  destruct ((v <? 0) || negb (Int32.shr v f =? 0)); [done |].
  destruct (drain_total t maxv (Int32.or (Int32.shl (cb_acc st) f) v)
              (Z.to_nat (cb_bits st + f)) (cb_bits st + f) (cb_out st))
    as [[b o] ->]; [lia | lia |].
  by apply IH.
Qed.

(** [convertBits] returns or throws when groups have at least one bit. *)
Lemma convertBits_total data f t pad :
  1 <= t -> is_Some (convertBits data f t pad).
Proof.
  intros Ht. unfold convertBits.
  destruct (convertLoop_total f t (Int32.shl 1 t - 1) data (CbState 0 0 []) Ht)
    as [[st | e] ->]; [| done].
  destruct pad; repeat case_match; done.
Qed.

Lemma symbols_ok i : inRange 5 i -> symbolOK i = true.
Proof.
  intros Hi. unfold inRange in Hi. change (2 ^ 5) with 32 in Hi.
  assert (H : forallb symbolOK (map Z.of_nat (seq 0 32)) = true)
    by (vm_compute; reflexivity).
  rewrite forallb_forall in H. apply H.
  apply in_map_iff. exists (Z.to_nat i). split; [lia |].
  apply in_seq. lia.
Qed.

Lemma charsetAt_symbol i :
  inRange 5 i ->
  exists c, charsetAt i = [c] /\ c <> 49 /\ indexOf c BECH32_CHARSET = i.
Proof.
  intros Hi. pose proof (symbols_ok i Hi) as H. unfold symbolOK in H.
  destruct (charsetAt i) as [| c [| ? ?]]; try discriminate.
  apply andb_true_iff in H as [H1 H2].
  exists c. split; [done |]. split; lia.
Qed.

Lemma decodeChars_symbols vs : forall decoded,
  Forall (inRange 5) vs ->
  decodeChars (concat (map charsetAt vs)) decoded = Ok (decoded ++ vs).
Proof.
  induction vs as [| v vs IH]; intros decoded Hvs; simpl.
  - by rewrite app_nil_r.
  - apply Forall_cons in Hvs as [Hv Hvs].
    destruct (charsetAt_symbol v Hv) as (c & -> & _ & Hidx). simpl.
    rewrite Hidx.
    assert ((v =? -1) = false) as -> by (unfold inRange in Hv; lia).
    rewrite IH by done. by rewrite <- app_assoc.
Qed.

Lemma symbols_no_separator vs :
  Forall (inRange 5) vs -> 49 ∉ concat (map charsetAt vs).
Proof.
  induction 1 as [| v vs Hv _ IH]; simpl; [apply not_elem_of_nil |].
  destruct (charsetAt_symbol v Hv) as (c & -> & Hc & _). simpl.
  apply not_elem_of_cons. split; [congruence | done].
Qed.

Lemma lastIndexOfFrom_absent c s : forall i found,
  c ∉ s -> lastIndexOfFrom i c s found = found.
Proof.
  induction s as [| x s IH]; intros i found Hc; simpl; [done |].
  apply not_elem_of_cons in Hc as [Hx Hs].
  rewrite IH by done. destruct (x =? c) eqn:E; [lia | done].
Qed.

Lemma lastIndexOfFrom_last c s1 s2 : forall i found,
  c ∉ s2 ->
  lastIndexOfFrom i c (s1 ++ c :: s2) found = i + Z.of_nat (length s1).
Proof.
  induction s1 as [| x s1 IH]; intros i found Hc; simpl.
  - rewrite Z.eqb_refl, lastIndexOfFrom_absent by done. lia.
  - rewrite IH by done. lia.
Qed.

Lemma createChecksum_symbols prefix data :
  length (createChecksum prefix data) = 6%nat /\
  Forall (inRange 5) (createChecksum prefix data).
Proof.
  unfold createChecksum. split; [done |].
  apply Forall_map, Forall_forall. intros i _. simpl.
  change 31 with (2 ^ 5 - 1). rewrite and_mask by lia.
  apply Z.mod_pos_bound. lia.
Qed.

(** Decoding what [bech32Encode] wrote gives back the prefix and the
    bytes, for bytes of any number and a prefix of at least one unit. *)
Lemma bech32_roundtrip_any (prefix : list Z) (data : list Z) :
  prefix <> [] ->
  Forall (inRange 8) data ->
  exists str,
    bech32Encode prefix data = Some (Ok str) /\
    bech32Decode str = Some (Ok (prefix, data)).
Proof.
  intros Hprefix Hdata.
  destruct (convertBits_roundtrip data Hdata) as (combined & Henc & Hr & Hdec).
  destruct (createChecksum_symbols prefix combined) as [Hlen Hck].
  set (checksum := createChecksum prefix combined) in *.
  assert (Hall : Forall (inRange 5) (combined ++ checksum))
    by (by apply Forall_app).
  unfold bech32Encode. rewrite Henc. fold checksum.
  eexists. split; [reflexivity |].
  unfold bech32Decode. change (js "1") with [49].
  set (enc := concat (map charsetAt (combined ++ checksum))).
  assert (Hpos : lastIndexOf 49 (prefix ++ [49] ++ enc)
                 = Z.of_nat (length prefix)).
  { unfold lastIndexOf. simpl.
    rewrite lastIndexOfFrom_last by (by apply symbols_no_separator). lia. }
  rewrite Hpos.
  assert (0 < length prefix)%nat by (destruct prefix; [done | simpl; lia]).
  assert ((Z.of_nat (length prefix) <? 1) = false) as -> by lia.
  rewrite Nat2Z.id.
  replace (Z.to_nat (Z.of_nat (length prefix) + 1))
    with (length (prefix ++ [49])) by (rewrite length_app; simpl; lia).
  rewrite take_app_length.
  rewrite (app_assoc prefix [49] enc), drop_app_length.
  subst enc. rewrite decodeChars_symbols by done. simpl.
  rewrite length_app, Hlen.
  replace (length combined + 6 - 6)%nat with (length combined) by lia.
  rewrite take_app_length, drop_app_length.
  rewrite bool_decide_eq_true_2 by done.
  by rewrite Hdec.
Qed.

(** The example of NIP-19: a public key and its [npub]. *)
Example npub_of_nip19 :
  bech32Encode (js "npub")
    [0x3b; 0xf0; 0xc6; 0x3f; 0xcb; 0x93; 0x46; 0x34; 0x07; 0xaf; 0x97; 0xa5;
     0xe5; 0xee; 0x64; 0xfa; 0x88; 0x3d; 0x10; 0x7e; 0xf9; 0xe5; 0x58; 0x47;
     0x2c; 0x4e; 0xb9; 0xaa; 0xae; 0xfa; 0x45; 0x9d]
  = Some (Ok (js "npub180cvv07tjdrrgpa0j7j7tmnyl2yr6yr7l8j4s3evf6u64th6gkwsyjh6w6"))
  /\
  npubDecode (js "npub180cvv07tjdrrgpa0j7j7tmnyl2yr6yr7l8j4s3evf6u64th6gkwsyjh6w6")
  = Some (Ok (js "3bf0c63fcb93463407af97a5e5ee64fa883d107ef9e558472c4eb9aaaefa459d")).
Proof. split; vm_compute; reflexivity. Qed.

Lemma bech32Decode_total str : is_Some (bech32Decode str).
Proof.
  unfold bech32Decode.
  destruct (lastIndexOf 49 str <? 1); [done |].
  destruct (decodeChars _ _) as [decoded | e]; [| done].
  destruct (bool_decide _); [| done].
  destruct (convertBits_total (take (length decoded - 6) decoded) 5 8 false)
    as [[bytes | e] ->]; [lia | done | done].
Qed.

(** ** C2 *)




(** ** C5 *)

Lemma typedDecode_spec (tag : string) (str : list Z) :
  is_Some (typedDecode tag str) /\
  (forall hex, typedDecode tag str = Some (Ok hex) <->
               exists data, bech32Decode str = Some (Ok (js tag, data)) /\
                            hex = bytesToHex data) /\
  (forall prefix data,
      bech32Decode str = Some (Ok (prefix, data)) -> prefix <> js tag ->
      typedDecode tag str = Some (Throw (Error ("Invalid " ++ tag)))) /\
  (forall e, bech32Decode str = Some (Throw e) ->
             typedDecode tag str = Some (Throw e)).
Proof.
  unfold typedDecode.
  destruct (bech32Decode_total str) as [[[prefix data] | e] ->].
  - destruct (bool_decide (prefix = js tag)) eqn:E.
    + apply bool_decide_eq_true in E as ->.
      split; [done |]. split; [| split].
      * intros hex. split.
        -- intros [= <-]. by exists data.
        -- intros (d & [= <-] & ->). done.
      * intros p d [= <- <-] Hne. done.
      * intros e' [=].
    + apply bool_decide_eq_false in E.
      split; [done |]. split; [| split].
      * intros hex. split; [done |].
        intros (d & [= -> _] & _). done.
      * intros p d [= <- <-] _. done.
      * intros e' [=].
  - split; [done |]. split; [| split].
    + intros hex. split; [done |]. intros (d & [=] & _).
    + intros p d [=].
    + by intros e' [= ->].
Qed.

(** C5 (amended): [npubDecode], [nsecDecode] and [noteDecode] return or
    throw on every string; they succeed exactly when [bech32Decode]
    succeeds with the expected prefix, whatever the number of bytes of
    the payload, and then return the payload in hex; a string with another
    prefix, or one that [bech32Decode] rejects, makes them throw. *)
Theorem typed_decoders_check_prefix (str : list Z) :
  Forall (fun td : string * (list Z -> option (result (list Z))) =>
            is_Some (td.2 str) /\
            (forall hex, td.2 str = Some (Ok hex) <->
                         exists data,
                           bech32Decode str = Some (Ok (js td.1, data)) /\
                           hex = bytesToHex data) /\
            (forall prefix data,
                bech32Decode str = Some (Ok (prefix, data)) ->
                prefix <> js td.1 ->
                td.2 str = Some (Throw (Error ("Invalid " ++ td.1)))) /\
            (forall e, bech32Decode str = Some (Throw e) ->
                       td.2 str = Some (Throw e)))
         [("npub"%string, npubDecode); ("nsec"%string, nsecDecode);
          ("note"%string, noteDecode)].
Proof.
  repeat (apply List.Forall_cons; [apply typedDecode_spec |]). constructor.
Qed.

(** C5, as stated, fails: a well-formed [npub] string with a payload of
    one byte is decoded. *)
Lemma npubDecode_accepts_one_byte :
  bech32Decode (js "npub1qq46sa2f") = Some (Ok (js "npub", [0])) /\
  npubDecode (js "npub1qq46sa2f") = Some (Ok (js "00")).
Proof. split; vm_compute; reflexivity. Qed.

End Nip19Facts.

(** ** Events *)
Module EventFacts.
Import Event.

(** The property names of an event are pairwise different strings. *)
Ltac keys_differ := let E := fresh in intros E; vm_compute in E; discriminate E.

Lemma isLowerHexChar_spec c : isLowerHexChar c = true <-> lowerHex c.
Proof. unfold isLowerHexChar, lowerHex. lia. Qed.

Lemma forallb_Forall_iff {A} (f : A -> bool) (P : A -> Prop) l :
  (forall x, f x = true <-> P x) -> forallb f l = true <-> Forall P l.
Proof.
  intros Hf. induction l as [| x l IH]; simpl.
  - split; [constructor | done].
  - rewrite andb_true_iff, Forall_cons, Hf, IH. done.
Qed.

Lemma matchesHex64_spec s :
  matchesHex64 s = true <-> length s = 64%nat /\ Forall lowerHex s.
Proof.
  unfold matchesHex64. rewrite andb_true_iff, Nat.eqb_eq.
  by rewrite (forallb_Forall_iff _ lowerHex) by apply isLowerHexChar_spec.
Qed.

Lemma isTString_spec v : isTString (typeof v) = true <-> isString v.
Proof.
  unfold isString. destruct v; simpl; split; try done; eauto;
    intros [? ?]; done.
Qed.

Lemma tagsAreValid_spec tags : tagsAreValid tags = true <-> Forall isTag tags.
Proof.
  unfold tagsAreValid. apply forallb_Forall_iff. intros tag. unfold isTag.
  destruct tag; try (split; [done | intros (? & ? & ?); done]).
  unfold tagItemsAreStrings.
  rewrite (forallb_Forall_iff _ isString) by apply isTString_spec.
  split; [eauto | intros (? & [= ->] & ?); done].
Qed.

Lemma isTNumber_true t : isTNumber t = true <-> t = TNumber.
Proof. destruct t; simpl; split; done. Qed.

Lemma isTString_true t : isTString t = true <-> t = TString.
Proof. destruct t; simpl; split; done. Qed.

(** [validateEvent] on an object: no property read throws. *)
Lemma validateEvent_obj props :
  exists b, validateEvent (VObj props) = Ok b /\
            (b = true <-> templateShape props /\
                          pubkeyShape (objGet props (js "pubkey"))).
Proof.
  unfold validateEvent, templateShape, pubkeyShape, tagsShape. simpl.
  destruct (isTNumber (typeof (objGet props (js "kind")))) eqn:Ek; simpl;
    [apply isTNumber_true in Ek |
     eexists; split; [done |]; split; [done |];
     intros [(K & _) _]; apply isTNumber_true in K; congruence].
  destruct (isTString (typeof (objGet props (js "content")))) eqn:Ec; simpl;
    [apply isTString_true in Ec |
     eexists; split; [done |]; split; [done |];
     intros [(_ & K & _) _]; apply isTString_true in K; congruence].
  destruct (isTNumber (typeof (objGet props (js "created_at")))) eqn:Et; simpl;
    [apply isTNumber_true in Et |
     eexists; split; [done |]; split; [done |];
     intros [(_ & _ & K & _) _]; apply isTNumber_true in K; congruence].
  destruct (objGet props (js "pubkey")) as [| | | | pk | |] eqn:Ep;
    try (eexists; split; [done |]; split; [done |];
         intros [_ (? & ? & _)]; done).
  destruct (matchesHex64 pk) eqn:Eh; simpl.
  - apply matchesHex64_spec in Eh.
    destruct (objGet props (js "tags")) as [| | | | | tags |] eqn:Eg;
      try (eexists; split; [done |]; split; [done |];
           intros [(_ & _ & _ & ? & ? & _) _]; done).
    eexists. split; [done |]. rewrite tagsAreValid_spec. split.
    + intros Ht. split; [| by eauto]. repeat split; try done. eauto.
    + intros [(_ & _ & _ & ? & [= ->] & Ht) _]. done.
  - eexists. split; [done |]. split; [done |].
    intros [_ (? & [= <-] & Hm)]. apply matchesHex64_spec in Hm. congruence.
Qed.

Lemma validateEvent_not_object v :
  v <> VNull -> (forall props, v <> VObj props) -> validateEvent v = Ok false.
Proof. intros Hn Ho. destruct v; try done. by destruct (Ho props). Qed.

Lemma validateEvent_true_iff v : validateEvent v = Ok true <-> eventShape v.
Proof.
  unfold eventShape. split.
  - intros Hv. destruct v; try done.
    destruct (validateEvent_obj props) as (b & Hb & Hiff).
    rewrite Hb in Hv. injection Hv as ->.
    exists props. split; [done |]. by apply Hiff.
  - intros (props & -> & Hs).
    destruct (validateEvent_obj props) as (b & Hb & Hiff).
    rewrite Hb. f_equal. by apply Hiff.
Qed.

Lemma byte_hex b :
  inRange 8 b ->
  exists c1 c2, padStart 2 48 (numToString 16 b) = [c1; c2] /\
                lowerHex c1 /\ lowerHex c2.
Proof.
  intros Hb. unfold inRange in Hb. change (2 ^ 8) with 256 in Hb.
  assert (H : forallb byteHexOK (map Z.of_nat (seq 0 256)) = true)
    by (vm_compute; reflexivity).
  rewrite forallb_forall in H.
  assert (Hok : byteHexOK b = true).
  { apply H, in_map_iff. exists (Z.to_nat b). split; [lia |].
    apply in_seq. lia. }
  unfold byteHexOK in Hok.
  destruct (padStart 2 48 (numToString 16 b)) as [| c1 [| c2 [| ? ?]]];
    try discriminate.
  apply andb_true_iff in Hok as [H1 H2].
  exists c1, c2. by rewrite <- !isLowerHexChar_spec.
Qed.

(** [bytesToHex] writes two lowercase hexadecimal digits a byte. *)
Lemma bytesToHex_hex bytes :
  Forall (inRange 8) bytes ->
  length (bytesToHex bytes) = (2 * length bytes)%nat /\
  Forall lowerHex (bytesToHex bytes).
Proof.
  unfold bytesToHex.
  induction 1 as [| b bytes Hb _ [IHl IHf]]; simpl; [by split |].
  destruct (byte_hex b Hb) as (c1 & c2 & -> & H1 & H2). simpl.
  split; [lia |]. constructor; [done |]. constructor; done.
Qed.

Lemma bytesToHex_32 bytes :
  length bytes = 32%nat -> Forall (inRange 8) bytes ->
  matchesHex64 (bytesToHex bytes) = true.
Proof.
  intros Hlen Hb. apply matchesHex64_spec.
  destruct (bytesToHex_hex bytes Hb) as [Hl Hf]. split; [lia | done].
Qed.

Lemma objGet_objSet props k v k' :
  objGet (objSet props k v) k' =
  if bool_decide (k = k') then v else objGet props k'.
Proof.
  induction props as [| [k0 v0] props IH]; simpl.
  - done.
  - destruct (bool_decide (k0 = k)) eqn:E0; simpl.
    + apply bool_decide_eq_true in E0 as ->.
      by destruct (bool_decide (k = k')).
    + destruct (bool_decide (k0 = k')) eqn:E1; [| done].
      apply bool_decide_eq_true in E1 as ->.
      apply bool_decide_eq_false in E0.
      by rewrite bool_decide_eq_false_2 by done.
Qed.

Lemma objGet_objSet_eq props k v : objGet (objSet props k v) k = v.
Proof. by rewrite objGet_objSet, bool_decide_eq_true_2. Qed.

Lemma objGet_objSet_ne props k v k' :
  k <> k' -> objGet (objSet props k v) k' = objGet props k'.
Proof. intros. by rewrite objGet_objSet, bool_decide_eq_false_2. Qed.

Section Hashing.
Context `{Host}.

Lemma getEventHash_valid props :
  validateEvent (VObj props) = Ok true ->
  getEventHash (VObj props) = Ok (hashOf props).
Proof.
  intros Hv. unfold getEventHash, serializeEvent. rewrite Hv. done.
Qed.

Lemma getEventHash_invalid ev :
  validateEvent ev = Ok false -> getEventHash ev = Throw serializeError.
Proof.
  intros Hv. unfold getEventHash, serializeEvent. rewrite Hv. done.
Qed.

Lemma verifyEvent_invalid ev :
  validateEvent ev = Ok false -> verifyEvent ev = Throw serializeError.
Proof.
  intros Hv. unfold verifyEvent. by rewrite getEventHash_invalid.
Qed.

Lemma verifyEvent_valid props :
  validateEvent (VObj props) = Ok true ->
  verifyEvent (VObj props) =
  Ok (if strictNeqStr (hashOf props) (objGet props (js "id")) then false
      else match schnorr_verify (objGet props (js "sig")) (hashOf props)
                                (objGet props (js "pubkey")) with
           | Ok b => b
           | Throw _ => false
           end).
Proof.
  intros Hv. unfold verifyEvent. rewrite getEventHash_valid by done. simpl.
  destruct (strictNeqStr _ _); [done |].
  by destruct (schnorr_verify _ _ _).
Qed.

Lemma strictNeqStr_false hash v : strictNeqStr hash v = false <-> v = VStr hash.
Proof.
  destruct v; simpl; try (split; done).
  rewrite negb_false_iff, bool_decide_eq_true. split; congruence.
Qed.

End Hashing.

Ltac simpl_get :=
  repeat (rewrite objGet_objSet_eq ||
          rewrite objGet_objSet_ne by keys_differ).

Lemma templateShape_objSet props k v :
  k <> js "kind" -> k <> js "content" -> k <> js "created_at" ->
  k <> js "tags" ->
  templateShape (objSet props k v) <-> templateShape props.
Proof.
  intros. unfold templateShape. by rewrite !objGet_objSet_ne by done.
Qed.

(** ** C3 *)

(** C3 (amended): on every value other than [null], [validateEvent]
    returns a boolean and throws nothing; the boolean is [true] exactly
    for an object whose [kind] and [created_at] are numbers, [content] a
    string, [pubkey] a string of 64 characters of [0-9a-f] and [tags] an
    array of arrays of strings. *)
Theorem validateEvent_boolean_unless_null (v : value) :
  v <> VNull ->
  exists b, validateEvent v = Ok b /\ (b = true <-> eventShape v).
Proof.
  intros Hnull. destruct v; try done;
    try (exists false; split; [done |]; split; [done |];
         intros (? & ? & _); done).
  destruct (validateEvent_obj props) as (b & Hb & Hiff).
  exists b. split; [done |]. rewrite Hiff. unfold eventShape. split.
  - intros ?. by exists props.
  - by intros (? & [= <-] & ?).
Qed.

Lemma validateEvent_boolean_witness :
  exists b, validateEvent fractionalKindEvent = Ok b /\
            (b = true <-> eventShape fractionalKindEvent).
Proof.
  apply (validateEvent_boolean_unless_null fractionalKindEvent).
  discriminate.
Defined.

(** C3, as stated, fails: [null] passes the [typeof] test and the read
    of [kind] throws; a [kind] of 1.5 is accepted. *)
Lemma validateEvent_null_throws_fraction_passes :
  validateEvent VNull = Throw (TypeError "Cannot read properties") /\
  validateEvent fractionalKindEvent = Ok true /\
  objGet fractionalKindProps (js "kind") = VNum oneAndHalf /\
  isInteger oneAndHalf = false.
Proof. repeat split. Qed.

(** ** C4 and C1 *)
Section Verifying.
Context `{Host}.

(** C4 (amended): on an event that passes [validateEvent], [verifyEvent]
    returns a boolean: [false] when the recomputed hash is not the stored
    [id], [false] when [schnorr.verify] throws, and otherwise what
    [schnorr.verify] answers. On a value other than [null] that fails
    [validateEvent], the error [serializeEvent] throws reaches the
    caller: the hash is recomputed outside the [try]. *)
Theorem verifyEvent_outcome (ev : value) :
  ev <> VNull ->
  (validateEvent ev = Ok false /\ verifyEvent ev = Throw serializeError) \/
  (exists props b,
     ev = VObj props /\ validateEvent ev = Ok true /\
     getEventHash ev = Ok (hashOf props) /\
     verifyEvent ev = Ok b /\
     (objGet props (js "id") <> VStr (hashOf props) -> b = false) /\
     (forall e, schnorr_verify (objGet props (js "sig")) (hashOf props)
                  (objGet props (js "pubkey")) = Throw e -> b = false) /\
     (forall r, objGet props (js "id") = VStr (hashOf props) ->
                schnorr_verify (objGet props (js "sig")) (hashOf props)
                  (objGet props (js "pubkey")) = Ok r -> b = r)).
Proof.
  intros Hnull.
  destruct ev as [| | | | | | props]; try done;
    try (left; split; [done | by apply verifyEvent_invalid]).
  destruct (validateEvent_obj props) as ([|] & Hv & _).
  - right.
    eexists props, _. split; [done |]. split; [done |].
    split; [by apply getEventHash_valid |].
    split; [by apply verifyEvent_valid |].
    destruct (strictNeqStr (hashOf props) (objGet props (js "id"))) eqn:E.
    + repeat split; try done.
      intros r Hid. apply strictNeqStr_false in Hid. congruence.
    + apply strictNeqStr_false in E. repeat split.
      * congruence.
      * by intros e ->.
      * by intros r _ ->.
  - left. split; [done |]. by apply verifyEvent_invalid.
Qed.

Hypothesis sha256_bytes :
  forall m, length (sha256 m) = 32%nat /\ Forall (inRange 8) (sha256 m).
Hypothesis publicKey_bytes :
  forall sk pk, schnorr_getPublicKey sk = Ok pk ->
                length pk = 32%nat /\ Forall (inRange 8) pk.
Hypothesis schnorr_complete :
  forall sk pk m,
    schnorr_getPublicKey sk = Ok pk -> matchesHex64 m = true ->
    exists s, schnorr_sign m sk = Ok s /\
              schnorr_verify (VStr (bytesToHex s)) m (VStr (bytesToHex pk))
              = Ok true.

(** C1: a template whose fields have the shape [validateEvent] asks for,
    finalized with a secret key that [schnorr.getPublicKey] accepts, gives
    an event that [verifyEvent] accepts. The hash is 32 bytes, the public
    key is 32 bytes, and a signature made with a key verifies under its
    public key: these are the contracts of @noble/hashes and
    @noble/curves. *)
Theorem verify_finalize (props : list (list Z * value)) (sk pk : list Z) :
  schnorr_getPublicKey sk = Ok pk ->
  templateShape props ->
  exists event,
    finalizeEvent (VObj props) sk = Ok event /\ verifyEvent event = Ok true.
Proof using sha256_bytes publicKey_bytes schnorr_complete.
  intros Hpk Hshape.
  destruct (publicKey_bytes sk pk Hpk) as [Hlen Hbytes].
  unfold finalizeEvent. rewrite Hpk. simpl.
  set (e0 := objSet props (js "pubkey") (VStr (bytesToHex pk))).
  assert (Hp0 : pubkeyShape (VStr (bytesToHex pk))).
  { exists (bytesToHex pk). split; [done |].
    apply matchesHex64_spec. by apply bytesToHex_32. }
  assert (V0 : validateEvent (VObj e0) = Ok true).
  { apply validateEvent_true_iff. exists e0. split; [done |]. subst e0. split.
    - apply templateShape_objSet; try keys_differ. done.
    - by simpl_get. }
  rewrite getEventHash_valid by done. simpl.
  set (id := hashOf e0).
  assert (Hid : matchesHex64 id = true).
  { apply bytesToHex_32; apply sha256_bytes. }
  destruct (schnorr_complete sk pk id Hpk Hid) as (s & Hs & Hver).
  rewrite Hs. simpl. eexists. split; [done |].
  set (e2 := objSet (objSet e0 (js "id") (VStr id)) (js "sig")
                    (VStr (bytesToHex s))).
  assert (V2 : validateEvent (VObj e2) = Ok true).
  { apply validateEvent_true_iff. exists e2. split; [done |]. subst e2 e0. split.
    - rewrite !templateShape_objSet by keys_differ. done.
    - by simpl_get. }
  rewrite verifyEvent_valid by done.
  assert (hashOf e2 = id) as ->.
  { subst id e2. unfold hashOf, canonical. by simpl_get. }
  subst e2 e0. simpl_get.
  assert (strictNeqStr id (VStr id) = false) as ->
    by (by apply strictNeqStr_false).
  by rewrite Hver.
Qed.

End Verifying.

Lemma demoKey_public : @schnorr_getPublicKey demoHost demoKey = Ok demoKey.
Proof. reflexivity. Qed.

Lemma forallb_isByte l : forallb isByte l = true -> Forall (inRange 8) l.
Proof.
  intros Hl. apply (forallb_Forall_iff isByte (inRange 8)); [| done].
  intros x. unfold isByte, inRange. change (2 ^ 8) with 256. lia.
Qed.

Lemma demoTemplate_shape : templateShape demoTemplate.
Proof.
  repeat split. eexists. split; [reflexivity |].
  constructor; [| constructor]. eexists. split; [reflexivity |].
  repeat constructor; eexists; reflexivity.
Qed.

Lemma verify_finalize_witness :
  exists event,
    @finalizeEvent demoHost (VObj demoTemplate) demoKey = Ok event /\
    @verifyEvent demoHost event = Ok true.
Proof.
  apply (@verify_finalize demoHost) with (pk := demoKey).
  - intros m. split; [apply length_replicate |].
    apply Forall_replicate. apply Z.mod_pos_bound. lia.
  - intros sk pk. simpl.
    destruct ((length sk =? 32)%nat && forallb isByte sk) eqn:E; [| done].
    intros [= <-]. apply andb_true_iff in E as [E1 E2].
    split; [by apply Nat.eqb_eq | by apply forallb_isByte].
  - intros sk pk m. simpl.
    destruct ((length sk =? 32)%nat && forallb isByte sk) eqn:E; [| done].
    intros [= <-] _. exists sk. split; [done |].
    by rewrite bool_decide_eq_true_2.
  - reflexivity.
  - exact demoTemplate_shape.
Defined.

Lemma verifyEvent_outcome_witness :
  (validateEvent demoEvent = Ok false /\
   @verifyEvent demoHost demoEvent = Throw serializeError) \/
  (exists props b,
     demoEvent = VObj props /\ validateEvent demoEvent = Ok true /\
     @getEventHash demoHost demoEvent = Ok (@hashOf demoHost props) /\
     @verifyEvent demoHost demoEvent = Ok b /\
     (objGet props (js "id") <> VStr (@hashOf demoHost props) -> b = false) /\
     (forall e, @schnorr_verify demoHost (objGet props (js "sig"))
                  (@hashOf demoHost props)
                  (objGet props (js "pubkey")) = Throw e -> b = false) /\
     (forall r, objGet props (js "id") = VStr (@hashOf demoHost props) ->
                @schnorr_verify demoHost (objGet props (js "sig"))
                  (@hashOf demoHost props)
                  (objGet props (js "pubkey")) = Ok r -> b = r)).
Proof.
  apply (@verifyEvent_outcome demoHost demoEvent). vm_compute. discriminate.
Defined.

(** C4, as stated, fails: an object without the fields of an event makes
    [verifyEvent] throw. *)
Lemma verifyEvent_throws_on_malformed :
  validateEvent (VObj []) = Ok false /\
  @verifyEvent demoHost (VObj []) = Throw serializeError.
Proof. split; reflexivity. Qed.

(** *** [Array.prototype.sort] *)
Section ArraySortFacts.
Context {A : Type} (cmp : A -> A -> Z).

Lemma sortInsert_perm x l : sortInsert cmp x l ≡ₚ x :: l.
Proof.
  induction l as [| y l IH]; simpl; [done |].
  destruct (cmp x y <=? 0); [done |].
  rewrite IH. apply Permutation_swap.
Qed.

Lemma Array_sort_perm l : Array_sort cmp l ≡ₚ l.
Proof.
  induction l as [| x l IH]; simpl; [done |].
  by rewrite sortInsert_perm, IH.
Qed.

(** Elements that compare as equal keep their order. *)
Lemma sortInsert_stable (P : A -> Prop) `{!forall x, Decision (P x)} x l :
  (forall y, y ∈ l -> P x -> P y -> cmp x y <= 0) ->
  filter P (sortInsert cmp x l) = filter P (x :: l).
Proof.
  induction l as [| y l IH]; intros Hle; simpl; [done |].
  destruct (cmp x y <=? 0) eqn:E; [done |].
  assert (Hxy : ~ (P x /\ P y)).
  { intros [Hx Hy]. pose proof (Hle y ltac:(left) Hx Hy). lia. }
  rewrite (filter_cons P y), IH by (intros; apply Hle; [by right | done..]).
  rewrite !(filter_cons P x), !(filter_cons P y).
  destruct (decide (P x)), (decide (P y)); tauto.
Qed.

Lemma Array_sort_stable (P : A -> Prop) `{!forall x, Decision (P x)} l :
  (forall x y, x ∈ l -> y ∈ l -> P x -> P y -> cmp x y <= 0) ->
  filter P (Array_sort cmp l) = filter P l.
Proof.
  induction l as [| x l IH]; intros Hle; simpl; [done |].
  rewrite sortInsert_stable.
  - rewrite !(filter_cons P x), IH; [done |].
    intros. apply Hle; (by right) || done.
  - intros y Hy. rewrite Array_sort_perm in Hy.
    apply Hle; [by left | by right].
Qed.

Section Consistent.
Hypothesis cmp_total : forall x y, cmp x y <= 0 \/ cmp y x <= 0.
Hypothesis cmp_trans : forall x y z, cmp x y <= 0 -> cmp y z <= 0 -> cmp x z <= 0.

Lemma sortInsert_sorted x l :
  StronglySorted (fun a b => cmp a b <= 0) l ->
  StronglySorted (fun a b => cmp a b <= 0) (sortInsert cmp x l).
Proof using cmp_total cmp_trans.
  induction 1 as [| y l Hs IH Hall]; simpl.
  - repeat constructor.
  - destruct (cmp x y <=? 0) eqn:E.
    + constructor; [by constructor |].
      constructor; [lia |].
      eapply Forall_impl; [exact Hall |]. intros z Hz. simpl in Hz.
      apply (cmp_trans x y z); [lia | done].
    + constructor; [done |].
      rewrite sortInsert_perm. constructor; [| done].
      destruct (cmp_total x y); lia.
Qed.

Lemma Array_sort_sorted l :
  StronglySorted (fun a b => cmp a b <= 0) (Array_sort cmp l).
Proof using cmp_total cmp_trans.
  induction l as [| x l IH]; simpl; [constructor |].
  by apply sortInsert_sorted.
Qed.

(** The sorted, stable arrangement is unique: the result does not depend
    on the algorithm an engine uses for [sort]. *)
Lemma sorted_stable_unique l1 : forall l2,
  StronglySorted (fun a b => cmp a b <= 0) l1 ->
  StronglySorted (fun a b => cmp a b <= 0) l2 ->
  (forall a, filter (fun b => cmp a b <= 0 /\ cmp b a <= 0) l1
             = filter (fun b => cmp a b <= 0 /\ cmp b a <= 0) l2) ->
  l1 = l2.
Proof using cmp_total cmp_trans.
  assert (Hrefl : forall a, cmp a a <= 0) by (intros a; destruct (cmp_total a a); done).
  induction l1 as [| x l1 IH]; intros l2 H1 H2 Hf.
  - destruct l2 as [| y l2]; [done |].
    specialize (Hf y). rewrite filter_cons in Hf.
    destruct (decide _) as [_ | []]; [done | by split].
  - destruct l2 as [| y l2].
    { specialize (Hf x). rewrite filter_cons in Hf.
      destruct (decide _) as [_ | []]; [done | by split]. }
    apply StronglySorted_inv in H1 as [H1 Hx], H2 as [H2 Hy].
    assert (Hxy : cmp x y <= 0 /\ cmp y x <= 0).
    { split.
      - pose proof (Hf y) as Hfy. rewrite (filter_cons _ y) in Hfy.
        destruct (decide _) as [_ | []]; [| by split].
        assert (Hin : y ∈ x :: l1).
        { eapply (list_elem_of_filter (fun b => cmp y b <= 0 /\ cmp b y <= 0)).
          rewrite Hfy. by left. }
        apply elem_of_cons in Hin as [-> | Hin]; [done |].
        by apply (proj1 (Forall_forall _ _) Hx).
      - pose proof (Hf x) as Hfx. rewrite (filter_cons _ x) in Hfx.
        destruct (decide _) as [_ | []]; [| by split].
        assert (Hin : x ∈ y :: l2).
        { eapply (list_elem_of_filter (fun b => cmp x b <= 0 /\ cmp b x <= 0)).
          rewrite <- Hfx. by left. }
        apply elem_of_cons in Hin as [-> | Hin]; [done |].
        by apply (proj1 (Forall_forall _ _) Hy). }
    assert (x = y) as <-.
    { pose proof (Hf x) as Hfx. rewrite !filter_cons in Hfx.
      destruct (decide _) as [_ | []]; [| by split].
      destruct (decide _) as [_ | []]; [| done].
      congruence. }
    f_equal. apply IH; [done | done |].
    intros a. specialize (Hf a). rewrite !filter_cons in Hf.
    destruct (decide _); [congruence | done].
Qed.

(** Whatever arrangement is sorted and keeps the order of the elements
    that compare as equal is the one [Array_sort] returns. *)
Lemma Array_sort_unique l l' :
  StronglySorted (fun a b => cmp a b <= 0) l' ->
  (forall a, filter (fun b => cmp a b <= 0 /\ cmp b a <= 0) l'
             = filter (fun b => cmp a b <= 0 /\ cmp b a <= 0) l) ->
  l' = Array_sort cmp l.
Proof using cmp_total cmp_trans.
  intros Hs Hf. apply sorted_stable_unique; [done | apply Array_sort_sorted |].
  intros a. rewrite Hf. symmetry. apply Array_sort_stable.
  intros x y _ _ [_ Hx] [Hy _]. by apply (cmp_trans x a y).
Qed.

End Consistent.

Lemma sortInsert_ext (cmp' : A -> A -> Z) x l :
  (forall y, y ∈ l -> (cmp x y <=? 0) = (cmp' x y <=? 0)) ->
  sortInsert cmp x l = sortInsert cmp' x l.
Proof.
  induction l as [| y l IH]; intros Hxy; simpl; [done |].
  rewrite (Hxy y) by (by left).
  rewrite IH by (intros; apply Hxy; by right). done.
Qed.

End ArraySortFacts.

(** The result of [sort] only depends on the comparisons between the
    elements of the array. *)
Lemma Array_sort_ext {A} (cmp cmp' : A -> A -> Z) l :
  (forall x y, x ∈ l -> y ∈ l -> (cmp x y <=? 0) = (cmp' x y <=? 0)) ->
  Array_sort cmp l = Array_sort cmp' l.
Proof.
  induction l as [| x l IH]; intros Hxy; simpl; [done |].
  rewrite IH by (intros; apply Hxy; by right).
  apply sortInsert_ext. intros y Hy. rewrite Array_sort_perm in Hy.
  apply Hxy; [by left | by right].
Qed.

Lemma lexCompare_refl a : lexCompare a a = Eq.
Proof. induction a as [| x a IH]; simpl; [done |]. by rewrite Z.compare_refl. Qed.

Lemma lexCompare_eq a : forall b, lexCompare a b = Eq -> a = b.
Proof.
  induction a as [| x a IH]; intros [| y b]; simpl; try done.
  destruct (x ?= y) eqn:E; try done.
  apply Z.compare_eq in E as ->. intros ?. f_equal. by apply IH.
Qed.

Lemma lexCompare_antisym a : forall b, lexCompare b a = CompOpp (lexCompare a b).
Proof.
  induction a as [| x a IH]; intros [| y b]; simpl; try done.
  rewrite (Z.compare_antisym x y). destruct (x ?= y); simpl; auto.
Qed.

Lemma lexCompare_trans a : forall b c,
  lexCompare a b <> Gt -> lexCompare b c <> Gt -> lexCompare a c <> Gt.
Proof.
  induction a as [| x a IH]; intros [| y b] [| z c]; simpl; try done.
  destruct (x ?= y) eqn:Exy; try done.
  - apply Z.compare_eq in Exy as ->.
    destruct (y ?= z); try done. apply IH.
  - intros _. destruct (y ?= z) eqn:Eyz; try done.
    + apply Z.compare_eq in Eyz as <-. by rewrite Exy.
    + rewrite Z.compare_lt_iff in Exy, Eyz.
      assert ((x ?= z) = Lt) as -> by (apply Z.compare_lt_iff; lia). done.
Qed.

Lemma lexCompare_total a b : lexCompare a b <> Gt \/ lexCompare b a <> Gt.
Proof.
  rewrite (lexCompare_antisym a b). destruct (lexCompare a b); simpl; auto.
Qed.

Lemma refCompare_le a b : refCompare a b <= 0 <-> recencyLe a b.
Proof.
  unfold refCompare, recencyLe.
  destruct (ev_created_at a =? ev_created_at b) eqn:E; simpl.
  - destruct (lexCompare (ev_id a) (ev_id b)); split; try lia;
      try (intros _; right; split; [lia | done]).
    intros [? | [_ ?]]; [lia | done].
  - split; [intros; left; lia | intros [? | [? _]]; lia].
Qed.

Lemma recencyLe_total a b : recencyLe a b \/ recencyLe b a.
Proof.
  unfold recencyLe.
  destruct (Z.lt_trichotomy (ev_created_at a) (ev_created_at b))
    as [? | [E | ?]]; [tauto | | tauto].
  destruct (lexCompare_total (ev_id a) (ev_id b)); [left | right]; right; done.
Qed.

Lemma recencyLe_trans a b c : recencyLe a b -> recencyLe b c -> recencyLe a c.
Proof.
  unfold recencyLe. intros [? | [E1 L1]] [? | [E2 L2]]; try (left; lia).
  right. split; [lia |]. by apply (lexCompare_trans _ (ev_id b)).
Qed.

Lemma recencyLe_antisym a b :
  recencyLe a b -> recencyLe b a ->
  ev_created_at a = ev_created_at b /\ ev_id a = ev_id b.
Proof.
  unfold recencyLe. intros [? | [E1 L1]] [? | [E2 L2]]; try lia.
  split; [done |]. apply lexCompare_eq.
  rewrite (lexCompare_antisym (ev_id a) (ev_id b)) in L2.
  destruct (lexCompare (ev_id a) (ev_id b)); done.
Qed.

Lemma refCompare_total a b : refCompare a b <= 0 \/ refCompare b a <= 0.
Proof. rewrite !refCompare_le. apply recencyLe_total. Qed.

Lemma refCompare_trans a b c :
  refCompare a b <= 0 -> refCompare b c <= 0 -> refCompare a c <= 0.
Proof. rewrite !refCompare_le. apply recencyLe_trans. Qed.

Lemma StronglySorted_weaken {A} (R R' : A -> A -> Prop) l :
  (forall a b, R a b -> R' a b) -> StronglySorted R l -> StronglySorted R' l.
Proof.
  intros HR. induction 1 as [| x l _ IH Hall]; constructor; [done |].
  eapply Forall_impl; [exact Hall | apply HR].
Qed.

Section HostOrder.
Context `{Host}.
Hypothesis host_collates : collatesHex.

Lemma compareEvents_ref a b :
  hexId a -> hexId b ->
  (compareEvents a b <=? 0) = (refCompare a b <=? 0).
Proof using host_collates.
  intros Ha Hb. unfold compareEvents, refCompare.
  destruct (negb (ev_created_at a =? ev_created_at b)); [done |].
  pose proof (host_collates (ev_id a) (ev_id b) Ha Hb) as Hc.
  destruct (lexCompare (ev_id a) (ev_id b));
    [apply Z.compare_eq in Hc | rewrite Z.compare_lt_iff in Hc
     | rewrite Z.compare_gt_iff in Hc]; lia.
Qed.

Lemma sort_compareEvents_ref l :
  Forall hexId l -> Array_sort compareEvents l = Array_sort refCompare l.
Proof using host_collates.
  intros Hl. apply Array_sort_ext. intros x y Hx Hy.
  rewrite Forall_forall in Hl. apply compareEvents_ref; auto.
Qed.



End HostOrder.

Lemma demoHost_collates : @collatesHex demoHost.
Proof.
  intros a b _ _. simpl. by destruct (lexCompare a b).
Qed.

Lemma hex_literal s : forallb isLowerHexChar s = true -> Forall lowerHex s.
Proof. apply forallb_Forall_iff, isLowerHexChar_spec. Qed.

Lemma demoFeed_hex : Forall hexId demoFeed.
Proof.
  repeat (apply List.Forall_cons; [by apply hex_literal |]). constructor.
Qed.

Section SortEvents.
Context `{Host}.



End SortEvents.



Example sortEvents_demo :
  Array_sort (@compareEvents demoHost) demoFeed
  = [note "0a" 20 "second"; note "0a" 10 "fourth"; note "0b" 10 "first";
     note "0b" 10 "third"].
Proof. reflexivity. Qed.

(** The host that collates letters without case first orders
    hexadecimal ids by code unit all the same. *)
Lemma collatingHost_collates : @collatesHex collatingHost.
Proof.
  intros a b Ha Hb. simpl.
  assert (Hfold : forall s, Forall lowerHex s -> map foldCase s = s).
  { induction 1 as [| c s Hc _ IH]; simpl; [done |]. rewrite IH. f_equal.
    unfold foldCase, lowerHex in *.
    destruct ((65 <=? c) && (c <=? 90)) eqn:E; [lia | done]. }
  rewrite !Hfold by done.
  destruct (lexCompare a b) eqn:E; [| done | done].
  apply lexCompare_eq in E as ->. by rewrite lexCompare_refl.
Qed.


End EventFacts.

(** ** Relay connections *)
Module RelayFacts.
Import RelayJs.

Section Connection.
Context {callback filter : Type}.
Abbreviation Relay := (@Relay callback filter).
Abbreviation RelayPool := (@RelayPool callback filter).

(** C7 (amended): [unsubscribe(id)] removes the id from the three
    registries whatever the status is and changes neither the status nor
    another field; a second call leaves the registries as they are, and
    so does a call with an id that is in none of them. On a connected
    relay every call, the repeated one and the one with an unknown id
    too, sends a CLOSE frame; otherwise nothing is sent. *)
Theorem unsubscribe_bookkeeping (subId : list Z) (r : Relay) :
  socketWhenConnected r ->
  exists r',
    unsubscribe subId r = Ok r' /\
    subscriptions r' = delete subId (subscriptions r) /\
    eventCallbacks r' = delete subId (eventCallbacks r) /\
    eoseCallbacks r' = delete subId (eoseCallbacks r) /\
    relay_status r' = relay_status r /\ url r' = url r /\
    thens r' = thens r /\
    sentFrames r' = match relay_status r with
                    | connected => sentFrames r ++ [CLOSE subId]
                    | _ => sentFrames r
                    end /\
    (exists r'',
        unsubscribe subId r' = Ok r'' /\
        subscriptions r'' = subscriptions r' /\
        eventCallbacks r'' = eventCallbacks r' /\
        eoseCallbacks r'' = eoseCallbacks r' /\
        relay_status r'' = relay_status r') /\
    (subscriptions r !! subId = None ->
     eventCallbacks r !! subId = None ->
     eoseCallbacks r !! subId = None ->
     subscriptions r' = subscriptions r /\
     eventCallbacks r' = eventCallbacks r /\
     eoseCallbacks r' = eoseCallbacks r).
Proof.
  intros Hws. unfold unsubscribe, socketWhenConnected, sentFrames, wsSend in *.
  destruct r as [u [w |] subs st evs eos th]; simpl in *;
    destruct st; simpl;
    try (destruct (Hws eq_refl) as [? ?]; discriminate);
    (eexists; repeat split; simpl;
     [eexists; repeat split; simpl; apply delete_delete_eq
     | by apply delete_id ..]).
Qed.

(** *** Subscribing *)

Lemma subscribe_ok draw filters onEvent onEose (r : Relay) :
  socketWhenConnected r ->
  exists r',
    subscribe draw filters onEvent onEose r = Ok (r', generateSubId draw) /\
    socketWhenConnected r' /\
    eventCallbacks r' = <[generateSubId draw := onEvent]> (eventCallbacks r) /\
    subscriptions r' =
      <[generateSubId draw := {| sub_filters := filters; sub_onEvent := onEvent;
                                 sub_onEose := onEose |}]> (subscriptions r).
Proof.
  intros Hws. unfold subscribe, socketWhenConnected, wsSend in *.
  destruct r as [u [w |] subs st evs eos th]; simpl in *;
    destruct st; simpl;
    try (destruct (Hws eq_refl) as [? ?]; discriminate);
    (eexists; repeat split; simpl; (done || by eauto)).
Qed.

(** C9 (amended): the ids a run of [subscribe] calls returns are the
    strings [generateSubId] cuts out of the random draws, each registered
    when the run ends; they are pairwise distinct exactly when those
    strings are. [subscribe] compares no id with the ids in use. *)
Theorem subscribeAll_ids
    (calls : list (list Z * list filter * callback * option callback)) :
  forall r : Relay,
  socketWhenConnected r ->
  exists r' ids,
    subscribeAll calls r = Ok (r', ids) /\
    ids = map (fun c => generateSubId (drawOf c)) calls /\
    (NoDup ids <-> NoDup (map (fun c => generateSubId (drawOf c)) calls)) /\
    (forall id, (id ∈ ids \/ is_Some (eventCallbacks r !! id)) ->
                is_Some (eventCallbacks r' !! id)) /\
    (forall id, (id ∈ ids \/ is_Some (subscriptions r !! id)) ->
                is_Some (subscriptions r' !! id)) /\
    socketWhenConnected r'.
Proof.
  induction calls as [| [[[draw filters] onEvent] onEose] calls IH];
    intros r Hws; simpl.
  - exists r, []. repeat split; try done;
      intros id [Hin | ?]; try done; by apply elem_of_nil in Hin.
  - destruct (subscribe_ok draw filters onEvent onEose r Hws)
      as (r1 & -> & Hws1 & Hev & Hsub).
    simpl.
    destruct (IH r1 Hws1) as (r' & ids & -> & -> & Hnd & Hevs & Hsubs & Hws').
    simpl. eexists r', _. split; [done |]. split; [done |].
    split; [done |].
    split; [| split; [| done]].
    + intros id Hid. apply Hevs. rewrite Hev.
      destruct Hid as [Hid | Hid].
      * apply elem_of_cons in Hid as [-> | Hid]; [| by left].
        right. by rewrite lookup_insert_eq.
      * right. rewrite lookup_insert. by case_decide.
    + intros id Hid. apply Hsubs. rewrite Hsub.
      destruct Hid as [Hid | Hid].
      * apply elem_of_cons in Hid as [-> | Hid]; [| by left].
        right. by rewrite lookup_insert_eq.
      * right. rewrite lookup_insert. by case_decide.
Qed.

(** *** Publishing to a pool *)

Lemma publish_fulfilled event t (r : Relay) v :
  (publish event t r).2 = Fulfilled v -> v = VUndefined.
Proof.
  unfold publish. destruct (connect t r) as [r1 [[] | err |]]; simpl;
    [| done | done].
  destruct (wsSend (EVENT event) r1); simpl; [| done]. congruence.
Qed.

Lemma catch_not_rejected p f err : catch p f <> Rejected err.
Proof. by destruct p. Qed.

Lemma Promise_all_settled (ps : list (promise value)) :
  Forall (fun p => forall err, p <> Rejected err) ps ->
  (forall err, Promise_all ps <> Rejected err) /\
  (Promise_all ps = Pending <-> Pending ∈ ps) /\
  (Pending ∉ ps ->
   Promise_all ps
   = Fulfilled (map (fun p => match p with Fulfilled v => v | _ => VUndefined end) ps)).
Proof.
  induction 1 as [| p ps Hp _ (IH1 & IH2 & IH3)]; simpl.
  - repeat split; try done. intros Hin. by apply elem_of_nil in Hin.
  - destruct p as [v | err |]; [| by destruct (Hp err) |].
    + destruct (Promise_all ps) as [vs | err |] eqn:E.
      * repeat split; try done.
        -- intros Hin. apply elem_of_cons in Hin as [? | Hin]; [done |].
           by apply IH2 in Hin.
        -- intros Hn. apply not_elem_of_cons in Hn as [_ Hn].
           specialize (IH3 Hn). congruence.
      * by destruct (IH1 err).
      * repeat split; try done.
        -- intros _. right. by apply IH2.
        -- intros Hn. apply not_elem_of_cons in Hn as [_ Hn].
           destruct Hn. by apply IH2.
    + destruct (Promise_all ps) as [vs | err |] eqn:E;
        [| by destruct (IH1 err) |];
        (repeat split; try done; [by left | intros Hn; by apply not_elem_of_cons in Hn as [? _]]).
Qed.

(** C8 (amended): [RelayPool.publish] calls [publish] on every member,
    whatever happens at the others; its promise is never rejected, stays
    pending while a member's attempt is, and is fulfilled once all have
    settled, with one entry a member in the order of the pool: the entry
    of a failure names the relay and carries the error, the entry of a
    success is [undefined]. *)
Theorem poolPublish_outcomes (event : value) (net : list Z -> transport)
    (pool : RelayPool) :
  (poolPublish event net pool).1
  = map (fun ur => (ur.1, (publish event (net ur.1) ur.2).1)) pool /\
  (forall err, (poolPublish event net pool).2 <> Rejected err) /\
  ((poolPublish event net pool).2 = Pending <->
   exists ur, ur ∈ pool /\ (publish event (net ur.1) ur.2).2 = Pending) /\
  ((forall ur, ur ∈ pool -> (publish event (net ur.1) ur.2).2 <> Pending) ->
   (poolPublish event net pool).2
   = Fulfilled (map (fun ur => outcomeEntry event net ur) pool)) /\
  (forall (ur : list Z * Relay) v,
      (publish event (net ur.1) ur.2).2 = Fulfilled v ->
                outcomeEntry event net ur = VUndefined) /\
  (forall (ur : list Z * Relay) err,
      (publish event (net ur.1) ur.2).2 = Rejected err ->
                  outcomeEntry event net ur = failureEntry (url ur.2) err).
Proof.
  unfold poolPublish. simpl. rewrite !map_map.
  set (caught := fun ur : list Z * Relay =>
         catch (publish event (net ur.1) ur.2).2 (failureEntry (url ur.2))).
  assert (Hsnd : map (fun ur : list Z * Relay =>
                   (let (r', p) := publish event (net ur.1) ur.2 in
                    (ur.1, r', catch p (failureEntry (url ur.2)))).2) pool
                 = map caught pool).
  { apply map_ext. intros ur. subst caught. simpl.
    by destruct (publish event (net ur.1) ur.2). }
  rewrite Hsnd.
  assert (Hfst : map (fun ur : list Z * Relay =>
                   (let (r', p) := publish event (net ur.1) ur.2 in
                    (ur.1, r', catch p (failureEntry (url ur.2)))).1) pool
                 = map (fun ur => (ur.1, (publish event (net ur.1) ur.2).1)) pool).
  { apply map_ext. intros ur. by destruct (publish event (net ur.1) ur.2). }
  rewrite Hfst.
  assert (Hall : Forall (fun p => forall err, p <> Rejected err) (map caught pool)).
  { apply Forall_map, Forall_forall. intros ur _ err. apply catch_not_rejected. }
  destruct (Promise_all_settled _ Hall) as (H1 & H2 & H3).
  assert (Hpend : Pending ∈ map caught pool <->
                  exists ur, ur ∈ pool /\ (publish event (net ur.1) ur.2).2 = Pending).
  { rewrite list_elem_of_fmap. split.
    - intros (ur & Hp & Hin). exists ur. split; [done |].
      subst caught. simpl in Hp.
      by destruct ((publish event (net ur.1) ur.2).2).
    - intros (ur & Hin & Hp). exists ur. split; [| done].
      subst caught. simpl. by rewrite Hp. }
  split; [done |]. split; [done |]. split; [by rewrite H2 |].
  split; [| split].
  - intros Hsettled. rewrite H3.
    + f_equal. rewrite map_map. apply map_ext. intros ur.
      subst caught. unfold outcomeEntry. simpl.
      by destruct ((publish event (net ur.1) ur.2).2).
    + rewrite Hpend. intros (ur & Hin & Hp). by apply (Hsettled ur).
  - intros ur v Hv. unfold outcomeEntry. rewrite Hv.
    by apply publish_fulfilled in Hv.
  - intros ur err Hv. unfold outcomeEntry. by rewrite Hv.
Qed.

End Connection.

(** ** The relay claims on concrete connections *)

Lemma unsubscribe_bookkeeping_witness :
  socketWhenConnected (openRelay demoUrl) /\
  exists r',
    unsubscribe (js "i") (openRelay demoUrl) = Ok r' /\
    subscriptions r' = delete (js "i") (subscriptions (openRelay demoUrl)) /\
    eventCallbacks r' = delete (js "i") (eventCallbacks (openRelay demoUrl)) /\
    eoseCallbacks r' = delete (js "i") (eoseCallbacks (openRelay demoUrl)) /\
    relay_status r' = connected.
Proof.
  assert (Hws : socketWhenConnected (openRelay demoUrl))
    by (intros _; simpl; eauto).
  split; [exact Hws |].
  destruct (unsubscribe_bookkeeping (js "i") (openRelay demoUrl) Hws)
    as (r' & H1 & H2 & H3 & H4 & H5 & _).
  exists r'. repeat split; assumption.
Defined.

(** C7, as stated, fails: on an open connection a call with an id that
    was never registered sends a CLOSE frame. *)
Lemma unsubscribe_unknown_id_sends_close :
  subscriptions (openRelay demoUrl) !! js "nosuch" = None /\
  eventCallbacks (openRelay demoUrl) !! js "nosuch" = None /\
  eoseCallbacks (openRelay demoUrl) !! js "nosuch" = None /\
  sentFrames (openRelay demoUrl) = [] /\
  exists r', unsubscribe (js "nosuch") (openRelay demoUrl) = Ok r' /\
             sentFrames r' = [CLOSE (js "nosuch")].
Proof.
  repeat split; try apply lookup_empty.
  eexists. split; reflexivity.
Qed.

(** C8, as stated, fails: the entry of a relay that took the event is
    [undefined] and names no relay. *)
Lemma poolPublish_success_entry_is_undefined :
  (poolPublish (VStr (js "event")) (fun _ => Opens)
     [(demoUrl, openRelay demoUrl)]).2 = Fulfilled [VUndefined].
Proof. reflexivity. Qed.

(** Three relays, the second of which cannot be reached. *)
Example poolPublish_one_failure :
  (poolPublish (VStr (js "event"))
     (fun u => if bool_decide (u = js "b") then Fails (VStr (js "down"))
               else Opens)
     [(js "a", @newRelay nat nat (js "a")); (js "b", newRelay (js "b"));
      (js "c", newRelay (js "c"))]).2
  = Fulfilled [VUndefined; failureEntry (js "b") (VStr (js "down"));
               VUndefined].
Proof. reflexivity. Qed.

Lemma subscribeAll_ids_witness :
  socketWhenConnected (@newRelay nat nat demoUrl) /\
  exists r' ids,
    subscribeAll [(js "0.4fzyo82mvyr", [], 1%nat, None);
                  (js "0.i", [], 2%nat, Some 3%nat)]
                 (@newRelay nat nat demoUrl) = Ok (r', ids) /\
    ids = [js "4fzyo82mvyr"; js "i"] /\
    is_Some (eventCallbacks r' !! js "i").
Proof.
  assert (Hws : socketWhenConnected (@newRelay nat nat demoUrl))
    by (intros E; discriminate E).
  split; [exact Hws |].
  destruct (subscribeAll_ids
              [(js "0.4fzyo82mvyr", [], 1%nat, None);
               (js "0.i", [], 2%nat, Some 3%nat)] _ Hws)
    as (r' & ids & H1 & H2 & _ & H3 & _).
  exists r', ids. split; [exact H1 |]. split; [exact H2 |].
  apply H3. left. rewrite H2. right. left.
Defined.

(** C9, as stated, fails: two calls whose random draws are both 0.5 get
    the same id, and the second replaces the callback of the first. *)
Lemma subscribe_same_draw_same_id :
  exists r',
    subscribeAll [(js "0.i", [], 1%nat, None); (js "0.i", [], 2%nat, None)]
                 (@newRelay nat nat demoUrl)
    = Ok (r', [js "i"; js "i"]) /\
    eventCallbacks r' !! js "i" = Some 2%nat.
Proof.
  eexists. split; [reflexivity |]. simpl.
  rewrite lookup_insert_eq. reflexivity.
Qed.

End RelayFacts.

(** ** More of the bech32 codec and the typed encoders *)
Module Nip19Codec.
Import Int32Facts Nip19 Nip19Facts.

Lemma byte_read_back b :
  inRange 8 b ->
  exists c1 c2, padStart 2 48 (numToString 16 b) = [c1; c2] /\
                parseInt16 [c1; c2] = Some b.
Proof.
  intros Hb. unfold inRange in Hb. change (2 ^ 8) with 256 in Hb.
  assert (H : forallb byteReadBack (map Z.of_nat (seq 0 256)) = true)
    by (vm_compute; reflexivity).
  rewrite forallb_forall in H.
  assert (Hok : byteReadBack b = true).
  { apply H, in_map_iff. exists (Z.to_nat b). split; [lia |].
    apply in_seq. lia. }
  unfold byteReadBack in Hok.
  destruct (padStart 2 48 (numToString 16 b)) as [| c1 [| c2 [| ? ?]]];
    try discriminate.
  apply bool_decide_eq_true in Hok. eauto.
Qed.

(** X1: [hexToBytes] reads back the bytes that [bytesToHex] wrote: no
    byte is read as [NaN], and none is changed. *)
Theorem hexToBytes_of_bytesToHex (bytes : list Z) :
  Forall (inRange 8) bytes ->
  hexToBytes (bytesToHex bytes) = map Some bytes.
Proof.
  unfold bytesToHex. induction 1 as [| b bytes Hb _ IH]; simpl; [done |].
  destruct (byte_read_back b Hb) as (c1 & c2 & -> & Hp). simpl.
  by rewrite Hp, IH.
Qed.

Lemma hexToBytes_of_bytesToHex_witness :
  hexToBytes (bytesToHex [0; 10; 255]) = map Some [0; 10; 255].
Proof.
  apply (hexToBytes_of_bytesToHex [0; 10; 255]).
  repeat (apply List.Forall_cons; [unfold inRange; lia |]). constructor.
Defined.

Lemma lowerHex_digit c : isLowerHex c -> In c lowerHexDigits.
Proof.
  unfold isLowerHex, lowerHexDigits. intros Hc. simpl.
  assert (c = 48 \/ c = 49 \/ c = 50 \/ c = 51 \/ c = 52 \/ c = 53 \/
          c = 54 \/ c = 55 \/ c = 56 \/ c = 57 \/ c = 97 \/ c = 98 \/
          c = 99 \/ c = 100 \/ c = 101 \/ c = 102) by lia.
  intuition auto.
Qed.

Lemma pair_written_back c1 c2 :
  isLowerHex c1 -> isLowerHex c2 ->
  exists b, parseInt16 [c1; c2] = Some b /\ inRange 8 b /\
            padStart 2 48 (numToString 16 b) = [c1; c2].
Proof.
  intros H1 H2.
  assert (H : forallb (fun a => forallb (pairWrittenBack a) lowerHexDigits)
                      lowerHexDigits = true) by (vm_compute; reflexivity).
  rewrite forallb_forall in H.
  specialize (H c1 (lowerHex_digit c1 H1)).
  rewrite forallb_forall in H.
  specialize (H c2 (lowerHex_digit c2 H2)).
  unfold pairWrittenBack in H.
  destruct (parseInt16 [c1; c2]) as [b |]; [| done].
  apply andb_true_iff in H as [Hr Hw]. apply bool_decide_eq_true in Hw.
  exists b. split; [done |]. split; [| done].
  unfold inRange. change (2 ^ 8) with 256. lia.
Qed.

(** A string of an even number of lowercase digits is the hex form of
    the bytes [hexToBytes] reads from it. *)
Lemma hexToBytes_lowerHex (n : nat) : forall hex,
  length hex = (2 * n)%nat -> Forall isLowerHex hex ->
  exists bytes,
    hexToBytes hex = map Some bytes /\ Forall (inRange 8) bytes /\
    length bytes = n /\ bytesToHex bytes = hex.
Proof.
  induction n as [| n IH]; intros hex Hlen Hhex.
  - destruct hex; [| done]. by exists [].
  - destruct hex as [| c1 [| c2 rest]]; try (simpl in Hlen; lia).
    apply Forall_cons in Hhex as [H1 Hhex].
    apply Forall_cons in Hhex as [H2 Hhex].
    destruct (IH rest) as (bytes & Hb & Hr & Hl & Hw);
      [simpl in Hlen; lia | done |].
    destruct (pair_written_back c1 c2 H1 H2) as (b & Hp & Hbr & Hbw).
    exists (b :: bytes). simpl. rewrite Hp, Hb.
    split; [done |]. split; [by constructor |]. split; [by rewrite Hl |].
    unfold bytesToHex in *. simpl. by rewrite Hbw, Hw.
Qed.


(** X2: packing any bytes into 5-bit groups with padding gives
    [ceil(8n/5)] groups, and unpacking them without padding gives the
    bytes back. *)
Theorem convertBits_pack_unpack (data : list Z) :
  Forall (inRange 8) data ->
  exists combined,
    convertBits data 8 5 true = Some (Ok combined) /\
    Forall (inRange 5) combined /\
    Z.of_nat (length combined) = (8 * Z.of_nat (length data) + 4) / 5 /\
    convertBits combined 5 8 false = Some (Ok data).
Proof.
  intros Hdata.
  destruct (convertBits_pad 8 5 ltac:(lia) ltac:(lia) ltac:(lia) data Hdata)
    as (combined & pad & Henc & Hv & Hlen & Hpad & Hr).
  exists combined. split; [done |]. split; [done |]. split.
  - apply (Z.div_unique _ _ _ (4 - pad)); lia.
  - destruct (convertBits_unpad 5 8 ltac:(lia) ltac:(lia) ltac:(lia)
                combined (groupsValue 8 data) (length data) pad Hr Hv)
      as (out & Hdec & Hout & Hn & Hro); try lia.
    rewrite Hdec. do 2 f_equal.
    apply (groupsValue_inj 8); try (done || lia).
Qed.

Lemma convertBits_pack_unpack_witness :
  exists combined,
    convertBits [255; 0; 171] 8 5 true = Some (Ok combined) /\
    Forall (inRange 5) combined /\
    Z.of_nat (length combined) = (8 * Z.of_nat (length [255; 0; 171]) + 4) / 5 /\
    convertBits combined 5 8 false = Some (Ok [255; 0; 171]).
Proof.
  apply (convertBits_pack_unpack [255; 0; 171]).
  repeat (apply List.Forall_cons; [unfold inRange; lia |]). constructor.
Defined.


Lemma convertStep_refuses f t maxv st v :
  0 <= f < 31 -> outOfRange f v ->
  convertStep f t maxv st v = Some (Throw (Error "Invalid data")).
Proof.
  intros Hf Hv. unfold convertStep, outOfRange in *.
  destruct (v <? 0) eqn:E; [done |]. simpl.
  assert (Hr : 2 ^ f <= v < 2 ^ 31) by lia.
  assert (Pf : 0 < 2 ^ f) by (apply Z.pow_pos_nonneg; lia).
  assert (Int32.shr v f <> 0) as Hne.
  { unfold Int32.shr. rewrite land31 by lia. rewrite wrap_small by lia.
    rewrite Z.shiftr_div_pow2 by lia.
    assert (1 <= v / 2 ^ f); [| lia].
    apply Z.div_le_lower_bound; lia. }
  apply Z.eqb_neq in Hne. by rewrite Hne.
Qed.

Lemma convertLoop_refuses f t maxv data : forall st,
  0 <= f < 31 -> 1 <= t ->
  Exists (outOfRange f) data ->
  convertLoop f t maxv st data = Some (Throw (Error "Invalid data")).
Proof.
  induction data as [| v data IH]; intros st Hf Ht Hex.
  - by apply Exists_nil in Hex.
  - simpl. apply Exists_cons in Hex.
    destruct (convertStep f t maxv st v) as [[st' | e] |] eqn:E.
    + destruct Hex as [Hv | Hex]; [| by apply IH].
      rewrite convertStep_refuses in E by done. discriminate.
    + unfold convertStep in E.
      destruct ((v <? 0) || negb (Int32.shr v f =? 0)); [congruence |].
      by destruct (drain _ _ _ _ _ _) as [[? ?] |].
    + unfold convertStep in E.
      destruct ((v <? 0) || negb (Int32.shr v f =? 0)); [done |].
      destruct (drain_total t maxv (Int32.or (Int32.shl (cb_acc st) f) v)
                  (Z.to_nat (cb_bits st + f)) (cb_bits st + f) (cb_out st))
        as [[b o] Hd]; [lia | lia |].
      by rewrite Hd in E.
Qed.

(** X3: [convertBits] throws 'Invalid data' as soon as one element of the
    input is negative or does not fit in [fromBits] bits, whatever the
    padding flag; nothing is returned for the elements before it. *)
Theorem convertBits_refuses_out_of_range (data : list Z) (f t : Z) (pad : bool) :
  0 <= f < 31 -> 1 <= t ->
  Exists (outOfRange f) data ->
  convertBits data f t pad = Some (Throw (Error "Invalid data")).
Proof.
  intros Hf Ht Hex. unfold convertBits.
  by rewrite convertLoop_refuses.
Qed.

Lemma convertBits_refuses_witness :
  convertBits [1; 256; 3] 8 5 true = Some (Throw (Error "Invalid data")).
Proof.
  apply (convertBits_refuses_out_of_range [1; 256; 3] 8 5 true); [lia | lia |].
  apply Exists_cons_tl, Exists_cons_hd. right. lia.
Defined.

Lemma charsetAt_length vs :
  Forall (inRange 5) vs ->
  length (concat (map charsetAt vs)) = length vs /\
  Forall (fun c => c ∈ BECH32_CHARSET) (concat (map charsetAt vs)).
Proof.
  induction 1 as [| v vs Hv _ [IHl IHf]]; simpl; [by split |].
  destruct (charsetAt_symbol v Hv) as (c & Hc & _ & _).
  pose proof Hc as Hc'. unfold charsetAt in Hc'.
  destruct (v <? 0); [done |].
  destruct (BECH32_CHARSET !! Z.to_nat v) eqn:E; [| done].
  injection Hc' as ->. rewrite Hc. simpl. split; [lia |].
  constructor; [| done]. by eapply list_elem_of_lookup_2.
Qed.

(** X4: for bytes, [bech32Encode] returns the prefix, the separator and
    [ceil(8n/5) + 6] characters of the alphabet: 58 for 32 bytes. *)
Theorem bech32Encode_shape (prefix data : list Z) :
  Forall (inRange 8) data ->
  exists symbols,
    bech32Encode prefix data = Some (Ok (prefix ++ 49 :: symbols)) /\
    Forall (fun c => c ∈ BECH32_CHARSET) symbols /\
    (49 ∉ symbols) /\
    Z.of_nat (length symbols) = (8 * Z.of_nat (length data) + 4) / 5 + 6.
Proof.
  intros Hdata.
  destruct (convertBits_pad 8 5 ltac:(lia) ltac:(lia) ltac:(lia) data Hdata)
    as (combined & pad & Henc & _ & Hlen' & Hpad & Hr).
  assert (Hlen : Z.of_nat (length combined)
                 = (8 * Z.of_nat (length data) + 4) / 5)
    by (apply (Z.div_unique _ _ _ (4 - pad)); lia).
  destruct (createChecksum_symbols prefix combined) as [Hcl Hck].
  assert (Hall : Forall (inRange 5) (combined ++ createChecksum prefix combined))
    by (by apply Forall_app).
  destruct (charsetAt_length _ Hall) as [Hl Hf].
  unfold bech32Encode. rewrite Henc. eexists. split; [reflexivity |].
  split; [done |]. split; [by apply symbols_no_separator |].
  rewrite Hl, length_app, Hcl. lia.
Qed.

Lemma bech32Encode_shape_witness :
  exists symbols,
    bech32Encode (js "note") zeroKey = Some (Ok (js "note" ++ 49 :: symbols)) /\
    Forall (fun c => c ∈ BECH32_CHARSET) symbols /\
    (49 ∉ symbols) /\
    Z.of_nat (length symbols) = (8 * Z.of_nat (length zeroKey) + 4) / 5 + 6.
Proof.
  apply (bech32Encode_shape (js "note") zeroKey).
  apply Forall_replicate. unfold inRange. lia.
Defined.


(** X5: a string without the separator, or whose only separator is its
    first character, is refused with 'Invalid bech32 string'. *)
Theorem bech32Decode_needs_prefix (str : list Z) :
  (49 ∉ str) \/ (exists rest, str = 49 :: rest /\ 49 ∉ rest) ->
  bech32Decode str = Some (Throw (Error "Invalid bech32 string")).
Proof.
  intros Hstr. unfold bech32Decode.
  assert ((lastIndexOf 49 str <? 1) = true) as ->; [| done].
  unfold lastIndexOf. destruct Hstr as [Hno | (rest & -> & Hno)].
  - rewrite lastIndexOfFrom_absent by done. done.
  - simpl. rewrite lastIndexOfFrom_absent by done. done.
Qed.

Lemma bech32Decode_needs_prefix_witness :
  bech32Decode (js "npubqqqqqq") = Some (Throw (Error "Invalid bech32 string")).
Proof.
  apply (bech32Decode_needs_prefix (js "npubqqqqqq")). left.
  intros Hin. vm_compute in Hin.
  repeat (apply elem_of_cons in Hin as [Hin | Hin]; [discriminate Hin |]).
  by apply elem_of_nil in Hin.
Defined.

Lemma indexOfFrom_spec c s : forall i,
  ((c ∉ s) /\ indexOfFrom i c s = -1) \/
  (c ∈ s /\ i <= indexOfFrom i c s < i + Z.of_nat (length s)).
Proof.
  induction s as [| x s IH]; intros i; simpl.
  - left. split; [apply not_elem_of_nil | done].
  - destruct (x =? c) eqn:E.
    + right. apply Z.eqb_eq in E as ->. split; [by left | lia].
    + apply Z.eqb_neq in E. destruct (IH (i + 1)) as [[Hno H1] | [Hin Hr]].
      * left. split; [| done]. apply not_elem_of_cons. split; [congruence | done].
      * right. split; [by right | lia].
Qed.

Lemma decodeChars_foreign data : forall decoded,
  Exists (fun c => c ∉ BECH32_CHARSET) data ->
  decodeChars data decoded = Throw (Error "Invalid character").
Proof.
  induction data as [| c data IH]; intros decoded Hex.
  - by apply Exists_nil in Hex.
  - simpl. destruct (indexOfFrom_spec c BECH32_CHARSET 0) as [[Hno H1] | [Hin Hr]].
    + unfold indexOf. by rewrite H1.
    + unfold indexOf.
      assert ((indexOfFrom 0 c BECH32_CHARSET =? -1) = false) as -> by lia.
      apply IH. apply Exists_cons in Hex as [Hc | Hex]; [done | done].
Qed.

(** X6: a character outside the 32-symbol alphabet after the last
    separator (an uppercase letter, [b], [i], [o]) makes
    [bech32Decode] throw 'Invalid character', before any checksum is
    computed. *)
Theorem bech32Decode_foreign_character (prefix data : list Z) :
  prefix <> [] ->
  49 ∉ data ->
  Exists (fun c => c ∉ BECH32_CHARSET) data ->
  bech32Decode (prefix ++ 49 :: data) = Some (Throw (Error "Invalid character")).
Proof.
  intros Hprefix Hsep Hbad. unfold bech32Decode.
  assert (Hpos : lastIndexOf 49 (prefix ++ 49 :: data) = Z.of_nat (length prefix)).
  { unfold lastIndexOf. rewrite lastIndexOfFrom_last by done. lia. }
  rewrite Hpos.
  assert (0 < length prefix)%nat by (destruct prefix; [done | simpl; lia]).
  assert ((Z.of_nat (length prefix) <? 1) = false) as -> by lia.
  replace (Z.to_nat (Z.of_nat (length prefix) + 1))
    with (length (prefix ++ [49])) by (rewrite length_app; simpl; lia).
  rewrite (cons_middle 49 prefix data), app_assoc, drop_app_length.
  by rewrite decodeChars_foreign.
Qed.

Lemma bech32Decode_foreign_character_witness :
  bech32Decode (js "npub" ++ 49 :: js "qqQqqqqq")
  = Some (Throw (Error "Invalid character")).
Proof.
  apply (bech32Decode_foreign_character (js "npub") (js "qqQqqqqq")).
  - discriminate.
  - intros Hin. vm_compute in Hin.
    repeat (apply elem_of_cons in Hin as [Hin | Hin]; [discriminate Hin |]).
    by apply elem_of_nil in Hin.
  - apply Exists_cons_tl, Exists_cons_tl, Exists_cons_hd.
    intros Hin. vm_compute in Hin.
    repeat (apply elem_of_cons in Hin as [Hin | Hin]; [discriminate Hin |]).
    by apply elem_of_nil in Hin.
Defined.







Lemma typedDecode_of_encode (tag : string) (bytes : list Z) :
  js tag <> [] -> Forall (inRange 8) bytes ->
  exists str,
    bech32Encode (js tag) bytes = Some (Ok str) /\
    typedDecode tag str = Some (Ok (bytesToHex bytes)) /\
    forall tag', js tag' <> js tag ->
      typedDecode tag' str = Some (Throw (Error ("Invalid " ++ tag'))).
Proof.
  intros Htag Hb.
  destruct (bech32_roundtrip_any (js tag) bytes Htag Hb) as (str & He & Hd).
  exists str. split; [done |]. unfold typedDecode. rewrite Hd. split.
  - by rewrite bool_decide_eq_true_2.
  - intros tag' Hne. by rewrite bool_decide_eq_false_2.
Qed.

(** X8: for a string of an even number of lowercase hexadecimal digits
    (64 for a key or an event id), each typed decoder gives back the
    string its encoder was given. *)
Theorem typed_decode_encode (hex : list Z) (n : nat) :
  length hex = (2 * n)%nat ->
  Forall Event.lowerHex hex ->
  (exists s, npubEncode hex = Some (Ok s) /\ npubDecode s = Some (Ok hex)) /\
  (exists s, nsecEncode hex = Some (Ok s) /\ nsecDecode s = Some (Ok hex)) /\
  (exists s, noteEncode hex = Some (Ok s) /\ noteDecode s = Some (Ok hex)).
Proof.
  intros Hlen Hhex.
  destruct (hexToBytes_lowerHex n hex Hlen Hhex) as (bytes & Hb & Hr & _ & Hw).
  assert (Hop : map operand (hexToBytes hex) = bytes).
  { rewrite Hb, map_map. simpl. apply map_id. }
  unfold npubEncode, nsecEncode, noteEncode, npubDecode, nsecDecode, noteDecode.
  rewrite Hop.
  split; [| split].
  - destruct (typedDecode_of_encode "npub" bytes ltac:(discriminate) Hr)
      as (s & He & Hd & _). exists s. by rewrite Hw in Hd.
  - destruct (typedDecode_of_encode "nsec" bytes ltac:(discriminate) Hr)
      as (s & He & Hd & _). exists s. by rewrite Hw in Hd.
  - destruct (typedDecode_of_encode "note" bytes ltac:(discriminate) Hr)
      as (s & He & Hd & _). exists s. by rewrite Hw in Hd.
Qed.

Lemma typed_decode_encode_witness :
  (exists s, npubEncode (js "00ff") = Some (Ok s) /\
             npubDecode s = Some (Ok (js "00ff"))) /\
  (exists s, nsecEncode (js "00ff") = Some (Ok s) /\
             nsecDecode s = Some (Ok (js "00ff"))) /\
  (exists s, noteEncode (js "00ff") = Some (Ok s) /\
             noteDecode s = Some (Ok (js "00ff"))).
Proof.
  apply (typed_decode_encode (js "00ff") 2).
  - reflexivity.
  - repeat (apply List.Forall_cons; [unfold Event.lowerHex; vm_compute; intuition discriminate |]).
    constructor.
Defined.

Lemma hexDigitValue_bound c d : hexDigitValue c = Some d -> 0 <= d <= 15.
Proof.
  unfold hexDigitValue. repeat case_match; intros [= <-]; lia.
Qed.

Lemma parseDigits16_two s n :
  (length s <= 2)%nat -> parseDigits16 s None = Some n -> 0 <= n <= 255.
Proof.
  destruct s as [| a [| b [| ? ?]]]; simpl; intros Hl Hp; try done; try lia.
  - destruct (hexDigitValue a) eqn:Ea; [| done].
    apply hexDigitValue_bound in Ea. injection Hp as <-. lia.
  - destruct (hexDigitValue a) eqn:Ea; [| done].
    apply hexDigitValue_bound in Ea.
    destruct (hexDigitValue b) eqn:Eb.
    + apply hexDigitValue_bound in Eb. injection Hp as <-. simpl. lia.
    + injection Hp as <-. simpl. lia.
Qed.

Lemma trimStart_length s : (length (trimStart s) <= length s)%nat.
Proof.
  induction s as [| c s IH]; simpl; [done |].
  destruct (isWhiteSpace c); simpl; lia.
Qed.

Lemma parseInt16_two s n :
  (length s <= 2)%nat -> parseInt16 s = Some n -> -255 <= n <= 255.
Proof.
  intros Hl. unfold parseInt16.
  pose proof (trimStart_length s) as Ht.
  set (s1 := trimStart s) in *.
  set (s2 := match s1 with
             | c :: rest => if (c =? 45) || (c =? 43) then rest else s1
             | [] => []
             end).
  assert (Hs2 : (length s2 <= 2)%nat).
  { subst s2. destruct s1 as [| c rest]; [simpl; lia |].
    simpl in Ht. destruct ((c =? 45) || (c =? 43)); simpl; lia. }
  set (s3 := match s2 with
             | z :: x :: rest =>
                 if (z =? 48) && ((x =? 120) || (x =? 88)) then rest else s2
             | _ => s2
             end).
  assert (Hs3 : (length s3 <= 2)%nat).
  { subst s3. destruct s2 as [| a [| b rest]]; simpl in *; try lia.
    destruct ((a =? 48) && ((b =? 120) || (b =? 88))); simpl; lia. }
  destruct (parseDigits16 s3 None) as [m |] eqn:Ep; [| done].
  apply parseDigits16_two in Ep; [| done].
  intros [= <-]. destruct (match s1 with c :: _ => c =? 45 | [] => false end); lia.
Qed.

Lemma hexToBytes_small hex :
  Forall (fun v => -255 <= v <= 255) (map operand (hexToBytes hex)).
Proof.
  assert (Hp : forall s, (length s <= 2)%nat -> -255 <= operand (parseInt16 s) <= 255).
  { intros s Hs. destruct (parseInt16 s) as [n |] eqn:E; simpl; [| lia].
    by apply parseInt16_two in E. }
  assert (H : forall k hex, (length hex <= k)%nat ->
            Forall (fun v => -255 <= v <= 255) (map operand (hexToBytes hex))).
  { induction k as [| k IH]; intros h Hk.
    - destruct h; [constructor | simpl in Hk; lia].
    - destruct h as [| c1 [| c2 rest]]; simpl.
      + constructor.
      + constructor; [apply Hp; simpl; lia | constructor].
      + constructor; [apply Hp; simpl; lia |]. apply IH. simpl in Hk. lia. }
  by apply (H (length hex)).
Qed.

Lemma encode_accepts_bytes_only (tag : string) (hex str : list Z) :
  bech32Encode (js tag) (map operand (hexToBytes hex)) = Some (Ok str) ->
  Forall (inRange 8) (map operand (hexToBytes hex)).
Proof.
  intros He. pose proof (hexToBytes_small hex) as Hs.
  set (data := map operand (hexToBytes hex)) in *.
  destruct (decide (Exists (outOfRange 8) data)) as [Hex | Hno].
  - unfold bech32Encode, convertBits in He.
    rewrite convertLoop_refuses in He by (done || lia).
    discriminate.
  - apply Forall_forall. intros v Hv.
    rewrite Forall_forall in Hs. specialize (Hs v Hv).
    assert (Hn : ~ outOfRange 8 v).
    { intros Ho. apply Hno, Exists_exists. eauto. }
    unfold outOfRange, inRange in *. change (2 ^ 8) with 256 in *. lia.
Qed.

(** X9: a string made by one typed encoder is refused by the decoders of
    the other two types with their own error: an [nsec] is never read as
    an [npub], nor the reverse. *)
Theorem typed_decoders_refuse_other_types (hex str : list Z) :
  (npubEncode hex = Some (Ok str) ->
   nsecDecode str = Some (Throw (Error "Invalid nsec")) /\
   noteDecode str = Some (Throw (Error "Invalid note"))) /\
  (nsecEncode hex = Some (Ok str) ->
   npubDecode str = Some (Throw (Error "Invalid npub")) /\
   noteDecode str = Some (Throw (Error "Invalid note"))) /\
  (noteEncode hex = Some (Ok str) ->
   npubDecode str = Some (Throw (Error "Invalid npub")) /\
   nsecDecode str = Some (Throw (Error "Invalid nsec"))).
Proof.
  assert (H : forall tag : string, js tag <> [] ->
            bech32Encode (js tag) (map operand (hexToBytes hex)) = Some (Ok str) ->
            forall tag', js tag' <> js tag ->
              typedDecode tag' str = Some (Throw (Error ("Invalid " ++ tag')))).
  { intros tag Htag He.
    pose proof (encode_accepts_bytes_only tag hex str He) as Hb.
    destruct (typedDecode_of_encode tag _ Htag Hb) as (s & He' & _ & Hother).
    rewrite He in He'. by injection He' as <-. }
  unfold npubEncode, nsecEncode, noteEncode.
  assert (Hd : forall a b : string, js a <> js b ->
            bech32Encode (js b) (map operand (hexToBytes hex)) = Some (Ok str) ->
            js b <> [] ->
            typedDecode a str = Some (Throw (Error ("Invalid " ++ a)))).
  { intros a b Hab He Hb. by apply (H b Hb He a). }
  unfold npubEncode, nsecEncode, noteEncode, npubDecode, nsecDecode, noteDecode.
  split; [| split]; intros He; split;
    (eapply Hd; [| exact He | discriminate];
     intros E; vm_compute in E; discriminate E).
Qed.

Lemma typed_decoders_refuse_witness :
  nsecDecode (js "npub1qq46sa2f") = Some (Throw (Error "Invalid nsec")) /\
  noteDecode (js "npub1qq46sa2f") = Some (Throw (Error "Invalid note")).
Proof.
  apply (typed_decoders_refuse_other_types (js "00") (js "npub1qq46sa2f")).
  vm_compute. reflexivity.
Defined.

Lemma charsetAt_char v : inRange 5 v -> charsetAt v = [symbolChar v].
Proof.
  intros Hv. destruct (charsetAt_symbol v Hv) as (c & Hc & _ & _).
  unfold symbolChar. unfold charsetAt in Hc.
  destruct (v <? 0); [done |].
  destruct (BECH32_CHARSET !! Z.to_nat v) eqn:E; [| done].
  injection Hc as ->. unfold charsetAt.
  assert ((v <? 0) = false) as -> by (unfold inRange in Hv; lia).
  by rewrite E.
Qed.

Lemma symbols_chars vs :
  Forall (inRange 5) vs -> concat (map charsetAt vs) = map symbolChar vs.
Proof.
  induction 1 as [| v vs Hv _ IH]; simpl; [done |].
  by rewrite charsetAt_char, IH.
Qed.

Lemma symbolChar_inj v w :
  inRange 5 v -> inRange 5 w -> symbolChar v = symbolChar w -> v = w.
Proof.
  intros Hv Hw E.
  destruct (charsetAt_symbol v Hv) as (c & Hc & _ & Hi).
  destruct (charsetAt_symbol w Hw) as (d & Hd & _ & Hj).
  rewrite charsetAt_char in Hc, Hd by done.
  injection Hc as <-. injection Hd as <-. by rewrite <- Hi, <- Hj, E.
Qed.

Lemma symbolChar_of c :
  c ∈ BECH32_CHARSET -> exists v, inRange 5 v /\ symbolChar v = c.
Proof.
  intros Hin. apply list_elem_of_lookup in Hin as (n & Hn).
  pose proof (lookup_lt_Some _ _ _ Hn) as Hlt.
  change (length BECH32_CHARSET) with 32%nat in Hlt.
  exists (Z.of_nat n). split.
  - unfold inRange. change (2 ^ 5) with 32. lia.
  - unfold symbolChar. by rewrite Nat2Z.id, Hn.
Qed.

Lemma decimals_differ v w :
  inRange 5 v -> inRange 5 w ->
  numToString 10 v = numToString 10 w -> v = w.
Proof.
  intros Hv Hw E. unfold inRange in *. change (2 ^ 5) with 32 in *.
  assert (H : forallb (fun a => forallb (decimalsDiffer a)
                                        (map Z.of_nat (seq 0 32)))
                      (map Z.of_nat (seq 0 32)) = true)
    by (vm_compute; reflexivity).
  rewrite forallb_forall in H.
  assert (Hin : forall x, 0 <= x < 32 -> In x (map Z.of_nat (seq 0 32))).
  { intros x Hx. apply in_map_iff. exists (Z.to_nat x).
    split; [lia |]. apply in_seq. lia. }
  specialize (H v (Hin v Hv)). rewrite forallb_forall in H.
  specialize (H w (Hin w Hw)). unfold decimalsDiffer in H.
  apply orb_true_iff in H as [H | H].
  - by apply bool_decide_eq_true in H.
  - apply negb_true_iff, bool_decide_eq_false in H. done.
Qed.

Lemma joinNums_insert (l : list Z) (j : nat) (v w : Z) :
  l !! j = Some v -> inRange 5 v -> inRange 5 w -> v <> w ->
  joinNums (<[j := w]> l) <> joinNums l.
Proof.
  intros Hj Hv Hw Hne E.
  apply list_elem_of_split_length in Hj as (l1 & l2 & -> & ->).
  rewrite insert_app_r_alt in E by lia.
  replace (length l1 - length l1)%nat with 0%nat in E by lia.
  cbn [insert list_insert] in E. unfold joinNums in E.
  rewrite !map_app, !concat_app in E. cbn [map concat] in E.
  apply app_inv_head, app_inv_tail in E.
  apply Hne. symmetry. by apply decimals_differ.
Qed.

(** X10: a wrong character among the last six of an encoded string (the
    checksum) is always detected: replacing one of them by another
    character of the alphabet makes [bech32Decode] throw 'Invalid
    checksum'. *)
Theorem checksum_typo_detected (prefix bytes symbols : list Z) (k : nat) (c : Z) :
  prefix <> [] ->
  Forall (inRange 8) bytes ->
  bech32Encode prefix bytes = Some (Ok (prefix ++ 49 :: symbols)) ->
  (length symbols - 6 <= k < length symbols)%nat ->
  c ∈ BECH32_CHARSET ->
  symbols !! k <> Some c ->
  bech32Decode (prefix ++ 49 :: <[k := c]> symbols)
  = Some (Throw (Error "Invalid checksum")).
Proof.
  intros Hprefix Hdata Henc Hk Hc Hne.
  destruct (convertBits_roundtrip bytes Hdata) as (combined & Hcb & Hr & _).
  destruct (createChecksum_symbols prefix combined) as [Hlen Hck].
  set (checksum := createChecksum prefix combined) in *.
  unfold bech32Encode in Henc. rewrite Hcb in Henc. fold checksum in Henc.
  change (js "1") with [49] in Henc.
  injection Henc as Henc. apply app_inv_head in Henc.
  injection Henc as Henc.
  assert (Hall : Forall (inRange 5) (combined ++ checksum))
    by (by apply Forall_app).
  rewrite symbols_chars in Henc by done. subst symbols.
  rewrite length_map, length_app, Hlen in Hk.
  destruct (symbolChar_of c Hc) as (w & Hw & <-).
  destruct (lookup_lt_is_Some_2 checksum (k - length combined)) as [v Hv];
    [lia |].
  assert (Hvr : inRange 5 v).
  { rewrite Forall_forall in Hck. apply Hck. by eapply list_elem_of_lookup_2. }
  assert (Hvw : v <> w).
  { intros ->. apply Hne. rewrite list_lookup_fmap, lookup_app_r by lia.
    by rewrite Hv. }
  rewrite <- list_fmap_insert, insert_app_r_alt by lia.
  set (given := <[(k - length combined)%nat := w]> checksum).
  assert (Hgiven : Forall (inRange 5) (combined ++ given)).
  { apply Forall_app. split; [done |]. by apply Forall_insert. }
  assert (Hglen : length given = 6%nat) by (subst given; by rewrite length_insert).
  rewrite <- symbols_chars by done.
  unfold bech32Decode.
  set (enc := concat (map charsetAt (combined ++ given))).
  assert (Hpos : lastIndexOf 49 (prefix ++ 49 :: enc)
                 = Z.of_nat (length prefix)).
  { unfold lastIndexOf.
    rewrite lastIndexOfFrom_last by (by apply symbols_no_separator). lia. }
  rewrite Hpos.
  assert (0 < length prefix)%nat by (destruct prefix; [done | simpl; lia]).
  assert ((Z.of_nat (length prefix) <? 1) = false) as -> by lia.
  rewrite Nat2Z.id.
  replace (Z.to_nat (Z.of_nat (length prefix) + 1))
    with (length (prefix ++ [49])) by (rewrite length_app; simpl; lia).
  rewrite take_app_length.
  rewrite (cons_middle 49 prefix enc), app_assoc, drop_app_length.
  subst enc. rewrite decodeChars_symbols by done. simpl.
  rewrite length_app, Hglen.
  replace (length combined + 6 - 6)%nat with (length combined) by lia.
  rewrite take_app_length, drop_app_length.
  fold checksum.
  rewrite bool_decide_eq_false_2; [done |].
  subst given. by apply (joinNums_insert checksum _ v w).
Qed.

Lemma checksum_typo_detected_witness :
  bech32Decode (js "npub1qq46sa2q") = Some (Throw (Error "Invalid checksum")).
Proof.
  apply (checksum_typo_detected (js "npub") [0] (js "qq46sa2f") 7 113).
  - discriminate.
  - constructor; [unfold inRange; lia | constructor].
  - vm_compute. reflexivity.
  - simpl. lia.
  - apply list_elem_of_In. vm_compute. by left.
  - discriminate.
Defined.

End Nip19Codec.

(** ** Signing and the list events *)
Module EventBuilders.
Import Event EventFacts.

Lemma truthy_false s : truthy s = false -> s = [].
Proof.
  unfold truthy. intros H. apply negb_false_iff in H.
  by apply bool_decide_eq_true in H.
Qed.

Lemma followTag_read_back f :
  (itemIs (followTag f) 0 "p" && itemTruthy (followTag f) 1)
  = truthy (follow_pubkey f) /\
  tagFollow (followTag f) = followReadBack f.
Proof.
  destruct f as [pk relay pet].
  unfold followTag, tagFollow, followReadBack, itemIs, itemTruthy, itemOrEmpty.
  simpl. split; [done |].
  destruct (truthy relay) eqn:Er, (truthy pet) eqn:Ep; simpl; try done;
    by rewrite (truthy_false _ Ep).
Qed.

Lemma contact_tags_read_back follows :
  map tagFollow
      (List.filter (fun tag => itemIs tag 0 "p" && itemTruthy tag 1)
                   (map followTag follows))
  = map followReadBack
        (List.filter (fun f => truthy (follow_pubkey f)) follows).
Proof.
  induction follows as [| f follows IH]; [done |].
  cbn [map List.filter].
  destruct (followTag_read_back f) as [-> Hf].
  destruct (truthy (follow_pubkey f)); [| done].
  cbn [map]. by rewrite Hf, IH.
Qed.

Lemma relayTag_read_back e :
  (itemIs (relayTag e) 0 "r" && itemTruthy (relayTag e) 1)
  = truthy (entry_url e) /\
  tagRelay (relayTag e) = entryReadBack e.
Proof.
  destruct e as [u rd wr].
  unfold relayTag, tagRelay, entryReadBack, itemIs, itemTruthy, itemOrEmpty.
  simpl. split; [done |]. by destruct rd, wr.
Qed.

Lemma relay_tags_read_back relays :
  map tagRelay
      (List.filter (fun tag => itemIs tag 0 "r" && itemTruthy tag 1)
                   (map relayTag relays))
  = map entryReadBack
        (List.filter (fun e => truthy (entry_url e)) relays).
Proof.
  induction relays as [| e relays IH]; [done |].
  cbn [map List.filter].
  destruct (relayTag_read_back e) as [-> He].
  destruct (truthy (entry_url e)); [| done].
  cbn [map]. by rewrite He, IH.
Qed.

(** X11: [parseContactList] applied to an event with the kind and the tags
    of [createContactListEvent(follows)] returns the follows whose pubkey
    is not empty, in order; a follow with a petname and no relay comes
    back with the petname as its relay. The list comes back unchanged
    when every follow has a pubkey and either a relay or no petname. *)
Theorem parseContactList_of_create (now : Z) (follows : list Follow)
    (event : NostrEvent) :
  ev_kind event = t_kind (createContactListEvent now follows) ->
  ev_tags event = t_tags (createContactListEvent now follows) ->
  parseContactList event
  = map followReadBack
        (List.filter (fun f => truthy (follow_pubkey f)) follows) /\
  (Forall (fun f => truthy (follow_pubkey f) = true /\
                    (truthy (follow_relay f) = true \/ follow_petname f = []))
          follows ->
   parseContactList event = follows).
Proof.
  intros Hk Ht.
  assert (Hparse : parseContactList event
                   = map followReadBack
                         (List.filter (fun f => truthy (follow_pubkey f)) follows)).
  { unfold parseContactList. rewrite Hk, Ht. apply contact_tags_read_back. }
  split; [done |].
  intros Hall. rewrite Hparse. clear Hparse Hk Ht.
  induction Hall as [| [pk relay pet] follows [Hpk Hr] _ IH]; simpl; [done |].
  simpl in Hpk, Hr. rewrite Hpk. simpl. rewrite IH. f_equal.
  unfold followReadBack. simpl.
  destruct Hr as [-> | ->]; [done |].
  destruct (truthy relay) eqn:Er; [done |]. by rewrite (truthy_false _ Er).
Qed.

(** X12: [parseRelayList] applied to an event with the kind and the tags
    of [createRelayListEvent(relays)] returns the relays whose url is not
    empty, in order; a relay that is neither read nor write comes back
    as both, every other one unchanged. *)
Theorem parseRelayList_of_create (now : Z) (relays : list RelayEntry)
    (event : NostrEvent) :
  ev_kind event = t_kind (createRelayListEvent now relays) ->
  ev_tags event = t_tags (createRelayListEvent now relays) ->
  parseRelayList event
  = map entryReadBack
        (List.filter (fun e => truthy (entry_url e)) relays) /\
  (Forall (fun e => truthy (entry_url e) = true /\
                    (entry_read e = true \/ entry_write e = true))
          relays ->
   parseRelayList event = relays).
Proof.
  intros Hk Ht.
  assert (Hparse : parseRelayList event
                   = map entryReadBack
                         (List.filter (fun e => truthy (entry_url e)) relays)).
  { unfold parseRelayList. rewrite Hk, Ht. apply relay_tags_read_back. }
  split; [done |].
  intros Hall. rewrite Hparse. clear Hparse Hk Ht.
  induction Hall as [| [u rd wr] relays [Hu Hr] _ IH]; simpl; [done |].
  simpl in Hu, Hr. rewrite Hu. simpl. rewrite IH. f_equal.
  unfold entryReadBack. simpl. destruct rd, wr; try done. by destruct Hr.
Qed.

Section Finalizing.
Context `{Host}.

(** X13: [finalizeEvent] throws the error of [serializeEvent], and signs
    nothing, when the template lacks a numeric [kind] or [created_at], a
    string [content] or well-formed [tags]; [null], [undefined], a
    string, a number or an array as a template are such cases. *)
Theorem finalizeEvent_refuses_malformed (template : value) (sk pk : list Z) :
  schnorr_getPublicKey sk = Ok pk ->
  ~ templateShape (spreadProps template) ->
  finalizeEvent template sk = Throw serializeError.
Proof.
  intros Hpk Hshape. unfold finalizeEvent. rewrite Hpk. simpl.
  set (e0 := objSet (spreadProps template) (js "pubkey") (VStr (bytesToHex pk))).
  destruct (validateEvent_obj e0) as ([|] & Hv & Hiff).
  - destruct (proj1 Hiff eq_refl) as [Hs _]. destruct Hshape.
    subst e0. by apply templateShape_objSet in Hs; try keys_differ.
  - by rewrite (getEventHash_invalid _ Hv).
Qed.

Hypothesis sha256_bytes :
  forall m, length (sha256 m) = 32%nat /\ Forall (inRange 8) (sha256 m).
Hypothesis publicKey_bytes :
  forall sk pk, schnorr_getPublicKey sk = Ok pk ->
                length pk = 32%nat /\ Forall (inRange 8) pk.
Hypothesis signing_succeeds :
  forall sk pk m,
    schnorr_getPublicKey sk = Ok pk -> matchesHex64 m = true ->
    exists s, schnorr_sign m sk = Ok s.

(** X14: the event [finalizeEvent] returns passes [validateEvent]; its
    [pubkey] is the hex of the public key of the secret key, its [id] is
    the hash of its own fields (64 lowercase hexadecimal digits), its
    [sig] is the hex of the signature of that [id], and every other
    property is the template's: a [pubkey], [id] or [sig] of the template
    is overwritten. *)
Theorem finalizeEvent_fields (props : list (list Z * value)) (sk pk : list Z) :
  schnorr_getPublicKey sk = Ok pk ->
  templateShape props ->
  exists e s,
    finalizeEvent (VObj props) sk = Ok (VObj e) /\
    validateEvent (VObj e) = Ok true /\
    objGet e (js "pubkey") = VStr (bytesToHex pk) /\
    objGet e (js "id") = VStr (hashOf e) /\
    matchesHex64 (hashOf e) = true /\
    schnorr_sign (hashOf e) sk = Ok s /\
    objGet e (js "sig") = VStr (bytesToHex s) /\
    (forall k, k <> js "pubkey" -> k <> js "id" -> k <> js "sig" ->
               objGet e k = objGet props k).
Proof using sha256_bytes publicKey_bytes signing_succeeds.
  intros Hpk Hshape.
  destruct (publicKey_bytes sk pk Hpk) as [Hlen Hbytes].
  unfold finalizeEvent. rewrite Hpk. simpl.
  set (e0 := objSet props (js "pubkey") (VStr (bytesToHex pk))).
  assert (Hp0 : pubkeyShape (VStr (bytesToHex pk))).
  { exists (bytesToHex pk). split; [done |].
    apply matchesHex64_spec. by apply bytesToHex_32. }
  assert (V0 : validateEvent (VObj e0) = Ok true).
  { apply validateEvent_true_iff. exists e0. split; [done |]. subst e0. split.
    - apply templateShape_objSet; try keys_differ. done.
    - by simpl_get. }
  rewrite getEventHash_valid by done. simpl.
  set (id := hashOf e0).
  assert (Hid : matchesHex64 id = true).
  { apply bytesToHex_32; apply sha256_bytes. }
  destruct (signing_succeeds sk pk id Hpk Hid) as (s & Hs).
  rewrite Hs. simpl.
  set (e2 := objSet (objSet e0 (js "id") (VStr id)) (js "sig")
                    (VStr (bytesToHex s))).
  assert (Hhash : hashOf e2 = id).
  { subst id e2 e0. unfold hashOf, canonical. by simpl_get. }
  exists e2, s. split; [done |]. rewrite Hhash.
  split.
  { apply validateEvent_true_iff. exists e2. split; [done |]. subst e2 e0. split.
    - rewrite !templateShape_objSet by keys_differ. done.
    - by simpl_get. }
  subst e2 e0.
  split; [by simpl_get |]. split; [by simpl_get |]. split; [done |].
  split; [done |]. split; [by simpl_get |].
  intros k H1 H2 H3. by rewrite !objGet_objSet_ne by done.
Qed.

End Finalizing.

Lemma finalizeEvent_refuses_witness :
  @finalizeEvent demoHost VNull demoKey = Throw serializeError.
Proof.
  apply (@finalizeEvent_refuses_malformed demoHost VNull demoKey demoKey).
  - reflexivity.
  - intros (Hk & _). simpl in Hk. discriminate Hk.
Defined.

Lemma finalizeEvent_fields_witness :
  exists e s,
    @finalizeEvent demoHost (VObj demoTemplate) demoKey = Ok (VObj e) /\
    validateEvent (VObj e) = Ok true /\
    objGet e (js "pubkey") = VStr (bytesToHex demoKey) /\
    objGet e (js "id") = VStr (@hashOf demoHost e) /\
    matchesHex64 (@hashOf demoHost e) = true /\
    @schnorr_sign demoHost (@hashOf demoHost e) demoKey = Ok s /\
    objGet e (js "sig") = VStr (bytesToHex s) /\
    (forall k, k <> js "pubkey" -> k <> js "id" -> k <> js "sig" ->
               objGet e k = objGet demoTemplate k).
Proof.
  apply (@finalizeEvent_fields demoHost) with (pk := demoKey).
  - intros m. split; [apply length_replicate |].
    apply Forall_replicate. apply Z.mod_pos_bound. lia.
  - intros sk pk. simpl.
    destruct ((length sk =? 32)%nat && forallb isByte sk) eqn:E; [| done].
    intros [= <-]. apply andb_true_iff in E as [E1 E2].
    split; [by apply Nat.eqb_eq | by apply forallb_isByte].
  - intros sk pk m. simpl.
    destruct ((length sk =? 32)%nat && forallb isByte sk) eqn:E; [| done].
    intros [= <-] _. by exists sk.
  - reflexivity.
  - exact demoTemplate_shape.
Defined.

(** A follow with a petname and no relay, and a relay with neither
    flag. *)
Lemma parseContactList_of_create_witness :
  parseContactList
    {| ev_id := js "0a"; ev_pubkey := js "ab"; ev_created_at := 10;
       ev_kind := 3; ev_tags := [[js "p"; js "ab"; js "bob"]];
       ev_content := []; ev_sig := js "cd" |}
  = [{| follow_pubkey := js "ab"; follow_relay := js "bob";
        follow_petname := [] |}].
Proof.
  apply (parseContactList_of_create 10000
           [{| follow_pubkey := js "ab"; follow_relay := [];
               follow_petname := js "bob" |}]
           {| ev_id := js "0a"; ev_pubkey := js "ab"; ev_created_at := 10;
              ev_kind := 3; ev_tags := [[js "p"; js "ab"; js "bob"]];
              ev_content := []; ev_sig := js "cd" |});
    reflexivity.
Defined.

Lemma parseRelayList_of_create_witness :
  parseRelayList
    {| ev_id := js "0a"; ev_pubkey := js "ab"; ev_created_at := 10;
       ev_kind := 10002; ev_tags := [[js "r"; js "wss://a.example"]];
       ev_content := []; ev_sig := js "cd" |}
  = [{| entry_url := js "wss://a.example"; entry_read := true;
        entry_write := true |}].
Proof.
  apply (parseRelayList_of_create 10000
           [{| entry_url := js "wss://a.example"; entry_read := false;
               entry_write := false |}]
           {| ev_id := js "0a"; ev_pubkey := js "ab"; ev_created_at := 10;
              ev_kind := 10002; ev_tags := [[js "r"; js "wss://a.example"]];
              ev_content := []; ev_sig := js "cd" |});
    reflexivity.
Defined.

Section Fields.
Context `{Host}.

(** X15: [validateEvent], [serializeEvent] and [getEventHash] read the
    five hashed properties only: setting any other property ([id], [sig]
    or one the protocol does not know) to any value changes none of their
    results; [verifyEvent] reads [id] and [sig] besides. *)
Theorem other_properties_are_ignored (props : list (list Z * value))
    (k : list Z) (v : value) :
  k ∉ hashedKeys ->
  validateEvent (VObj (objSet props k v)) = validateEvent (VObj props) /\
  serializeEvent (VObj (objSet props k v)) = serializeEvent (VObj props) /\
  getEventHash (VObj (objSet props k v)) = getEventHash (VObj props) /\
  (k <> js "id" -> k <> js "sig" ->
   verifyEvent (VObj (objSet props k v)) = verifyEvent (VObj props)).
Proof.
  intros Hk. unfold hashedKeys in Hk.
  repeat (apply not_elem_of_cons in Hk as [? Hk]).
  assert (Hv : validateEvent (VObj (objSet props k v))
               = validateEvent (VObj props)).
  { unfold validateEvent. simpl. by rewrite !objGet_objSet_ne by done. }
  assert (Hs : serializeEvent (VObj (objSet props k v))
               = serializeEvent (VObj props)).
  { unfold serializeEvent. rewrite Hv. simpl.
    by rewrite !objGet_objSet_ne by done. }
  assert (Hh : getEventHash (VObj (objSet props k v))
               = getEventHash (VObj props)).
  { unfold getEventHash. by rewrite Hs. }
  split; [done |]. split; [done |]. split; [done |].
  intros Hid Hsig. unfold verifyEvent. rewrite Hh. simpl.
  by rewrite !objGet_objSet_ne by done.
Qed.

End Fields.

Lemma other_properties_witness :
  validateEvent (VObj (objSet demoTemplate (js "sig") VNull))
  = validateEvent (VObj demoTemplate) /\
  @getEventHash demoHost (VObj (objSet demoTemplate (js "sig") VNull))
  = @getEventHash demoHost (VObj demoTemplate).
Proof.
  destruct (@other_properties_are_ignored demoHost demoTemplate (js "sig") VNull)
    as (H1 & _ & H3 & _).
  - intros Hin. vm_compute in Hin.
    repeat (apply elem_of_cons in Hin as [Hin | Hin]; [discriminate Hin |]).
    by apply elem_of_nil in Hin.
  - split; [exact H1 | exact H3].
Defined.

End EventBuilders.

(** ** The order of a feed, again *)
Module FeedOrder.
Import Event EventFacts.

Lemma Array_sort_of_sorted {A} (cmp : A -> A -> Z) l :
  StronglySorted (fun a b => cmp a b <= 0) l -> Array_sort cmp l = l.
Proof.
  induction 1 as [| x l _ IH Hall]; simpl; [done |].
  rewrite IH. destruct l as [| y l]; simpl; [done |].
  apply Forall_inv in Hall.
  by assert ((cmp x y <=? 0) = true) as -> by lia.
Qed.

Lemma same_key a b :
  refCompare a b <= 0 /\ refCompare b a <= 0 <-> sortKey a = sortKey b.
Proof.
  rewrite !refCompare_le. unfold sortKey. split.
  - intros [H1 H2]. destruct (recencyLe_antisym a b H1 H2) as [-> ->]. done.
  - intros [= Ht Hi]. unfold recencyLe. rewrite Ht, Hi, lexCompare_refl.
    split; right; done.
Qed.

Lemma filter_one_key (l : list NostrEvent) (P : NostrEvent -> Prop)
    `{!forall x, Decision (P x)} k :
  NoDup (map sortKey l) -> (forall e, P e -> sortKey e = k) ->
  (length (filter P l) <= 1)%nat.
Proof.
  intros Hnd HP. induction l as [| e l IH]; [simpl; lia |].
  cbn [map] in Hnd. apply NoDup_cons in Hnd as [Hno Hnd].
  rewrite filter_cons. destruct (decide (P e)) as [He | He]; [| by apply IH].
  assert (filter P l = []) as ->; [| simpl; lia].
  destruct (filter P l) as [| x rest] eqn:E; [done |].
  assert (Hx : x ∈ filter P l) by (rewrite E; by left).
  apply list_elem_of_filter in Hx as [Hpx Hin].
  destruct Hno. rewrite (HP e He), <- (HP x Hpx).
  apply list_elem_of_fmap. by exists x.
Qed.

Section HostFeed.
Context `{Host}.
Hypothesis host_collates : collatesHex.

Lemma sort_twice l :
  Forall hexId l ->
  Array_sort compareEvents (Array_sort compareEvents l)
  = Array_sort compareEvents l.
Proof using host_collates.
  intros Hl.
  assert (Hs : Forall hexId (Array_sort compareEvents l)).
  { rewrite Forall_forall in *. intros e He. apply Hl.
    by rewrite Array_sort_perm in He. }
  rewrite (sort_compareEvents_ref host_collates _ Hs).
  rewrite (sort_compareEvents_ref host_collates _ Hl).
  apply Array_sort_of_sorted, Array_sort_sorted;
    [apply refCompare_total | apply refCompare_trans].
Qed.

(** X16: [sortEvents] is idempotent, and leaves a feed that is already in
    order as it is: sorting the array a second time changes nothing. *)
Theorem sortEvents_idempotent (events : nat) (h : gmap nat (list NostrEvent))
    (l : list NostrEvent) :
  h !! events = Some l ->
  Forall hexId l ->
  (sortEvents events (sortEvents events h).2).2 = (sortEvents events h).2 /\
  (StronglySorted recencyLe l -> (sortEvents events h).2 = h).
Proof using host_collates.
  intros Hl Hhex. unfold sortEvents. cbn [snd]. split.
  - apply map_eq. intros i. destruct (decide (i = events)) as [-> | Hne].
    + rewrite !lookup_alter_eq, Hl. cbn. by rewrite sort_twice.
    + by rewrite !lookup_alter_ne.
  - intros Hsorted. apply map_eq. intros i.
    destruct (decide (i = events)) as [-> | Hne]; [| by rewrite lookup_alter_ne].
    rewrite lookup_alter_eq, Hl. cbn. f_equal.
    rewrite (sort_compareEvents_ref host_collates _ Hhex).
    apply Array_sort_of_sorted.
    eapply StronglySorted_weaken; [| exact Hsorted].
    intros a b. apply refCompare_le.
Qed.

(** X17: for events with distinct pairs of [created_at] and [id], the
    sorted feed does not depend on the order in which the events
    arrived: two arrays holding the same events are sorted into the same
    array. *)
Theorem sortEvents_order_independent (events : nat)
    (h1 h2 : gmap nat (list NostrEvent)) (l1 l2 : list NostrEvent) :
  h1 !! events = Some l1 ->
  h2 !! events = Some l2 ->
  Forall hexId l1 ->
  l1 ≡ₚ l2 ->
  NoDup (map sortKey l1) ->
  (sortEvents events h1).2 !! events = (sortEvents events h2).2 !! events.
Proof using host_collates.
  intros H1 H2 Hhex Hperm Hnd. unfold sortEvents. cbn [snd].
  rewrite !lookup_alter_eq, H1, H2. cbn. f_equal.
  assert (Hhex2 : Forall hexId l2) by (by rewrite <- Hperm).
  rewrite (sort_compareEvents_ref host_collates _ Hhex).
  rewrite (sort_compareEvents_ref host_collates _ Hhex2).
  apply Array_sort_unique;
    [apply refCompare_total | apply refCompare_trans | |].
  - apply Array_sort_sorted; [apply refCompare_total | apply refCompare_trans].
  - intros a.
    rewrite Array_sort_stable.
    2:{ intros x y _ _ [Hx1 Hx2] [Hy1 Hy2].
        apply (refCompare_trans x a y); done. }
    set (P := fun b : NostrEvent => refCompare a b <= 0 /\ refCompare b a <= 0).
    assert (Hp : filter P l1 ≡ₚ filter P l2) by (by rewrite Hperm).
    assert (Hlen : (length (filter P l1) <= 1)%nat).
    { apply (filter_one_key l1 P (sortKey a)); [done |].
      intros e He. symmetry. by apply same_key. }
    destruct (filter _ l1) as [| x [| y rest]] eqn:E1.
    + by apply Permutation_nil_l in Hp.
    + by apply Permutation_singleton_l in Hp.
    + simpl in Hlen. lia.
Qed.

End HostFeed.

Lemma sortEvents_idempotent_witness :
  (@sortEvents demoHost 0%nat
     (@sortEvents demoHost 0%nat {[ 0%nat := demoFeed ]}).2).2
  = (@sortEvents demoHost 0%nat {[ 0%nat := demoFeed ]}).2.
Proof.
  apply (@sortEvents_idempotent demoHost demoHost_collates 0%nat
           {[ 0%nat := demoFeed ]} demoFeed).
  - apply lookup_singleton_eq.
  - exact demoFeed_hex.
Defined.

Lemma sortEvents_order_independent_witness :
  (@sortEvents demoHost 0%nat
     {[ 0%nat := [note "0b" 10 "first"; note "0a" 20 "second"] ]}).2 !! 0%nat
  = (@sortEvents demoHost 0%nat
       {[ 0%nat := [note "0a" 20 "second"; note "0b" 10 "first"] ]}).2 !! 0%nat.
Proof.
  apply (@sortEvents_order_independent demoHost demoHost_collates 0%nat
           {[ 0%nat := [note "0b" 10 "first"; note "0a" 20 "second"] ]}
           {[ 0%nat := [note "0a" 20 "second"; note "0b" 10 "first"] ]}
           [note "0b" 10 "first"; note "0a" 20 "second"]
           [note "0a" 20 "second"; note "0b" 10 "first"]).
  - apply lookup_singleton_eq.
  - apply lookup_singleton_eq.
  - repeat (apply List.Forall_cons; [by apply hex_literal |]). constructor.
  - apply Permutation_swap.
  - apply NoDup_cons. split; [| apply NoDup_singleton].
    intros Hin. apply list_elem_of_singleton in Hin. discriminate Hin.
Defined.

End FeedOrder.

(** ** Replies and threads *)
Module Nip10Facts.
Import Event Nip10.

Lemma event_tag_is_no_profile_tag tag :
  isEventTag tag = true -> isProfileTag tag = false.
Proof.
  unfold isEventTag, isProfileTag, itemIs. intros H.
  apply andb_true_iff in H as [H _]. apply bool_decide_eq_true in H.
  rewrite H. by rewrite bool_decide_eq_false_2.
Qed.

Lemma lookup_snoc_0 {A} (l : list A) x :
  (l ++ [x]) !! 0%nat = match l !! 0%nat with Some y => Some y | None => Some x end.
Proof. by destruct l. Qed.

Lemma lookup_snoc_1 {A} (l : list A) x :
  (l ++ [x]) !! 1%nat
  = match l !! 0%nat, l !! 1%nat with
    | None, _ => None
    | Some _, None => Some x
    | Some _, Some y => Some y
    end.
Proof. by destruct l as [| a [| b l]]. Qed.

Lemma markerIs_exclusive r (a b : string) :
  js a <> js b -> markerIs r a = true -> markerIs r b = false.
Proof.
  unfold markerIs. intros Hab Ha. apply bool_decide_eq_true in Ha.
  apply bool_decide_eq_false. congruence.
Qed.

Ltac other_marker H a b :=
  rewrite (markerIs_exclusive _ a b
             ltac:(let E := fresh in intros E; vm_compute in E; discriminate E) H).

Lemma threadStep_outcome tag tags :
  threadStep (loopOutcome tags) tag = loopOutcome (tag :: tags).
Proof.
  unfold threadStep, loopOutcome, eventRefs. cbn [List.filter].
  fold (isEventTag tag). fold (isProfileTag tag).
  destruct (isEventTag tag) eqn:Ee.
  - pose proof (event_tag_is_no_profile_tag tag Ee) as Ep.
    cbn [map List.filter].
    assert (Hpos : isPositional (eventRefOf tag)
                   = negb (markerIs (eventRefOf tag) "root")
                     && negb (markerIs (eventRefOf tag) "reply")
                     && negb (markerIs (eventRefOf tag) "mention")) by done.
    rewrite Hpos, Ep. clear Hpos.
    destruct (markerIs (eventRefOf tag) "root") eqn:Er.
    { other_marker Er ("root"%string) ("reply"%string). by cbn. }
    destruct (markerIs (eventRefOf tag) "reply") eqn:Ey.
    { by cbn. }
    destruct (markerIs (eventRefOf tag) "mention") eqn:Em.
    { by cbn [negb andb head partial root reply mentions profiles maybeRoot maybeReply rev]. }
    cbn [negb andb head partial root reply mentions profiles maybeRoot maybeReply rev].
    unfold profileStep. fold (isProfileTag tag). rewrite Ep.
    rewrite lookup_snoc_0, lookup_snoc_1.
    set (L := rev (List.filter isPositional
                     (map eventRefOf (List.filter isEventTag tags)))).
    clearbody L. by destruct L as [| a [| b L]]; cbn.
  - unfold profileStep. fold (isProfileTag tag).
    destruct (isProfileTag tag) eqn:Ep; [| done].
    by cbn [map rev partial root reply mentions profiles maybeRoot maybeReply].
Qed.

Lemma loop_outcome tags :
  fold_left threadStep (rev tags) initialState = loopOutcome tags.
Proof.
  induction tags as [| tag tags IH]; [done |].
  cbn [rev]. rewrite fold_left_app, IH. cbn [fold_left].
  apply threadStep_outcome.
Qed.

Lemma head_filter_Exists {A} (f : A -> bool) (l : list A) :
  is_Some (head (List.filter f l)) <-> Exists (fun x => f x = true) l.
Proof.
  induction l as [| x l IH]; simpl.
  - split; [by intros [? ?] | intros H; by apply Exists_nil in H].
  - rewrite Exists_cons. destruct (f x) eqn:E; simpl.
    + split; [by left | by eauto].
    + rewrite IH. split; [by right | by intros [? | ?]; [congruence |]].
Qed.

Lemma rev_lookup_0 {A} (l : list A) :
  is_Some (rev l !! 0%nat) <-> l <> [].
Proof.
  destruct l as [| x l]; simpl.
  - split; [by intros [? ?] | done].
  - rewrite lookup_snoc_0. split; [done |]. intros _. by destruct (rev l !! 0%nat).
Qed.

Lemma filter_nonempty_Exists {A} (f : A -> bool) (l : list A) :
  List.filter f l <> [] <-> Exists (fun x => f x = true) l.
Proof.
  induction l as [| x l IH]; simpl.
  - split; [done | intros H; by apply Exists_nil in H].
  - rewrite Exists_cons. destruct (f x) eqn:E.
    + split; [by left | done].
    + rewrite IH. split; [by right | by intros [? | ?]; [congruence |]].
Qed.

Lemma orElse_Some {A} (a b : option A) :
  is_Some (orElse a b) <-> is_Some a \/ is_Some b.
Proof.
  destruct a; simpl; [split; eauto |].
  split; [by right | by intros [[? ?] | ?]].
Qed.

(** The reply of a thread is set exactly when some reference is not a
    mention. *)
Lemma reply_set tags (event : NostrEvent) :
  ev_tags event = tags ->
  is_Some (reply (parseThread event))
  <-> Exists (fun r => markerIs r "mention" = false) (eventRefs tags).
Proof.
  intros <-. unfold parseThread. rewrite loop_outcome.
  cbn [loopOutcome partial root reply maybeRoot maybeReply].
  set (refs := eventRefs (ev_tags event)).
  set (L := List.filter isPositional refs).
  assert (Hroot : is_Some (head (List.filter (fun r => markerIs r "root") refs))
                  <-> Exists (fun r => markerIs r "root" = true) refs)
    by apply head_filter_Exists.
  assert (Hreply : is_Some (head (List.filter (fun r => markerIs r "reply") refs))
                   <-> Exists (fun r => markerIs r "reply" = true) refs)
    by apply head_filter_Exists.
  assert (Hpos : is_Some (rev L !! 0%nat)
                 <-> Exists (fun r => isPositional r = true) refs).
  { rewrite rev_lookup_0. apply filter_nonempty_Exists. }
  assert (H1 : is_Some (rev L !! 1%nat) -> is_Some (rev L !! 0%nat)).
  { destruct (rev L) as [| a [| b ?]]; simpl; eauto. }
  assert (Hsplit : Exists (fun r => markerIs r "mention" = false) refs
                   <-> Exists (fun r => markerIs r "root" = true) refs
                       \/ Exists (fun r => markerIs r "reply" = true) refs
                       \/ Exists (fun r => isPositional r = true) refs).
  { rewrite !Exists_exists. split.
    - intros (r & Hin & Hm).
      destruct (markerIs r "root") eqn:Er; [left; eauto |].
      destruct (markerIs r "reply") eqn:Ey; [right; left; eauto |].
      right; right. exists r. split; [done |].
      unfold isPositional. by rewrite Er, Ey, Hm.
    - intros [(r & Hin & Hm) | [(r & Hin & Hm) | (r & Hin & Hm)]];
        exists r; (split; [done |]).
      + by apply (markerIs_exclusive r "root" "mention");
          [intros E; vm_compute in E; discriminate E |].
      + by apply (markerIs_exclusive r "reply" "mention");
          [intros E; vm_compute in E; discriminate E |].
      + unfold isPositional in Hm.
        by destruct (markerIs r "mention"); [rewrite andb_false_r in Hm |]. }
  rewrite Hsplit, <- Hroot, <- Hreply, <- Hpos. clear Hsplit Hroot Hreply Hpos.
  destruct (head (List.filter (fun r => markerIs r "reply") refs)) as [y |];
    [split; eauto |].
  destruct (head (List.filter (fun r => markerIs r "root") refs)) as [x |].
  { rewrite orElse_Some. split; eauto. }
  rewrite !orElse_Some. split.
  - intros [? | [? | [? | ?]]]; eauto.
  - intros [? | [? | ?]]; eauto.
Qed.

(** X18: [isReply] answers true exactly for the events that have an [e]
    tag with a non-empty id whose marker is not 'mention': a tag marked
    'root' alone makes the event a reply, as does any unmarked tag. *)
Theorem isReply_iff (event : NostrEvent) :
  isReply event = true
  <-> exists tag, tag ∈ ev_tags event /\ itemIs tag 0 "e" = true /\
                  itemTruthy tag 1 = true /\ itemOrEmpty tag 3 <> js "mention".
Proof.
  unfold isReply. rewrite bool_decide_eq_true.
  rewrite not_eq_None_Some, (reply_set (ev_tags event)) by done.
  unfold eventRefs. rewrite Exists_exists. split.
  - intros (r & Hin & Hm).
    apply list_elem_of_In, in_map_iff in Hin as (tag & <- & Hin).
    apply filter_In in Hin as [Hin He]. apply andb_true_iff in He as [H0 H1].
    exists tag. split; [by apply list_elem_of_In |]. split; [done |].
    split; [done |]. by apply bool_decide_eq_false in Hm.
  - intros (tag & Hin & H0 & H1 & Hm). exists (eventRefOf tag). split.
    + apply list_elem_of_In, in_map_iff. exists tag. split; [done |].
      apply filter_In.
      split; [by apply list_elem_of_In |]. unfold isEventTag. by rewrite H0, H1.
    + by apply bool_decide_eq_false.
Qed.

(** The tags [createReplyTags] returns, with the root it chose. *)
Lemma createReplyTags_chosen (event : NostrEvent)
    (rootEventId : option (list Z)) (relay : list Z) :
  let chosen := match rootEventId with
                | Some r => if truthy r then r else ev_id event
                | None => ev_id event
                end in
  createReplyTags event rootEventId relay
  = [[js "p"; ev_pubkey event; relay];
     [js "e"; chosen; relay; js "root"];
     [js "e"; ev_id event; relay; js "reply"]] /\
  (truthy (ev_id event) = true -> truthy chosen = true).
Proof.
  unfold createReplyTags.
  destruct rootEventId as [r |]; [destruct (truthy r) eqn:Er |]; by cbn.
Qed.

(** X19: an event carrying the tags [createReplyTags(event, rootEventId,
    relay)] made for an event with a non-empty id is read back as a
    reply to that event: [getReplyToEventId] returns its id,
    [getRootEventId] the root id that was given, or the id of the event
    itself when none was given, nothing is a mention, and the author is
    the only pubkey mentioned. *)
Theorem reply_tags_read_back (event answer : NostrEvent)
    (rootEventId : option (list Z)) (relay : list Z) :
  truthy (ev_id event) = true ->
  ev_tags answer = createReplyTags event rootEventId relay ->
  getReplyToEventId answer = Some (ev_id event) /\
  getRootEventId answer
  = Some (match rootEventId with
          | Some r => if truthy r then r else ev_id event
          | None => ev_id event
          end) /\
  isReply answer = true /\
  mentions (parseThread answer) = [] /\
  getMentionedPubkeys answer
  = (if truthy (ev_pubkey event) then [ev_pubkey event] else []) /\
  profiles (parseThread answer)
  = (if truthy (ev_pubkey event)
     then [{| profile_pubkey := ev_pubkey event; profile_relay := relay |}]
     else []).
Proof.
  intros Hid Htags.
  destruct (createReplyTags_chosen event rootEventId relay) as [Hc Ht].
  specialize (Ht Hid). cbv zeta in Hc.
  set (chosen := match rootEventId with
                 | Some r => if truthy r then r else ev_id event
                 | None => ev_id event
                 end) in *.
  rewrite Hc in Htags. clear Hc.
  assert (Hroot : isEventTag [js "e"; chosen; relay; js "root"] = true).
  { unfold isEventTag, itemIs, itemTruthy. simpl. by rewrite Ht. }
  assert (Hreply : isEventTag [js "e"; ev_id event; relay; js "reply"] = true).
  { unfold isEventTag, itemIs, itemTruthy. simpl. by rewrite Hid. }
  assert (Hp : isEventTag [js "p"; ev_pubkey event; relay] = false) by done.
  assert (Hpp : isProfileTag [js "p"; ev_pubkey event; relay]
                = truthy (ev_pubkey event)) by done.
  assert (Hpe : forall (r m : list Z), isProfileTag [js "e"; r; relay; m] = false)
    by done.
  assert (Hrefs : eventRefs (ev_tags answer)
                  = [{| ref_id := chosen; ref_relay := relay;
                        ref_marker := js "root" |};
                     {| ref_id := ev_id event; ref_relay := relay;
                        ref_marker := js "reply" |}]).
  { unfold eventRefs. rewrite Htags. cbn [List.filter].
    by rewrite Hp, Hroot, Hreply. }
  assert (Hprofiles : List.filter isProfileTag (ev_tags answer)
                      = if truthy (ev_pubkey event)
                        then [[js "p"; ev_pubkey event; relay]] else []).
  { rewrite Htags. cbn [List.filter]. by rewrite Hpp, !Hpe. }
  unfold isReply, getReplyToEventId, getRootEventId, getMentionedPubkeys,
    parseThread.
  rewrite loop_outcome. unfold loopOutcome. fold isProfileTag.
  rewrite Hrefs, Hprofiles. clear Hrefs Hprofiles.
  destruct (truthy (ev_pubkey event)); by cbn.
Qed.

Lemma reply_tags_read_back_witness :
  getReplyToEventId
    {| ev_id := js "0c"; ev_pubkey := js "ab"; ev_created_at := 30;
       ev_kind := 1;
       ev_tags := createReplyTags (note "0b" 20 "question") (Some (js "0a")) [];
       ev_content := js "answer"; ev_sig := js "cd" |}
  = Some (js "0b") /\
  getRootEventId
    {| ev_id := js "0c"; ev_pubkey := js "ab"; ev_created_at := 30;
       ev_kind := 1;
       ev_tags := createReplyTags (note "0b" 20 "question") (Some (js "0a")) [];
       ev_content := js "answer"; ev_sig := js "cd" |}
  = Some (js "0a").
Proof.
  destruct (reply_tags_read_back (note "0b" 20 "question")
              {| ev_id := js "0c"; ev_pubkey := js "ab"; ev_created_at := 30;
                 ev_kind := 1;
                 ev_tags := createReplyTags (note "0b" 20 "question")
                              (Some (js "0a")) [];
                 ev_content := js "answer"; ev_sig := js "cd" |}
              (Some (js "0a")) []) as (H1 & H2 & _); [reflexivity .. |].
  split; [exact H1 | exact H2].
Defined.

Lemma plain_refs ids :
  Forall (fun id => truthy id = true) ids ->
  eventRefs (map plainTag ids) = map plainRef ids /\
  List.filter isProfileTag (map plainTag ids) = [] /\
  List.filter isPositional (map plainRef ids) = map plainRef ids /\
  List.filter (fun r => markerIs r "root") (map plainRef ids) = [] /\
  List.filter (fun r => markerIs r "reply") (map plainRef ids) = [] /\
  List.filter (fun r => negb (markerIs r "root") && negb (markerIs r "reply"))
              (map plainRef ids) = map plainRef ids.
Proof.
  unfold eventRefs.
  induction 1 as [| id ids Hid _ (IH1 & IH2 & IH3 & IH4 & IH5 & IH6)];
    [done |].
  cbn [map List.filter].
  assert (isEventTag (plainTag id) = true) as ->.
  { unfold isEventTag, plainTag, itemIs, itemTruthy. simpl. by rewrite Hid. }
  assert (isProfileTag (plainTag id) = false) as -> by done.
  assert (isPositional (plainRef id) = true) as -> by done.
  assert (markerIs (plainRef id) "root" = false) as -> by done.
  assert (markerIs (plainRef id) "reply" = false) as -> by done.
  cbn [map negb andb]. by rewrite IH1, IH2, IH3, IH4, IH5, IH6.
Qed.

(** X20: when the [e] tags of an event carry no marker (the positional
    scheme), the reply is the last one and the root is the one before
    the last, also when there are more than two; a single tag is both
    the root and the reply, and every one is listed as a mention, last
    first. *)
Theorem positional_tags (event : NostrEvent) (ids : list (list Z)) :
  Forall (fun id => truthy id = true) ids ->
  ev_tags event = map plainTag ids ->
  getReplyToEventId event = head (rev ids) /\
  getRootEventId event = match rev ids with
                         | [] => None
                         | [only] => Some only
                         | _ :: before :: _ => Some before
                         end /\
  map ref_id (mentions (parseThread event)) = rev ids.
Proof.
  intros Hids Htags.
  destruct (plain_refs ids Hids) as (H1 & H2 & H3 & H4 & H5 & H6).
  unfold getReplyToEventId, getRootEventId, parseThread.
  rewrite loop_outcome. unfold loopOutcome. fold isProfileTag.
  rewrite Htags, H1, H2, H3, H4, H5, H6.
  cbn [partial root reply mentions profiles maybeRoot maybeReply head].
  rewrite <- map_rev.
  assert (Hm : map ref_id (map plainRef (rev ids)) = rev ids).
  { rewrite map_map. apply map_id. }
  split; [| split; [| done]];
    clear Hm; by destruct (rev ids) as [| a [| b l]].
Qed.

Lemma positional_tags_witness :
  getReplyToEventId
    {| ev_id := js "0d"; ev_pubkey := js "ab"; ev_created_at := 30;
       ev_kind := 1; ev_tags := map plainTag [js "0a"; js "0b"; js "0c"];
       ev_content := []; ev_sig := js "cd" |}
  = Some (js "0c") /\
  getRootEventId
    {| ev_id := js "0d"; ev_pubkey := js "ab"; ev_created_at := 30;
       ev_kind := 1; ev_tags := map plainTag [js "0a"; js "0b"; js "0c"];
       ev_content := []; ev_sig := js "cd" |}
  = Some (js "0b").
Proof.
  destruct (positional_tags
              {| ev_id := js "0d"; ev_pubkey := js "ab"; ev_created_at := 30;
                 ev_kind := 1;
                 ev_tags := map plainTag [js "0a"; js "0b"; js "0c"];
                 ev_content := []; ev_sig := js "cd" |}
              [js "0a"; js "0b"; js "0c"]) as (H1 & H2 & _).
  - by repeat constructor.
  - reflexivity.
  - split; [exact H1 | exact H2].
Defined.

(** X21: explicit markers take precedence over position, and of several
    tags with the same marker the first one of the tag list counts: when
    a tag is marked 'root', [getRootEventId] returns the id of the first
    such tag, and when a tag is marked 'reply', [getReplyToEventId]
    returns the id of the first such tag. *)
Theorem first_marked_tag_counts (event : NostrEvent) (name : string)
    (before after : list (list (list Z))) (tag : list (list Z)) :
  ev_tags event = before ++ tag :: after ->
  isEventTag tag = true ->
  itemOrEmpty tag 3 = js name ->
  Forall (fun t => isEventTag t = true -> itemOrEmpty t 3 <> js name) before ->
  (name = "root"%string -> getRootEventId event = Some (itemOrEmpty tag 1)) /\
  (name = "reply"%string -> getReplyToEventId event = Some (itemOrEmpty tag 1)).
Proof.
  intros Htags He Hm Hbefore.
  assert (Hhead : head (List.filter (fun r => markerIs r name)
                                    (eventRefs (ev_tags event)))
                  = Some (eventRefOf tag)).
  { rewrite Htags. unfold eventRefs. clear Htags.
    induction Hbefore as [| t before Ht _ IH]; cbn [app List.filter map].
    - rewrite He. cbn [map List.filter]. unfold markerIs at 1.
      cbn [eventRefOf ref_marker]. by rewrite bool_decide_eq_true_2.
    - destruct (isEventTag t) eqn:Et; [| done].
      cbn [map List.filter]. unfold markerIs at 1.
      cbn [eventRefOf ref_marker].
      by rewrite bool_decide_eq_false_2 by (by apply Ht). }
  unfold getRootEventId, getReplyToEventId, parseThread.
  rewrite loop_outcome. unfold loopOutcome.
  cbn [partial root reply maybeRoot maybeReply].
  split; intros ->; rewrite Hhead; [done |].
  by destruct (head _).
Qed.

Lemma first_marked_tag_counts_witness :
  getReplyToEventId
    {| ev_id := js "0d"; ev_pubkey := js "ab"; ev_created_at := 30;
       ev_kind := 1;
       ev_tags := [[js "e"; js "0a"]; [js "e"; js "0b"; []; js "reply"];
                   [js "e"; js "0c"; []; js "reply"]];
       ev_content := []; ev_sig := js "cd" |}
  = Some (js "0b").
Proof.
  apply (first_marked_tag_counts
           {| ev_id := js "0d"; ev_pubkey := js "ab"; ev_created_at := 30;
              ev_kind := 1;
              ev_tags := [[js "e"; js "0a"]; [js "e"; js "0b"; []; js "reply"];
                          [js "e"; js "0c"; []; js "reply"]];
              ev_content := []; ev_sig := js "cd" |}
           "reply" [[js "e"; js "0a"]] [[js "e"; js "0c"; []; js "reply"]]
           [js "e"; js "0b"; []; js "reply"]); try reflexivity.
  constructor; [| constructor]. intros _ E. vm_compute in E. discriminate E.
Defined.

(** *** The thread tree *)

Lemma eventRefs_truthy tags r :
  r ∈ eventRefs tags -> truthy (ref_id r) = true.
Proof.
  unfold eventRefs. intros Hin.
  apply list_elem_of_In, in_map_iff in Hin as (tag & <- & Hin).
  apply filter_In in Hin as [_ He]. apply andb_true_iff in He as [_ H1].
  unfold itemTruthy in H1. unfold eventRefOf, itemOrEmpty. simpl.
  by destruct (tag !! 1%nat).
Qed.

Lemma head_filter_elem {A} (f : A -> bool) (l : list A) x :
  head (List.filter f l) = Some x -> x ∈ l.
Proof.
  intros H. apply head_Some in H as (rest & H).
  assert (Hin : In x (List.filter f l)) by (rewrite H; by left).
  apply filter_In in Hin as [Hin _]. by apply list_elem_of_In.
Qed.

Lemma rev_filter_elem {A} (f : A -> bool) (l : list A) i x :
  rev (List.filter f l) !! i = Some x -> x ∈ l.
Proof.
  intros H. apply list_elem_of_lookup_2, list_elem_of_In in H.
  apply in_rev, filter_In in H as [Hin _]. by apply list_elem_of_In.
Qed.

Lemma reply_is_a_reference (event : NostrEvent) r :
  reply (parseThread event) = Some r -> r ∈ eventRefs (ev_tags event).
Proof.
  unfold parseThread. rewrite loop_outcome.
  cbn [loopOutcome partial root reply maybeRoot maybeReply].
  set (refs := eventRefs (ev_tags event)).
  destruct (head (List.filter (fun r => markerIs r "reply") refs)) as [y |] eqn:Ey.
  { intros [= <-]. by eapply head_filter_elem. }
  destruct (rev (List.filter isPositional refs) !! 0%nat) as [a |] eqn:E0;
    cbn [orElse].
  { intros [= <-]. by eapply rev_filter_elem. }
  destruct (head (List.filter (fun r => markerIs r "root") refs)) as [x |] eqn:Ex.
  { intros [= <-]. by eapply head_filter_elem. }
  destruct (rev (List.filter isPositional refs) !! 1%nat) as [b |] eqn:E1;
    cbn [orElse]; [| done].
  intros [= <-]. by eapply rev_filter_elem.
Qed.

Lemma getReplyToEventId_truthy (event : NostrEvent) p :
  getReplyToEventId event = Some p -> truthy p = true.
Proof.
  unfold getReplyToEventId.
  destruct (reply (parseThread event)) as [r |] eqn:E; [| done].
  intros [= <-]. eapply eventRefs_truthy. by apply reply_is_a_reference.
Qed.

Lemma firstPass_keys (events : list NostrEvent) :
  forall (m : gmap (list Z) NostrEvent) id,
  is_Some (fold_left (fun m event => <[ev_id event := event]> m) events m !! id)
  <-> id ∈ map ev_id events \/ is_Some (m !! id).
Proof.
  induction events as [| e events IH]; intros m id; cbn [fold_left map].
  - rewrite elem_of_nil. tauto.
  - rewrite IH, elem_of_cons.
    destruct (decide (id = ev_id e)) as [-> | Hne].
    + rewrite lookup_insert_eq. split; [intros _; by left; left |].
      intros _. right. eauto.
    + rewrite lookup_insert_ne by done. tauto.
Qed.

Lemma treeStep_parent (events : list NostrEvent) (tree : Tree) event :
  (forall id, is_Some (node_event tree !! id) <-> id ∈ map ev_id events) ->
  treeStep tree event
  = match parentIn events event with
    | Some p => {| roots := roots tree; node_event := node_event tree;
                   children := <[p := default [] (children tree !! p)
                                      ++ [ev_id event]]> (children tree) |}
    | None => {| roots := roots tree ++ [ev_id event];
                 node_event := node_event tree; children := children tree |}
    end.
Proof.
  intros Hkeys. unfold treeStep, parentIn.
  destruct (getReplyToEventId event) as [p |] eqn:Ep; [| done].
  rewrite (getReplyToEventId_truthy _ _ Ep). cbn [negb orb].
  destruct (decide (p ∈ map ev_id events)) as [Hin | Hno].
  - rewrite (bool_decide_eq_true_2 (p ∈ map ev_id events)) by done.
    by rewrite bool_decide_eq_true_2 by (by apply Hkeys).
  - rewrite (bool_decide_eq_false_2 (p ∈ map ev_id events)) by done.
    rewrite bool_decide_eq_false_2; [done |]. intros H. by apply Hkeys in H.
Qed.

Lemma secondPass (events : list NostrEvent) (l : list NostrEvent) :
  forall tree,
  (forall id, is_Some (node_event tree !! id) <-> id ∈ map ev_id events) ->
  let tree' := fold_left treeStep l tree in
  node_event tree' = node_event tree /\
  roots tree'
  = roots tree
    ++ map ev_id (List.filter (fun e => bool_decide (parentIn events e = None)) l) /\
  forall p,
    default [] (children tree' !! p)
    = default [] (children tree !! p)
      ++ map ev_id
           (List.filter (fun e => bool_decide (parentIn events e = Some p)) l).
Proof.
  induction l as [| e l IH]; intros tree Hkeys; cbn [fold_left List.filter map].
  - rewrite app_nil_r. split; [done |]. split; [done |].
    intros p. by rewrite app_nil_r.
  - rewrite (treeStep_parent events tree e Hkeys).
    destruct (parentIn events e) as [q |] eqn:Eq.
    + destruct (IH {| roots := roots tree; node_event := node_event tree;
                      children := <[q := default [] (children tree !! q)
                                         ++ [ev_id e]]> (children tree) |})
        as (H1 & H2 & H3); [done |].
      split; [done |]. split; [done |].
      intros p. rewrite H3. cbn [children].
      destruct (decide (q = p)) as [-> | Hne].
      * rewrite lookup_insert_eq, bool_decide_eq_true_2 by done.
        cbn [default map]. unfold id. by rewrite <- app_assoc.
      * rewrite lookup_insert_ne by done.
        by rewrite bool_decide_eq_false_2 by congruence.
    + destruct (IH {| roots := roots tree ++ [ev_id e];
                      node_event := node_event tree;
                      children := children tree |})
        as (H1 & H2 & H3); [done |].
      split; [done |]. split.
      * rewrite H2. cbn [roots map]. by rewrite <- app_assoc.
      * intros p. by rewrite H3.
Qed.

(** X22: in the tree [buildThreadTree] returns, the roots are, in the
    order of the list, the events that reply to nothing or to an event
    that is not in the list, and the children of the node of an id are,
    in order, the events that reply to that id; the map has a node for
    exactly the ids of the list. An event that replies to itself, or two
    events that reply to each other, are therefore no roots. *)
Theorem buildThreadTree_shape (events : list NostrEvent) :
  roots (buildThreadTree events)
  = map ev_id
        (List.filter (fun e => bool_decide (parentIn events e = None)) events) /\
  (forall p,
      default [] (children (buildThreadTree events) !! p)
      = map ev_id
            (List.filter (fun e => bool_decide (parentIn events e = Some p))
                         events)) /\
  (forall id, is_Some (node_event (buildThreadTree events) !! id)
              <-> id ∈ map ev_id events).
Proof.
  assert (Hkeys : forall id, is_Some (firstPass events !! id)
                             <-> id ∈ map ev_id events).
  { intros id. unfold firstPass. rewrite firstPass_keys, lookup_empty.
    split; [by intros [? | [? ?]] | by left]. }
  destruct (secondPass events events
              {| roots := []; node_event := firstPass events; children := ∅ |}
              Hkeys) as (H1 & H2 & H3).
  unfold buildThreadTree. split; [done |]. split.
  - intros p. rewrite H3. cbn [children]. by rewrite lookup_empty.
  - intros id. by rewrite H1.
Qed.

End Nip10Facts.

(** ** Relay lists *)
Module Nip65Facts.
Import Event Nip65.

Lemma relays_of_tags (tags : list (list (list Z))) :
  let relays :=
    map (fun tag =>
           {| entry_url := itemOrEmpty tag 1;
              entry_read := negb (itemTruthy tag 2) || itemIs tag 2 "read";
              entry_write := negb (itemTruthy tag 2) || itemIs tag 2 "write" |})
        (List.filter (fun tag => itemIs tag 0 "r" && itemTruthy tag 1) tags) in
  getReadRelays relays
  = map (fun tag => itemOrEmpty tag 1)
        (List.filter (fun tag => isRelayTag tag && markedFor "read" tag) tags) /\
  getWriteRelays relays
  = map (fun tag => itemOrEmpty tag 1)
        (List.filter (fun tag => isRelayTag tag && markedFor "write" tag) tags).
Proof.
  unfold getReadRelays, getWriteRelays.
  induction tags as [| tag tags [IHr IHw]]; [done |].
  cbn [List.filter]. fold (isRelayTag tag).
  destruct (isRelayTag tag); [| done].
  cbn [map List.filter entry_read entry_write entry_url andb].
  fold (markedFor "read" tag). fold (markedFor "write" tag).
  split.
  - destruct (markedFor "read" tag); cbn [map]; by rewrite IHr.
  - destruct (markedFor "write" tag); cbn [map]; by rewrite IHw.
Qed.

(** X23: of a relay list event (kind 10002), [getReadRelays] returns the
    urls of the [r] tags whose marker is missing, empty or 'read', and
    [getWriteRelays] those whose marker is missing, empty or 'write', in
    the order of the tags: a relay without marker is in both lists, and a
    relay with any other marker is in neither. An event of another kind
    gives two empty lists. *)
Theorem read_and_write_relays (event : NostrEvent) :
  (ev_kind event = 10002 ->
   getReadRelays (parseRelayListEvent event)
   = map (fun tag => itemOrEmpty tag 1)
         (List.filter (fun tag => isRelayTag tag && markedFor "read" tag)
                      (ev_tags event)) /\
   getWriteRelays (parseRelayListEvent event)
   = map (fun tag => itemOrEmpty tag 1)
         (List.filter (fun tag => isRelayTag tag && markedFor "write" tag)
                      (ev_tags event))) /\
  (ev_kind event <> 10002 ->
   getReadRelays (parseRelayListEvent event) = [] /\
   getWriteRelays (parseRelayListEvent event) = []).
Proof.
  unfold parseRelayListEvent. split.
  - intros ->. cbn [Z.eqb Pos.eqb negb]. apply relays_of_tags.
  - intros Hk. assert ((ev_kind event =? 10002) = false) as -> by lia. done.
Qed.

End Nip65Facts.

(** ** Messages, closing and the pool *)
Module RelayMessages.
Import RelayJs.

Section Dispatch.
Context {callback filter : Type}.
Abbreviation Relay := (@Relay callback filter).
Abbreviation RelayPool := (@RelayPool callback filter).

Lemma handleMessage_event subId event (r : Relay) :
  handleMessage (eventMessage subId event) r
  = Ok (match eventCallbacks r !! subId with
        | Some f => [OnEvent f event]
        | None => []
        end).
Proof.
  unfold handleMessage, eventMessage. simpl.
  by destruct (eventCallbacks r !! subId).
Qed.

Lemma handleMessage_eose subId (r : Relay) :
  handleMessage (eoseMessage subId) r
  = Ok (match eoseCallbacks r !! subId with
        | Some f => [OnEose f]
        | None => []
        end).
Proof.
  unfold handleMessage, eoseMessage. simpl.
  by destruct (eoseCallbacks r !! subId).
Qed.

Lemma subscribe_registries draw filters onEvent onEose (r : Relay) :
  socketWhenConnected r ->
  exists r',
    subscribe draw filters onEvent onEose r = Ok (r', generateSubId draw) /\
    socketWhenConnected r' /\
    eventCallbacks r' = <[generateSubId draw := onEvent]> (eventCallbacks r) /\
    eoseCallbacks r' = match onEose with
                       | Some g => <[generateSubId draw := g]> (eoseCallbacks r)
                       | None => eoseCallbacks r
                       end.
Proof.
  intros Hws. unfold subscribe, socketWhenConnected, wsSend in *.
  destruct r as [u [w |] subs st evs eos th]; simpl in *;
    destruct st; simpl;
    try (destruct (Hws eq_refl) as [? ?]; discriminate);
    (eexists; repeat split; simpl; (done || by eauto)).
Qed.

(** X24: after [subscribe], an EVENT message with the id it returned
    invokes the event callback of that call once, with the event of the
    message; the EOSE message invokes its end callback when one was
    given; messages for every other id are handled as before. *)
Theorem subscribe_then_dispatch draw filters (onEvent : callback)
    (onEose : option callback) (r : Relay) :
  socketWhenConnected r ->
  exists r',
    subscribe draw filters onEvent onEose r = Ok (r', generateSubId draw) /\
    (forall event,
        handleMessage (eventMessage (generateSubId draw) event) r'
        = Ok [OnEvent onEvent event]) /\
    (forall g, onEose = Some g ->
               handleMessage (eoseMessage (generateSubId draw)) r'
               = Ok [OnEose g]) /\
    (forall other event,
        other <> generateSubId draw ->
        handleMessage (eventMessage other event) r'
        = handleMessage (eventMessage other event) r /\
        handleMessage (eoseMessage other) r'
        = handleMessage (eoseMessage other) r).
Proof.
  intros Hws.
  destruct (subscribe_registries draw filters onEvent onEose r Hws)
    as (r' & Hs & _ & Hev & Heo).
  exists r'. split; [done |]. split; [| split].
  - intros event. by rewrite handleMessage_event, Hev, lookup_insert_eq.
  - intros g ->. by rewrite handleMessage_eose, Heo, lookup_insert_eq.
  - intros other event Hne.
    rewrite !handleMessage_event, !handleMessage_eose, Hev, Heo.
    rewrite lookup_insert_ne by done. split; [done |].
    destruct onEose; [by rewrite lookup_insert_ne | done].
Qed.

(** X25: after [unsubscribe(id)], EVENT and EOSE messages for the id
    invoke nothing, and messages for every other id are handled as
    before. *)
Theorem unsubscribe_then_dropped (subId : list Z) (r : Relay) :
  socketWhenConnected r ->
  exists r',
    unsubscribe subId r = Ok r' /\
    (forall event, handleMessage (eventMessage subId event) r' = Ok []) /\
    handleMessage (eoseMessage subId) r' = Ok [] /\
    (forall other event,
        other <> subId ->
        handleMessage (eventMessage other event) r'
        = handleMessage (eventMessage other event) r /\
        handleMessage (eoseMessage other) r'
        = handleMessage (eoseMessage other) r).
Proof.
  intros Hws.
  assert (exists r', unsubscribe subId r = Ok r' /\
            eventCallbacks r' = delete subId (eventCallbacks r) /\
            eoseCallbacks r' = delete subId (eoseCallbacks r))
    as (r' & Hu & Hev & Heo).
  { unfold unsubscribe, socketWhenConnected, wsSend in *.
    destruct r as [u [w |] subs st evs eos th]; simpl in *;
      destruct st; simpl;
      try (destruct (Hws eq_refl) as [? ?]; discriminate);
      (eexists; repeat split). }
  exists r'. split; [done |]. split; [| split].
  - intros event. by rewrite handleMessage_event, Hev, lookup_delete_eq.
  - by rewrite handleMessage_eose, Heo, lookup_delete_eq.
  - intros other event Hne.
    rewrite !handleMessage_event, !handleMessage_eose, Hev, Heo.
    by rewrite !lookup_delete_ne by done.
Qed.

Lemma handleMessage_no_callbacks data (r : Relay) :
  eventCallbacks r = ∅ -> eoseCallbacks r = ∅ ->
  handleMessage data r = Ok [] \/ exists e, handleMessage data r = Throw e.
Proof.
  intros Hev Heo. unfold handleMessage.
  destruct (destructure data) as [[type rest] | e]; simpl; [| by eauto].
  left. destruct type; try done.
  rewrite Hev, Heo. unfold mapGet.
  repeat case_match; try done; by rewrite lookup_empty in *.
Qed.

(** X26: after [close()] the socket reference is [null], the status is
    [disconnected] and the three registries are empty, whatever the
    connection held; no message invokes a callback; closing again
    changes nothing; an [unsubscribe] sends nothing and changes nothing;
    a [subscribe] opens a new socket on which only its own REQ frame
    waits, none of the frames that waited before the close. *)
Theorem close_drops_everything (r : Relay) :
  ws (close r) = None /\
  relay_status (close r) = disconnected /\
  url (close r) = url r /\
  subscriptions (close r) = ∅ /\
  eventCallbacks (close r) = ∅ /\
  eoseCallbacks (close r) = ∅ /\
  thens (close r) = [] /\
  (forall parsed, onMessage parsed (close r) = []) /\
  close (close r) = close r /\
  (forall subId, unsubscribe subId (close r) = Ok (close r)) /\
  (forall draw filters onEvent onEose,
      exists r',
        subscribe draw filters onEvent onEose (close r)
        = Ok (r', generateSubId draw) /\
        ws r' = Some {| ws_url := url r; ws_sent := [] |} /\
        relay_status r' = connecting /\
        thens r' = [REQ (generateSubId draw) filters]).
Proof.
  do 7 (split; [done |]).
  split.
  { intros [data | e]; simpl; [| done].
    destruct (handleMessage_no_callbacks data (close r) eq_refl eq_refl)
      as [-> | [e ->]]; done. }
  split; [done |].
  split.
  { intros subId. unfold unsubscribe, close. simpl.
    by rewrite !delete_empty. }
  intros draw filters onEvent onEose.
  unfold subscribe, close, sendWhenConnected, connectStart. simpl.
  eexists. by repeat split.
Qed.

Lemma subscribeAll_queued
    (calls : list (list Z * list filter * callback * option callback)) :
  forall r : Relay,
  relay_status r <> connected ->
  exists r' ids,
    subscribeAll calls r = Ok (r', ids) /\
    relay_status r' = match calls with
                      | [] => relay_status r
                      | _ => connecting
                      end /\
    thens r' = match calls, relay_status r with
               | [], _ | _, connecting => thens r
               | _, _ => []
               end ++ map reqOf calls /\
    sentFrames r' = match calls, relay_status r with
                    | [], _ | _, connecting => sentFrames r
                    | _, _ => []
                    end /\
    (is_Some (ws r) \/ (calls <> [] /\ relay_status r <> connecting) ->
     is_Some (ws r')).
Proof.
  induction calls as [| [[[draw filters] onEvent] onEose] calls IH];
    intros r Hst; simpl.
  - exists r, []. rewrite app_nil_r. repeat split; try done.
    by intros [? | [? _]].
  - assert (exists r1,
        subscribe draw filters onEvent onEose r = Ok (r1, generateSubId draw) /\
        relay_status r1 = connecting /\
        thens r1 = match relay_status r with
                   | connecting => thens r
                   | _ => []
                   end ++ [REQ (generateSubId draw) filters] /\
        sentFrames r1 = match relay_status r with
                        | connecting => sentFrames r
                        | _ => []
                        end /\
        (relay_status r = connecting -> ws r1 = ws r) /\
        (relay_status r <> connecting -> is_Some (ws r1)))
      as (r1 & -> & Hst1 & Hth1 & Hsent1 & Hws1 & Hws1').
    { unfold subscribe, sendWhenConnected, connectStart, sentFrames.
      destruct r as [u w subs st evs eos th]; simpl in *.
      destruct st; simpl; try done;
        (eexists; repeat split; simpl; try done; by eauto). }
    simpl.
    destruct (IH r1) as (r' & ids & -> & Hst' & Hth' & Hsent' & Hws');
      [by rewrite Hst1 |].
    simpl. exists r', (generateSubId draw :: ids).
    split; [done |].
    split; [rewrite Hst', Hst1; by destruct calls |].
    split.
    { rewrite Hth', Hst1, Hth1.
      destruct calls; destruct (relay_status r); simpl;
        by rewrite <- ?app_assoc. }
    split.
    + rewrite Hsent', Hst1, Hsent1.
      destruct calls; by destruct (relay_status r).
    + intros Hw. apply Hws'. left.
      destruct (relay_status r) eqn:E; try (apply Hws1'; congruence).
      rewrite Hws1 by done. by destruct Hw as [? | [_ ?]].
Qed.

(** X27: [subscribe] calls made on a new connection send nothing before
    the socket opens; when it opens, their REQ frames are sent once each,
    in the order of the calls, and the connection is [connected]. *)
Theorem subscribe_before_open (u : list Z)
    (calls : list (list Z * list filter * callback * option callback)) :
  exists (r' : Relay) ids,
    subscribeAll calls (newRelay u) = Ok (r', ids) /\
    sentFrames r' = [] /\
    (connect Opens r').2 = Fulfilled tt /\
    relay_status (connect Opens r').1 = connected /\
    sentFrames (connect Opens r').1 = map reqOf calls /\
    thens (connect Opens r').1 = [].
Proof.
  destruct (subscribeAll_queued calls (newRelay u))
    as (r' & ids & Hs & Hst & Hth & Hsent & Hws); [done |].
  exists r', ids. split; [done |].
  split; [rewrite Hsent; by destruct calls |].
  simpl in Hth. unfold connect, connectStart, onOpen, sentFrames.
  destruct calls as [| c calls].
  - simpl in Hs. injection Hs as <- <-. by simpl.
  - rewrite Hst. destruct Hws as [w Hw]; [right; done |].
    rewrite Hw. simpl. rewrite Hth.
    assert (ws_sent w = []) as ->; [| done].
    unfold sentFrames in Hsent. rewrite Hw in Hsent. by simpl in Hsent.
Qed.

(** A failed attempt drops the sends that waited for it: after a
    [subscribe] on a new connection and an attempt that fails, a
    [publish] whose attempt opens sends the event alone, on a new
    socket. *)
Lemma failed_attempt_drops_queued_sends (u : list Z) (draw : list Z)
    (filters : list filter) (onEvent : callback) (onEose : option callback)
    (event err : value) :
  exists r1 : Relay,
    subscribe draw filters onEvent onEose (newRelay u)
    = Ok (r1, generateSubId draw) /\
    thens r1 = [REQ (generateSubId draw) filters] /\
    (connect (Fails err) r1).2 = Rejected err /\
    relay_status (connect (Fails err) r1).1 = error /\
    thens (connect (Fails err) r1).1 = [] /\
    (publish event Opens (connect (Fails err) r1).1).2 = Fulfilled VUndefined /\
    sentFrames (publish event Opens (connect (Fails err) r1).1).1
    = [EVENT event].
Proof. eexists. by repeat split. Qed.

Lemma poolGet_None (pool : RelayPool) u : poolGet pool u = None <-> u ∉ pool.*1.
Proof.
  unfold poolGet. induction pool as [| [k r] pool IH]; simpl.
  - split; [intros _; apply not_elem_of_nil | done].
  - rewrite not_elem_of_cons. destruct (bool_decide (k = u)) eqn:E; simpl.
    + apply bool_decide_eq_true in E. split; [done | intros [? _]; congruence].
    + apply bool_decide_eq_false in E. rewrite IH. split; [| tauto].
      intros ?. split; [congruence | done].
Qed.

Lemma poolGet_app (p q : RelayPool) u :
  poolGet (p ++ q) u = match poolGet p u with
                       | Some r => Some r
                       | None => poolGet q u
                       end.
Proof.
  unfold poolGet. induction p as [| [k r] p IH]; simpl; [done |].
  by destruct (bool_decide (k = u)).
Qed.

Lemma poolGet_url (pool : RelayPool) u r :
  Forall (fun ur => url ur.2 = ur.1) pool -> poolGet pool u = Some r -> url r = u.
Proof.
  unfold poolGet. induction 1 as [| [k r0] pool Hk _ IH]; simpl; [done |].
  destruct (bool_decide (k = u)) eqn:E; simpl; [| done].
  apply bool_decide_eq_true in E. intros [= <-]. by rewrite <- E.
Qed.

Lemma poolDelete_get (pool : RelayPool) u other :
  poolGet (poolDelete pool u) other
  = if bool_decide (other = u) then None else poolGet pool other.
Proof.
  unfold poolGet, poolDelete. induction pool as [| [k r] pool IH]; simpl.
  - by destruct (bool_decide (other = u)).
  - destruct (bool_decide (k = u)) eqn:E; simpl.
    + apply bool_decide_eq_true in E as ->.
      rewrite IH. destruct (bool_decide (other = u)) eqn:E2; [done |].
      apply bool_decide_eq_false in E2.
      by rewrite bool_decide_eq_false_2 by congruence.
    + destruct (bool_decide (k = other)) eqn:E2; simpl; [| done].
      apply bool_decide_eq_true in E2 as ->.
      by rewrite E.
Qed.

Lemma poolDelete_absent (pool : RelayPool) u :
  u ∉ pool.*1 -> poolDelete pool u = pool.
Proof.
  unfold poolDelete. induction pool as [| [k r] pool IH]; simpl; [done |].
  rewrite not_elem_of_cons. intros [Hk Hp].
  rewrite bool_decide_eq_false_2 by congruence. simpl. by rewrite IH.
Qed.

Lemma poolDelete_OK (pool : RelayPool) u : poolOK pool -> poolOK (poolDelete pool u).
Proof.
  unfold poolOK, poolDelete. intros [Hnd Hall]. split.
  - induction pool as [| [k r] pool IH]; simpl; [constructor |].
    apply NoDup_cons in Hnd as [Hk Hnd]. apply Forall_cons in Hall as [_ Hall].
    destruct (bool_decide (k = u)); simpl; [by apply IH |].
    apply NoDup_cons. split; [| by apply IH].
    intros Hin. apply Hk. apply list_elem_of_fmap in Hin as (ur & -> & Hin).
    apply list_elem_of_fmap. exists ur. split; [done |].
    apply list_elem_of_In, filter_In in Hin as [Hin _].
    by apply list_elem_of_In.
  - apply Forall_forall. intros ur Hin.
    apply list_elem_of_In, filter_In in Hin as [Hin _].
    apply list_elem_of_In in Hin.
    by apply (proj1 (Forall_forall _ _) Hall).
Qed.

Section PoolFacts.
Variable normalizeURL : jsstring -> result jsstring.

(** X28: [addRelay] keeps one connection a normalized url: the url is
    added at the end with a new connection when the pool does not have
    it, and otherwise the pool is unchanged and the connection it holds
    is returned; a second call with any url that normalizes to the same
    string returns that same connection. *)
Theorem addRelay_one_connection (u n : list Z) (pool : RelayPool) :
  poolOK pool ->
  normalizeURL u = Ok n ->
  normalizeURL n = Ok n ->
  exists pool' r,
    addRelay normalizeURL u pool = Ok (pool', r) /\
    poolOK pool' /\
    poolGet pool' n = Some r /\ url r = n /\
    (forall r0, poolGet pool n = Some r0 -> pool' = pool /\ r = r0) /\
    (poolGet pool n = None -> pool' = pool ++ [(n, newRelay n)]) /\
    (forall other, other <> n -> poolGet pool' other = poolGet pool other) /\
    (forall u2, normalizeURL u2 = Ok n ->
                addRelay normalizeURL u2 pool' = Ok (pool', r)).
Proof.
  intros [Hnd Hall] Hn Hfix. unfold addRelay. rewrite Hn. simpl.
  destruct (poolGet pool n) as [r0 |] eqn:Hg.
  - exists pool, r0. split; [done |]. split; [done |]. split; [done |].
    split; [by eapply poolGet_url |].
    split; [by intros ? [= <-] |]. split; [done |]. split; [done |].
    intros u2 Hu2. rewrite Hu2. simpl. by rewrite Hg.
  - unfold createRelay. rewrite Hfix. simpl.
    assert (Hget : poolGet (pool ++ [(n, newRelay n)]) n = Some (newRelay n)).
    { rewrite poolGet_app, Hg. unfold poolGet. simpl.
      by rewrite bool_decide_eq_true_2. }
    exists (pool ++ [(n, newRelay n)]), (newRelay n).
    split; [done |]. split.
    { split.
      - rewrite fmap_app. apply NoDup_app. split; [done |]. split.
        + intros x Hx Hx'. simpl in Hx'. apply list_elem_of_singleton in Hx' as ->.
          by apply poolGet_None in Hg.
        + simpl. apply NoDup_singleton.
      - apply Forall_app. split; [done |]. by constructor. }
    split; [done |]. split; [done |]. split; [done |]. split; [done |].
    split.
    + intros other Hne. rewrite poolGet_app.
      destruct (poolGet pool other); [done |]. unfold poolGet. simpl.
      by rewrite bool_decide_eq_false_2 by congruence.
    + intros u2 Hu2. rewrite Hu2. simpl. by rewrite Hget.
Qed.

(** X29: [removeRelay] takes the connection of the normalized url out of
    the pool and closes it, leaving every other member in place; it does
    nothing for a url the pool does not have, and undoes an [addRelay]
    that added the url. *)
Theorem removeRelay_takes_out (u n : list Z) (pool : RelayPool) :
  poolOK pool ->
  normalizeURL u = Ok n ->
  exists pool' closed,
    removeRelay normalizeURL u pool = Ok (pool', closed) /\
    poolOK pool' /\
    poolGet pool' n = None /\
    closed = close <$> poolGet pool n /\
    (forall other, other <> n -> poolGet pool' other = poolGet pool other) /\
    (poolGet pool n = None -> pool' = pool) /\
    (forall added r,
        poolGet pool n = None ->
        addRelay normalizeURL u pool = Ok (added, r) ->
        removeRelay normalizeURL u added = Ok (pool, Some (close r))).
Proof.
  intros Hok Hn. unfold removeRelay. rewrite Hn. simpl.
  assert (Hadd : forall added r,
             poolGet pool n = None ->
             addRelay normalizeURL u pool = Ok (added, r) ->
             match poolGet added n with
             | Some relay => Ok (poolDelete added n, Some (close relay))
             | None => Ok (added, None)
             end = Ok (pool, Some (close r))).
  { intros added r Hg Ha. unfold addRelay, createRelay in Ha.
    rewrite Hn in Ha. simpl in Ha. rewrite Hg in Ha.
    destruct (normalizeURL n) as [n' | e]; simpl in Ha; [| done].
    injection Ha as <- <-.
    rewrite poolGet_app, Hg. unfold poolGet at 1. simpl.
    rewrite bool_decide_eq_true_2 by done. simpl.
    unfold poolDelete. rewrite List.filter_app. simpl.
    rewrite bool_decide_eq_true_2 by done. simpl. rewrite app_nil_r.
    fold (poolDelete pool n).
    by rewrite poolDelete_absent by (by apply poolGet_None). }
  destruct (poolGet pool n) as [r0 |] eqn:Hg.
  - eexists _, _. split; [done |]. split; [by apply poolDelete_OK |].
    split; [by rewrite poolDelete_get, bool_decide_eq_true_2 |].
    split; [done |]. split; [| split; [done |]].
    + intros other Hne. by rewrite poolDelete_get, bool_decide_eq_false_2.
    + intros added r Hno. done.
  - eexists _, _. split; [done |]. split; [done |]. split; [done |].
    split; [done |]. split; [done |]. split; [done |].
    intros added r _ Ha. by apply Hadd.
Qed.

End PoolFacts.

Lemma poolSubscribe_members rand filters onEvent onEose (pool : RelayPool) :
  forall first,
  Forall (fun ur => socketWhenConnected ur.2) pool ->
  exists pool',
    poolSubscribe rand first filters onEvent onEose pool
    = Ok (pool', imap (fun i ur => (url ur.2, generateSubId (rand (first + i)%nat))) pool) /\
    pool'.*1 = pool.*1 /\
    forall i ur', pool' !! i = Some ur' ->
      forall event,
        handleMessage (eventMessage (generateSubId (rand (first + i)%nat)) event) ur'.2
        = Ok [OnEvent onEvent event].
Proof.
  induction pool as [| [k r] pool IH]; intros first Hall; simpl.
  - exists []. repeat split; try done.
  - apply Forall_cons in Hall as [Hr Hall]. simpl in Hr.
    destruct (subscribe_registries (rand first) filters onEvent onEose r Hr)
      as (r' & -> & _ & Hev & _).
    simpl. destruct (IH (S first) Hall) as (pool' & -> & Hk & Hd). simpl.
    exists ((k, r') :: pool'). split.
    + rewrite Nat.add_0_r. do 3 f_equal.
      apply imap_ext. intros i ur _. simpl. do 3 f_equal. lia.
    + split; [by rewrite !fmap_cons, Hk |].
      intros [| i] ur' Hl event; simpl in Hl.
      * injection Hl as <-. simpl. rewrite Nat.add_0_r.
        by rewrite handleMessage_event, Hev, lookup_insert_eq.
      * replace (first + S i)%nat with (S first + i)%nat by lia.
        by apply Hd.
Qed.

(** X30: [RelayPool.subscribe] subscribes once at every member and
    returns, in the order of the pool, the url of each member with the
    id of its subscription; afterwards an EVENT message with that id
    arriving at that member invokes [onEvent] with its event. *)
Theorem poolSubscribe_every_member rand filters (onEvent : callback)
    (onEose : option callback) (pool : RelayPool) :
  Forall (fun ur => socketWhenConnected ur.2) pool ->
  exists pool',
    poolSubscribe rand 0 filters onEvent onEose pool
    = Ok (pool', imap (fun i ur => (url ur.2, generateSubId (rand i))) pool) /\
    pool'.*1 = pool.*1 /\
    forall i ur', pool' !! i = Some ur' ->
      forall event,
        handleMessage (eventMessage (generateSubId (rand i)) event) ur'.2
        = Ok [OnEvent onEvent event].
Proof.
  intros Hall.
  destruct (poolSubscribe_members rand filters onEvent onEose pool 0 Hall)
    as (pool' & Hs & Hk & Hd).
  exists pool'. done.
Qed.

End Dispatch.

Lemma subscribe_then_dispatch_witness :
  exists r',
    subscribe (js "0.4fzyo82mvyr") [] 1%nat (Some 2%nat) (openRelay demoUrl)
    = Ok (r', generateSubId (js "0.4fzyo82mvyr")) /\
    (forall event,
        handleMessage (eventMessage (generateSubId (js "0.4fzyo82mvyr")) event) r'
        = Ok [OnEvent 1%nat event]) /\
    handleMessage (eoseMessage (generateSubId (js "0.4fzyo82mvyr"))) r'
    = Ok [OnEose 2%nat].
Proof.
  destruct (subscribe_then_dispatch (js "0.4fzyo82mvyr") [] 1%nat (Some 2%nat)
              (openRelay demoUrl)) as (r' & H1 & H2 & H3 & _).
  - intros _. simpl. eauto.
  - exists r'. split; [exact H1 |]. split; [exact H2 |]. by apply H3.
Defined.

Lemma unsubscribe_then_dropped_witness :
  exists r',
    unsubscribe (js "i") (openRelay demoUrl) = Ok r' /\
    (forall event, handleMessage (eventMessage (js "i") event) r' = Ok []) /\
    handleMessage (eoseMessage (js "i")) r' = Ok [].
Proof.
  destruct (unsubscribe_then_dropped (js "i") (openRelay demoUrl))
    as (r' & H1 & H2 & H3 & _).
  - intros _. simpl. eauto.
  - exists r'. split; [exact H1 |]. split; [exact H2 | exact H3].
Defined.

Lemma addRelay_one_connection_witness :
  exists pool' r,
    addRelay withScheme (js "relay.example.com") demoPool = Ok (pool', r) /\
    pool' = demoPool /\ r = openRelay demoUrl.
Proof.
  destruct (addRelay_one_connection withScheme (js "relay.example.com") demoUrl
              demoPool) as (pool' & r & H1 & _ & _ & _ & H2 & _).
  - split; [apply NoDup_singleton | by repeat constructor].
  - reflexivity.
  - reflexivity.
  - exists pool', r. split; [exact H1 |]. by apply H2.
Defined.

Lemma removeRelay_takes_out_witness :
  exists pool' closed,
    removeRelay withScheme (js "relay.example.com") demoPool
    = Ok (pool', closed) /\
    poolGet pool' demoUrl = None /\
    closed = Some (close (openRelay demoUrl)).
Proof.
  destruct (removeRelay_takes_out withScheme (js "relay.example.com") demoUrl
              demoPool) as (pool' & closed & H1 & _ & H2 & H3 & _).
  - split; [apply NoDup_singleton | by repeat constructor].
  - reflexivity.
  - exists pool', closed. split; [exact H1 |]. split; [exact H2 | exact H3].
Defined.

Lemma poolSubscribe_every_member_witness :
  exists pool',
    poolSubscribe (fun _ => js "0.4fzyo82mvyr") 0 [] 1%nat None demoPool
    = Ok (pool', [(demoUrl, js "4fzyo82mvyr")]) /\
    pool'.*1 = [demoUrl].
Proof.
  destruct (poolSubscribe_every_member (fun _ => js "0.4fzyo82mvyr") [] 1%nat
              None demoPool) as (pool' & H1 & H2 & _).
  - constructor; [| constructor]. intros _. simpl. eauto.
  - exists pool'. split; [exact H1 | exact H2].
Defined.

End RelayMessages.
